(** * The dev-server module graph (server/moduleGraph.ts)

    A shallow embedding of [ModuleNode] and [ModuleGraph]: the three lookup
    indexes, the two pending-resolution caches, the import graph updater and
    the invalidation engine.

    Objects live in an explicit store: a [ModuleNode] instance is an index
    into [heap], so reference equality of nodes is equality of indexes and
    an assignment [mod.f = v] is an in-place update of the store. *)

From Stdlib Require Import ZArith Lia Ascii.
From stdpp Require Import base option list strings numbers.

Local Open Scope string_scope.
Local Open Scope Z_scope.
Local Open Scope nat_scope.
Local Open Scope list_scope.
Local Open Scope stdpp_scope.

(** ** JavaScript containers *)

(** A JS [Set] iterates in insertion order and holds no duplicates. *)
Module JsSet.
Section ops.
Context {A : Type} `{EqDecision A}.

Definition has (x : A) (s : list A) : bool := bool_decide (x ∈ s).

Definition add (x : A) (s : list A) : list A :=
  if has x s then s else s ++ [x].

Definition delete (x : A) (s : list A) : list A :=
  filter (λ y, y ≠ x) s.

(** [new Set(iterable)] *)
Definition of_list (l : list A) : list A :=
  foldl (λ s x, add x s) [] l.

End ops.
End JsSet.

Arguments JsSet.add : simpl never.
Arguments JsSet.delete : simpl never.
Arguments JsSet.of_list : simpl never.

(** A JS [Map] keyed by strings: [set] on a present key replaces the value
    in place, on an absent key it appends; [forEach] follows that order. *)
Module JsMap.
Section ops.
Context {V : Type}.

Fixpoint get (k : string) (m : list (string * V)) : option V :=
  match m with
  | [] => None
  | (k', v) :: m' => if decide (k' = k) then Some v else get k m'
  end.

Definition has (k : string) (m : list (string * V)) : bool :=
  match get k m with Some _ => true | None => false end.

Fixpoint set (k : string) (v : V) (m : list (string * V)) : list (string * V) :=
  match m with
  | [] => [(k, v)]
  | (k', v') :: m' =>
      if decide (k' = k) then (k, v) :: m' else (k', v') :: set k v m'
  end.

(** The values in [forEach] order. *)
Definition values (m : list (string * V)) : list V := m.*2.

End ops.
End JsMap.

(** ** Module nodes *)

(** A reference to a [ModuleNode] instance: its index in the store. *)
Abbreviation ref := nat (only parsing).

(** Payloads the graph stores and hands back without ever looking inside
    ([TransformResult], rollup's [ModuleInfo], [meta], the evaluated ssr
    module, an [Error]). *)
Abbreviation JsObject := string (only parsing).

Inductive ModuleType := js | css.

Record ModuleNode := mkModuleNode {
  url : string;
  id : option string;
  file : option string;
  type : ModuleType;
  info : option JsObject;
  meta : option JsObject;
  importers : list ref;
  clientImportedModules : list ref;
  ssrImportedModules : list ref;
  acceptedHmrDeps : list ref;
  acceptedHmrExports : option (list string);
  importedBindings : option (list (string * list string));
  isSelfAccepting : option bool;
  transformResult : option JsObject;
  ssrTransformResult : option JsObject;
  ssrModule : option JsObject;
  ssrError : option JsObject;
  lastHMRTimestamp : Z;
  lastInvalidationTimestamp : Z
}.

(** [get importedModules()]: a fresh set, the client edges then the ssr
    edges. *)
Definition importedModules (m : ModuleNode) : list ref :=
  foldl (λ s x, JsSet.add x s) (clientImportedModules m) (ssrImportedModules m).

(** Field assignments [m.f = v], one per field the graph writes. *)
Definition set_id (v : option string) (m : ModuleNode) : ModuleNode :=
  {| url := url m; id := v; file := file m; type := type m; info := info m;
     meta := meta m; importers := importers m;
     clientImportedModules := clientImportedModules m;
     ssrImportedModules := ssrImportedModules m;
     acceptedHmrDeps := acceptedHmrDeps m;
     acceptedHmrExports := acceptedHmrExports m;
     importedBindings := importedBindings m;
     isSelfAccepting := isSelfAccepting m;
     transformResult := transformResult m;
     ssrTransformResult := ssrTransformResult m; ssrModule := ssrModule m;
     ssrError := ssrError m; lastHMRTimestamp := lastHMRTimestamp m;
     lastInvalidationTimestamp := lastInvalidationTimestamp m |}.

Definition set_file (v : option string) (m : ModuleNode) : ModuleNode :=
  {| url := url m; id := id m; file := v; type := type m; info := info m;
     meta := meta m; importers := importers m;
     clientImportedModules := clientImportedModules m;
     ssrImportedModules := ssrImportedModules m;
     acceptedHmrDeps := acceptedHmrDeps m;
     acceptedHmrExports := acceptedHmrExports m;
     importedBindings := importedBindings m;
     isSelfAccepting := isSelfAccepting m;
     transformResult := transformResult m;
     ssrTransformResult := ssrTransformResult m; ssrModule := ssrModule m;
     ssrError := ssrError m; lastHMRTimestamp := lastHMRTimestamp m;
     lastInvalidationTimestamp := lastInvalidationTimestamp m |}.

Definition set_meta (v : option JsObject) (m : ModuleNode) : ModuleNode :=
  {| url := url m; id := id m; file := file m; type := type m;
     info := info m; meta := v; importers := importers m;
     clientImportedModules := clientImportedModules m;
     ssrImportedModules := ssrImportedModules m;
     acceptedHmrDeps := acceptedHmrDeps m;
     acceptedHmrExports := acceptedHmrExports m;
     importedBindings := importedBindings m;
     isSelfAccepting := isSelfAccepting m;
     transformResult := transformResult m;
     ssrTransformResult := ssrTransformResult m; ssrModule := ssrModule m;
     ssrError := ssrError m; lastHMRTimestamp := lastHMRTimestamp m;
     lastInvalidationTimestamp := lastInvalidationTimestamp m |}.

Definition set_importers (v : list ref) (m : ModuleNode) : ModuleNode :=
  {| url := url m; id := id m; file := file m; type := type m;
     info := info m; meta := meta m; importers := v;
     clientImportedModules := clientImportedModules m;
     ssrImportedModules := ssrImportedModules m;
     acceptedHmrDeps := acceptedHmrDeps m;
     acceptedHmrExports := acceptedHmrExports m;
     importedBindings := importedBindings m;
     isSelfAccepting := isSelfAccepting m;
     transformResult := transformResult m;
     ssrTransformResult := ssrTransformResult m; ssrModule := ssrModule m;
     ssrError := ssrError m; lastHMRTimestamp := lastHMRTimestamp m;
     lastInvalidationTimestamp := lastInvalidationTimestamp m |}.

Definition set_clientImportedModules (v : list ref) (m : ModuleNode) : ModuleNode :=
  {| url := url m; id := id m; file := file m; type := type m;
     info := info m; meta := meta m; importers := importers m;
     clientImportedModules := v; ssrImportedModules := ssrImportedModules m;
     acceptedHmrDeps := acceptedHmrDeps m;
     acceptedHmrExports := acceptedHmrExports m;
     importedBindings := importedBindings m;
     isSelfAccepting := isSelfAccepting m;
     transformResult := transformResult m;
     ssrTransformResult := ssrTransformResult m; ssrModule := ssrModule m;
     ssrError := ssrError m; lastHMRTimestamp := lastHMRTimestamp m;
     lastInvalidationTimestamp := lastInvalidationTimestamp m |}.

Definition set_ssrImportedModules (v : list ref) (m : ModuleNode) : ModuleNode :=
  {| url := url m; id := id m; file := file m; type := type m;
     info := info m; meta := meta m; importers := importers m;
     clientImportedModules := clientImportedModules m;
     ssrImportedModules := v; acceptedHmrDeps := acceptedHmrDeps m;
     acceptedHmrExports := acceptedHmrExports m;
     importedBindings := importedBindings m;
     isSelfAccepting := isSelfAccepting m;
     transformResult := transformResult m;
     ssrTransformResult := ssrTransformResult m; ssrModule := ssrModule m;
     ssrError := ssrError m; lastHMRTimestamp := lastHMRTimestamp m;
     lastInvalidationTimestamp := lastInvalidationTimestamp m |}.

Definition set_acceptedHmrDeps (v : list ref) (m : ModuleNode) : ModuleNode :=
  {| url := url m; id := id m; file := file m; type := type m;
     info := info m; meta := meta m; importers := importers m;
     clientImportedModules := clientImportedModules m;
     ssrImportedModules := ssrImportedModules m; acceptedHmrDeps := v;
     acceptedHmrExports := acceptedHmrExports m;
     importedBindings := importedBindings m;
     isSelfAccepting := isSelfAccepting m;
     transformResult := transformResult m;
     ssrTransformResult := ssrTransformResult m; ssrModule := ssrModule m;
     ssrError := ssrError m; lastHMRTimestamp := lastHMRTimestamp m;
     lastInvalidationTimestamp := lastInvalidationTimestamp m |}.

Definition set_acceptedHmrExports (v : option (list string)) (m : ModuleNode) : ModuleNode :=
  {| url := url m; id := id m; file := file m; type := type m;
     info := info m; meta := meta m; importers := importers m;
     clientImportedModules := clientImportedModules m;
     ssrImportedModules := ssrImportedModules m;
     acceptedHmrDeps := acceptedHmrDeps m; acceptedHmrExports := v;
     importedBindings := importedBindings m;
     isSelfAccepting := isSelfAccepting m;
     transformResult := transformResult m;
     ssrTransformResult := ssrTransformResult m; ssrModule := ssrModule m;
     ssrError := ssrError m; lastHMRTimestamp := lastHMRTimestamp m;
     lastInvalidationTimestamp := lastInvalidationTimestamp m |}.

Definition set_importedBindings (v : option (list (string * list string))) (m : ModuleNode) : ModuleNode :=
  {| url := url m; id := id m; file := file m; type := type m;
     info := info m; meta := meta m; importers := importers m;
     clientImportedModules := clientImportedModules m;
     ssrImportedModules := ssrImportedModules m;
     acceptedHmrDeps := acceptedHmrDeps m;
     acceptedHmrExports := acceptedHmrExports m; importedBindings := v;
     isSelfAccepting := isSelfAccepting m;
     transformResult := transformResult m;
     ssrTransformResult := ssrTransformResult m; ssrModule := ssrModule m;
     ssrError := ssrError m; lastHMRTimestamp := lastHMRTimestamp m;
     lastInvalidationTimestamp := lastInvalidationTimestamp m |}.

Definition set_isSelfAccepting (v : option bool) (m : ModuleNode) : ModuleNode :=
  {| url := url m; id := id m; file := file m; type := type m;
     info := info m; meta := meta m; importers := importers m;
     clientImportedModules := clientImportedModules m;
     ssrImportedModules := ssrImportedModules m;
     acceptedHmrDeps := acceptedHmrDeps m;
     acceptedHmrExports := acceptedHmrExports m;
     importedBindings := importedBindings m; isSelfAccepting := v;
     transformResult := transformResult m;
     ssrTransformResult := ssrTransformResult m; ssrModule := ssrModule m;
     ssrError := ssrError m; lastHMRTimestamp := lastHMRTimestamp m;
     lastInvalidationTimestamp := lastInvalidationTimestamp m |}.

Abbreviation Heap := (list ModuleNode) (only parsing).

(** Field reads through a reference. In the source a reference always
    points at a live object; a reference outside the store reads as an
    empty set here and an update through it changes nothing. *)
Definition importers_of (h : Heap) (r : ref) : list ref :=
  from_option importers [] (h !! r).

Definition acceptedHmrDeps_of (h : Heap) (r : ref) : list ref :=
  from_option acceptedHmrDeps [] (h !! r).

Definition clientImportedModules_of (h : Heap) (r : ref) : list ref :=
  from_option clientImportedModules [] (h !! r).

Definition ssrImportedModules_of (h : Heap) (r : ref) : list ref :=
  from_option ssrImportedModules [] (h !! r).

(** ** Invalidation engine *)

(** The assignments [invalidateModule] makes to [mod]: one of the two
    timestamps, then the four cached artifacts. *)
Definition invalidated (isHmr : bool) (timestamp : Z) (m : ModuleNode) : ModuleNode :=
  {| url := url m; id := id m; file := file m; type := type m;
     info := info m; meta := meta m;
     importers := importers m;
     clientImportedModules := clientImportedModules m;
     ssrImportedModules := ssrImportedModules m;
     acceptedHmrDeps := acceptedHmrDeps m;
     acceptedHmrExports := acceptedHmrExports m;
     importedBindings := importedBindings m;
     isSelfAccepting := isSelfAccepting m;
     transformResult := None;
     ssrTransformResult := None;
     ssrModule := None;
     ssrError := None;
     lastHMRTimestamp := if isHmr then timestamp else lastHMRTimestamp m;
     lastInvalidationTimestamp :=
       if isHmr then lastInvalidationTimestamp m else timestamp |}.

(** [mod.importers.forEach(importer => ...)]: the callback of the walk,
    with the recursive call abstracted as [rec]. The store and [seen] are
    threaded through; [None] is "out of fuel". *)
Fixpoint walkImporters (rec : Heap → ref → list ref → option (Heap * list ref))
    (md : ref) (todo : list ref) (h : Heap) (seen : list ref)
    : option (Heap * list ref) :=
  match todo with
  | [] => Some (h, seen)
  | importer :: todo' =>
      if negb (JsSet.has md (acceptedHmrDeps_of h importer)) then
        match rec h importer seen with
        | Some (h', seen') => walkImporters rec md todo' h' seen'
        | None => None
        end
      else walkImporters rec md todo' h seen
  end.

(** [invalidateModule(md, seen, timestamp, isHmr, hmrBoundaries)]. The
    recursion follows importer edges and is cut by [seen]; [fuel] bounds its
    depth. The recursive call passes no [hmrBoundaries], so the default
    [[]] applies above the first level. Returns the store and [seen], both
    mutated in place by the source. *)
Fixpoint invalidateModule_fuel (fuel : nat) (h : Heap) (md : ref)
    (seen : list ref) (timestamp : Z) (isHmr : bool) (hmrBoundaries : list ref)
    : option (Heap * list ref) :=
  match fuel with
  | O => None
  | S fuel' =>
      if JsSet.has md seen then Some (h, seen)
      else
        let seen := JsSet.add md seen in
        let h := alter (invalidated isHmr timestamp) md h in
        if bool_decide (md ∈ hmrBoundaries) then Some (h, seen)
        else
          walkImporters
            (λ h importer seen,
               invalidateModule_fuel fuel' h importer seen timestamp isHmr [])
            md (importers_of h md) h seen
  end.

(** The depth of the walk is at most the number of nodes of the store, so
    this much fuel always suffices ([invalidateModule_fuel_enough]). *)
Definition invalidateModule (h : Heap) (md : ref) (seen : list ref)
    (timestamp : Z) (isHmr : bool) (hmrBoundaries : list ref)
    : Heap * list ref :=
  default (h, seen)
    (invalidateModule_fuel (S (length h)) h md seen timestamp isHmr hmrBoundaries).

(** ** Strings *)

(** The [String.prototype] methods [_resolveUrl] uses, on byte strings. *)
Module JsString.

Definition startsWith (s pre : string) : bool := String.prefix pre s.

Definition endsWith (s suf : string) : bool :=
  let n := String.length s in
  let k := String.length suf in
  (k <=? n) && String.eqb (String.substring (n - k) k s) suf.

Fixpoint includes (s sub : string) : bool :=
  String.prefix sub s ||
  match s with
  | EmptyString => false
  | String _ s' => includes s' sub
  end.

(** [s.slice(start)] for [0 <= start] *)
Definition slice (s : string) (start : nat) : string :=
  String.substring start (String.length s - start) s.

(** Truthiness of a string: non-empty. *)
Definition truthy (s : string) : bool :=
  match s with EmptyString => false | String _ _ => true end.

Definition NUL : string := String Ascii.zero EmptyString.

End JsString.

(** ** Imported helpers

    [moduleGraph.ts] imports [cleanUrl], [normalizePath],
    [removeImportQuery], [removeTimestampQuery] from [../utils],
    [isDirectCSSRequest] from [../plugins/css], [FS_PREFIX] from
    [../constants] and [extname] from [node:path]. The graph is
    parametric in them. *)
Class Imports := {
  removeImportQuery : string → string;
  removeTimestampQuery : string → string;
  cleanUrl : string → string;
  normalizePath : string → string;
  isDirectCSSRequest : string → bool;
  extname : string → string;
  FS_PREFIX : string
}.

(** ** The module graph *)

(** rollup's [PartialResolvedId], the fields the graph reads. *)
Record PartialResolvedId := mkResolved {
  resolved_id : string;
  resolved_meta : option JsObject
}.

(** How the promise returned by [resolveId(url, ssr)] settles: with a
    [PartialResolvedId], with [null], or by rejection. *)
Inductive ResolveOutcome :=
  | Resolves (r : option PartialResolvedId)
  | Rejects.

(** [ResolvedUrl]: served url, resolved id, meta. *)
Abbreviation ResolvedUrl := (string * string * option string)%type (only parsing).

(** The three states of a promise. *)
Inductive PromiseState (A : Type) :=
  | Pending
  | Fulfilled (a : A)
  | Rejected.
Arguments Pending {A}.
Arguments Fulfilled {A} a.
Arguments Rejected {A}.

(** What the pending caches hold: [Promise<ModuleNode> | ModuleNode]. A
    promise is a reference into [promises]. *)
Inductive Handle :=
  | HNode (n : ref)
  | HPromise (p : nat).

(** The closure of the [modPromise] async function of
    [_ensureEntryFromUrl], suspended at its [await]. *)
Record EnsureTask := mkEnsureTask {
  task_rawUrl : string;
  task_ssr : bool;
  task_setIsSelfAccepting : bool;
  task_resolved : option PartialResolvedId
}.

(** [ModuleGraph]: the store of node objects, the three indexes, the two
    pending caches, the [modPromise] objects created so far and, as a ghost
    field, the log of the calls made to the injected [resolveId].
    ([safeModulesPath] is written by no method of the class and is left
    out.) *)
Record ModuleGraph := mkModuleGraph {
  heap : Heap;
  urlToModuleMap : list (string * ref);
  idToModuleMap : list (string * ref);
  fileToModulesMap : list (string * list ref);
  _unresolvedUrlToModuleMap : list (string * Handle);
  _ssrUnresolvedUrlToModuleMap : list (string * Handle);
  promises : list (EnsureTask * PromiseState ref);
  resolveIdCalls : list (string * bool)
}.

(** [new ModuleGraph(resolveId)] *)
Definition emptyGraph : ModuleGraph :=
  {| heap := []; urlToModuleMap := []; idToModuleMap := [];
     fileToModulesMap := []; _unresolvedUrlToModuleMap := [];
     _ssrUnresolvedUrlToModuleMap := []; promises := [];
     resolveIdCalls := [] |}.

(** Replacement of one component of the graph. *)
Definition with_heap (v : Heap) (g : ModuleGraph) : ModuleGraph :=
  {| heap := v; urlToModuleMap := urlToModuleMap g;
     idToModuleMap := idToModuleMap g;
     fileToModulesMap := fileToModulesMap g;
     _unresolvedUrlToModuleMap := _unresolvedUrlToModuleMap g;
     _ssrUnresolvedUrlToModuleMap := _ssrUnresolvedUrlToModuleMap g;
     promises := promises g; resolveIdCalls := resolveIdCalls g |}.

Definition with_urlToModuleMap (v : list (string * ref)) (g : ModuleGraph) : ModuleGraph :=
  {| heap := heap g; urlToModuleMap := v; idToModuleMap := idToModuleMap g;
     fileToModulesMap := fileToModulesMap g;
     _unresolvedUrlToModuleMap := _unresolvedUrlToModuleMap g;
     _ssrUnresolvedUrlToModuleMap := _ssrUnresolvedUrlToModuleMap g;
     promises := promises g; resolveIdCalls := resolveIdCalls g |}.

Definition with_idToModuleMap (v : list (string * ref)) (g : ModuleGraph) : ModuleGraph :=
  {| heap := heap g; urlToModuleMap := urlToModuleMap g; idToModuleMap := v;
     fileToModulesMap := fileToModulesMap g;
     _unresolvedUrlToModuleMap := _unresolvedUrlToModuleMap g;
     _ssrUnresolvedUrlToModuleMap := _ssrUnresolvedUrlToModuleMap g;
     promises := promises g; resolveIdCalls := resolveIdCalls g |}.

Definition with_fileToModulesMap (v : list (string * list ref)) (g : ModuleGraph) : ModuleGraph :=
  {| heap := heap g; urlToModuleMap := urlToModuleMap g;
     idToModuleMap := idToModuleMap g; fileToModulesMap := v;
     _unresolvedUrlToModuleMap := _unresolvedUrlToModuleMap g;
     _ssrUnresolvedUrlToModuleMap := _ssrUnresolvedUrlToModuleMap g;
     promises := promises g; resolveIdCalls := resolveIdCalls g |}.

Definition with_unresolvedUrlToModuleMap (v : list (string * Handle)) (g : ModuleGraph) : ModuleGraph :=
  {| heap := heap g; urlToModuleMap := urlToModuleMap g;
     idToModuleMap := idToModuleMap g;
     fileToModulesMap := fileToModulesMap g; _unresolvedUrlToModuleMap := v;
     _ssrUnresolvedUrlToModuleMap := _ssrUnresolvedUrlToModuleMap g;
     promises := promises g; resolveIdCalls := resolveIdCalls g |}.

Definition with_ssrUnresolvedUrlToModuleMap (v : list (string * Handle)) (g : ModuleGraph) : ModuleGraph :=
  {| heap := heap g; urlToModuleMap := urlToModuleMap g;
     idToModuleMap := idToModuleMap g;
     fileToModulesMap := fileToModulesMap g;
     _unresolvedUrlToModuleMap := _unresolvedUrlToModuleMap g;
     _ssrUnresolvedUrlToModuleMap := v; promises := promises g;
     resolveIdCalls := resolveIdCalls g |}.

Definition with_promises (v : list (EnsureTask * PromiseState ref)) (g : ModuleGraph) : ModuleGraph :=
  {| heap := heap g; urlToModuleMap := urlToModuleMap g;
     idToModuleMap := idToModuleMap g;
     fileToModulesMap := fileToModulesMap g;
     _unresolvedUrlToModuleMap := _unresolvedUrlToModuleMap g;
     _ssrUnresolvedUrlToModuleMap := _ssrUnresolvedUrlToModuleMap g;
     promises := v; resolveIdCalls := resolveIdCalls g |}.

Definition with_resolveIdCalls (v : list (string * bool)) (g : ModuleGraph) : ModuleGraph :=
  {| heap := heap g; urlToModuleMap := urlToModuleMap g;
     idToModuleMap := idToModuleMap g;
     fileToModulesMap := fileToModulesMap g;
     _unresolvedUrlToModuleMap := _unresolvedUrlToModuleMap g;
     _ssrUnresolvedUrlToModuleMap := _ssrUnresolvedUrlToModuleMap g;
     promises := promises g; resolveIdCalls := v |}.

Section registry.
Context {U : Imports}.

(** [new ModuleNode(url, setIsSelfAccepting)] *)
Definition newModuleNode (url : string) (setIsSelfAccepting : bool) : ModuleNode :=
  {| url := url; id := None; file := None;
     type := if isDirectCSSRequest url then css else js;
     info := None; meta := None;
     importers := []; clientImportedModules := []; ssrImportedModules := [];
     acceptedHmrDeps := []; acceptedHmrExports := None;
     importedBindings := None;
     isSelfAccepting := if setIsSelfAccepting then Some false else None;
     transformResult := None; ssrTransformResult := None;
     ssrModule := None; ssrError := None;
     lastHMRTimestamp := 0; lastInvalidationTimestamp := 0 |}.

(** [removeImportQuery(removeTimestampQuery(rawUrl))] *)
Definition stripMarkers (rawUrl : string) : string :=
  removeImportQuery (removeTimestampQuery rawUrl).

Definition _getUnresolvedUrlToModule (g : ModuleGraph) (url : string) (ssr : bool)
    : option Handle :=
  JsMap.get url
    (if ssr then _ssrUnresolvedUrlToModuleMap g else _unresolvedUrlToModuleMap g).

Definition _setUnresolvedUrlToModule (g : ModuleGraph) (url : string)
    (md : Handle) (ssr : bool) : ModuleGraph :=
  if ssr
  then with_ssrUnresolvedUrlToModuleMap
         (JsMap.set url md (_ssrUnresolvedUrlToModuleMap g)) g
  else with_unresolvedUrlToModuleMap
         (JsMap.set url md (_unresolvedUrlToModuleMap g)) g.

(** [_resolveUrl] from its [await] on: [resolved] is [alreadyResolved] or
    what the resolver's promise was fulfilled with. *)
Definition _resolveUrl_resume (url : string) (resolved : option PartialResolvedId)
    : ResolvedUrl :=
  let resolvedId :=
    match resolved with
    | Some r => if JsString.truthy (resolved_id r) then resolved_id r else url
    | None => url
    end in
  let url :=
    if bool_decide (url ≠ resolvedId)
       && negb (JsString.includes url JsString.NUL)
       && negb (JsString.startsWith url "virtual:")
    then
      let ext := extname (cleanUrl resolvedId) in
      if JsString.truthy ext then
        let pathname := cleanUrl url in
        if negb (JsString.endsWith pathname ext)
        then pathname +:+ ext +:+ JsString.slice url (String.length pathname)
        else url
      else url
    else url in
  (url, resolvedId, from_option resolved_meta None resolved).

(** [_resolveUrl(url, ssr, alreadyResolved)] given how the resolver's
    promise settles; [None] is a rejected result. With [alreadyResolved]
    the resolver is not consulted. *)
Definition _resolveUrl (url : string) (alreadyResolved : option PartialResolvedId)
    (outcome : ResolveOutcome) : option ResolvedUrl :=
  match alreadyResolved with
  | Some r => Some (_resolveUrl_resume url (Some r))
  | None =>
      match outcome with
      | Resolves r => Some (_resolveUrl_resume url r)
      | Rejects => None
      end
  end.

(** [_ensureEntryFromUrl] up to the point where it returns: the quick path
    on a cached handle, or else the start of [modPromise]. The async
    function runs synchronously into [_resolveUrl], which calls [resolveId]
    (unless [resolved] was passed) and suspends; [modPromise] is then
    published in the pending cache and returned. *)
Definition _ensureEntryFromUrl (g : ModuleGraph) (rawUrl : string) (ssr : bool)
    (setIsSelfAccepting : bool) (resolved : option PartialResolvedId)
    : ModuleGraph * Handle :=
  let rawUrl := stripMarkers rawUrl in
  match _getUnresolvedUrlToModule g rawUrl ssr with
  | Some md => (g, md)
  | None =>
      let g :=
        match resolved with
        | Some _ => g
        | None => with_resolveIdCalls (resolveIdCalls g ++ [(rawUrl, ssr)]) g
        end in
      let modPromise := length (promises g) in
      let g :=
        with_promises
          (promises g ++ [(mkEnsureTask rawUrl ssr setIsSelfAccepting resolved, Pending)])
          g in
      let g := _setUnresolvedUrlToModule g rawUrl (HPromise modPromise) ssr in
      (g, HPromise modPromise)
  end.

Definition ensureEntryFromUrl (g : ModuleGraph) (rawUrl : string) (ssr : bool)
    (setIsSelfAccepting : bool) : ModuleGraph * Handle :=
  _ensureEntryFromUrl g rawUrl ssr setIsSelfAccepting None.

(** The body of [modPromise] after [await this._resolveUrl(...)] returned
    [[url, resolvedId, meta]]: find or create the node, register it, cache
    it under [rawUrl]. Returns the node. *)
Definition materialize (g : ModuleGraph) (task : EnsureTask) (res : ResolvedUrl)
    : ModuleGraph * ref :=
  let '(url, resolvedId, meta) := res in
  let '(g, md) :=
    match JsMap.get resolvedId (idToModuleMap g) with
    | None =>
        let md := length (heap g) in
        let node := newModuleNode url (task_setIsSelfAccepting task) in
        let node := match meta with Some _ => set_meta meta node | None => node end in
        let g := with_urlToModuleMap (JsMap.set url md (urlToModuleMap g)) g in
        let node := set_id (Some resolvedId) node in
        let g := with_idToModuleMap (JsMap.set resolvedId md (idToModuleMap g)) g in
        let file := cleanUrl resolvedId in
        let node := set_file (Some file) node in
        let fileMappedModules := default [] (JsMap.get file (fileToModulesMap g)) in
        let g :=
          with_fileToModulesMap
            (JsMap.set file (JsSet.add md fileMappedModules) (fileToModulesMap g)) g in
        (with_heap (heap g ++ [node]) g, md)
    | Some md =>
        if negb (JsMap.has url (urlToModuleMap g))
        then (with_urlToModuleMap (JsMap.set url md (urlToModuleMap g)) g, md)
        else (g, md)
    end in
  (_setUnresolvedUrlToModule g (task_rawUrl task) (HNode md) (task_ssr task), md).

Definition settlePromise (g : ModuleGraph) (p : nat) (st : PromiseState ref)
    : ModuleGraph :=
  with_promises (alter (λ e, (e.1, st)) p (promises g)) g.

(** The resolver's promise awaited by [modPromise] number [p] settles with
    [outcome] and [modPromise] runs to its end. A promise settles once:
    nothing happens unless [p] is pending. *)
Definition resumeEnsureEntry (g : ModuleGraph) (p : nat) (outcome : ResolveOutcome)
    : ModuleGraph :=
  match promises g !! p with
  | Some (task, Pending) =>
      match _resolveUrl (task_rawUrl task) (task_resolved task) outcome with
      | Some res =>
          let '(g, md) := materialize g task res in
          settlePromise g p (Fulfilled md)
      | None => settlePromise g p Rejected
      end
  | _ => g
  end.

(** The result of awaiting a handle, if it is settled. *)
Definition handleState (g : ModuleGraph) (hd : Handle) : PromiseState ref :=
  match hd with
  | HNode n => Fulfilled n
  | HPromise p => from_option snd Rejected (promises g !! p)
  end.

(** The test of the [for (const m of fileMappedModules)] loop of
    [createFileOnlyEntry]: [m.url === url || m.id === file]. *)
Definition fileEntryMatches (g : ModuleGraph) (url' file : string) (m : ref) : bool :=
  match heap g !! m with
  | Some node => bool_decide (url node = url') || bool_decide (id node = Some file)
  | None => false
  end.

(** [createFileOnlyEntry(file)] *)
Definition createFileOnlyEntry (g : ModuleGraph) (file : string) : ModuleGraph * ref :=
  let file := normalizePath file in
  let '(g, fileMappedModules) :=
    match JsMap.get file (fileToModulesMap g) with
    | Some s => (g, s)
    | None => (with_fileToModulesMap (JsMap.set file [] (fileToModulesMap g)) g, [])
    end in
  let url' := FS_PREFIX +:+ file in
  match List.find (fileEntryMatches g url' file) fileMappedModules with
  | Some m => (g, m)
  | None =>
      let md := length (heap g) in
      let node := set_file (Some file) (newModuleNode url' true) in
      let g :=
        with_fileToModulesMap
          (JsMap.set file (JsSet.add md fileMappedModules) (fileToModulesMap g)) g in
      (with_heap (heap g ++ [node]) g, md)
  end.

Definition getModuleById (g : ModuleGraph) (id : string) : option ref :=
  JsMap.get (removeTimestampQuery id) (idToModuleMap g).

Definition getModulesByFile (g : ModuleGraph) (file : string) : option (list ref) :=
  JsMap.get file (fileToModulesMap g).

(** [getModuleByUrl(rawUrl, ssr)], as the state of the promise it returns
    once the resolver's promise has settled with [outcome]: a cached handle
    is returned as it is, otherwise the url index is read after
    [_resolveUrl]. *)
Definition getModuleByUrl (g : ModuleGraph) (rawUrl : string) (ssr : bool)
    (outcome : ResolveOutcome) : PromiseState (option ref) :=
  let rawUrl := stripMarkers rawUrl in
  match _getUnresolvedUrlToModule g rawUrl ssr with
  | Some hd =>
      match handleState g hd with
      | Fulfilled n => Fulfilled (Some n)
      | Pending => Pending
      | Rejected => Rejected
      end
  | None =>
      match _resolveUrl rawUrl None outcome with
      | Some (url, _, _) => Fulfilled (JsMap.get url (urlToModuleMap g))
      | None => Rejected
      end
  end.

(** [resolveUrl(url, ssr)], as the state of the promise it returns: it
    awaits the cached handle, answers from the cached node when that has an
    id, and falls back to [_resolveUrl]. *)
Definition resolveUrl (g : ModuleGraph) (url' : string) (ssr : bool)
    (outcome : ResolveOutcome) : PromiseState ResolvedUrl :=
  let url' := stripMarkers url' in
  let fallback :=
    match _resolveUrl url' None outcome with
    | Some res => Fulfilled res
    | None => Rejected
    end in
  match _getUnresolvedUrlToModule g url' ssr with
  | Some hd =>
      match handleState g hd with
      | Fulfilled n =>
          match heap g !! n with
          | Some node =>
              match id node with
              | Some i =>
                  if JsString.truthy i
                  then Fulfilled (url node, i, meta node)
                  else fallback
              | None => fallback
              end
          | None => fallback
          end
      | Pending => Pending
      | Rejected => Rejected
      end
  | None => fallback
  end.

(** [mods.forEach(mod => this.invalidateModule(mod, seen))]: the default
    [timestamp = Date.now()] is evaluated at each call; [now i] is the
    [i]-th reading of the clock. *)
Fixpoint onFileChange_walk (now : nat → Z) (i : nat) (mods : list ref)
    (h : Heap) (seen : list ref) : Heap * list ref :=
  match mods with
  | [] => (h, seen)
  | md :: mods' =>
      let '(h, seen) := invalidateModule h md seen (now i) false [] in
      onFileChange_walk now (S i) mods' h seen
  end.

Definition onFileChange (g : ModuleGraph) (file : string) (now : nat → Z)
    : ModuleGraph :=
  match getModulesByFile g file with
  | Some mods => with_heap (onFileChange_walk now 0 mods (heap g) []).1 g
  | None => g
  end.

(** [this.idToModuleMap.forEach(mod => this.invalidateModule(mod, seen,
    timestamp))] *)
Fixpoint invalidateAll_walk (timestamp : Z) (mods : list ref)
    (h : Heap) (seen : list ref) : Heap * list ref :=
  match mods with
  | [] => (h, seen)
  | md :: mods' =>
      let '(h, seen) := invalidateModule h md seen timestamp false [] in
      invalidateAll_walk timestamp mods' h seen
  end.

(** [invalidateAll()], [timestamp] being its one reading of [Date.now()]. *)
Definition invalidateAll (g : ModuleGraph) (timestamp : Z) : ModuleGraph :=
  with_heap
    (invalidateAll_walk timestamp (JsMap.values (idToModuleMap g)) (heap g) []).1 g.

(** *** Import graph updater *)

(** An element of [importedModules] or [acceptedModules]:
    [string | ModuleNode]. *)
Inductive Entry :=
  | EUrl (u : string)
  | ENode (n : ref).

(** [dep.importers.add(mod)] and [dep.importers.delete(mod)] *)
Definition addImporter (md dep : ref) (h : Heap) : Heap :=
  alter (λ n, set_importers (JsSet.add md (importers n)) n) dep h.

Definition deleteImporter (md dep : ref) (h : Heap) : Heap :=
  alter (λ n, set_importers (JsSet.delete md (importers n)) n) dep h.

(** The [for (const imported of importedModules)] loop, which runs without
    suspending: a node entry is recorded at once (and, in the import loop,
    gets [mod] as an importer), a string entry starts [ensureEntryFromUrl]
    and its handle is kept in [waits] with the slot of [resolveResults] it
    will fill. [link] tells the import loop from the accept loop. *)
Fixpoint startResolving (link : bool) (md : ref) (ssr : bool)
    (entries : list Entry) (index : nat) (g : ModuleGraph)
    (resolveResults : list (option ref)) (waits : list (nat * Handle))
    : ModuleGraph * list (option ref) * list (nat * Handle) :=
  match entries with
  | [] => (g, resolveResults, waits)
  | EUrl u :: entries' =>
      let '(g, hd) := ensureEntryFromUrl g u ssr true in
      startResolving link md ssr entries' (S index) g resolveResults
        (waits ++ [(index, hd)])
  | ENode n :: entries' =>
      let g := if link then with_heap (addImporter md n (heap g)) g else g in
      startResolving link md ssr entries' (S index) g
        (<[index := Some n]> resolveResults) waits
  end.

(** Awaiting one handle while nothing else runs: a pending [modPromise]
    resumes when the resolver's promise settles, here with what
    [resolveId] answers for the task's url. [None]: the handle rejected. *)
Definition awaitHandle (resolveId : string → bool → ResolveOutcome)
    (g : ModuleGraph) (hd : Handle) : ModuleGraph * option ref :=
  let g :=
    match hd with
    | HPromise p =>
        match promises g !! p with
        | Some (task, Pending) =>
            resumeEnsureEntry g p (resolveId (task_rawUrl task) (task_ssr task))
        | _ => g
        end
    | HNode _ => g
    end in
  (g, match handleState g hd with Fulfilled n => Some n | _ => None end).

(** [await Promise.all(resolvePromises)], the promises settling in the
    order they were created, each followed by its [then] callback. The
    callbacks only touch [importers] and [resolveResults], the resumptions
    only the indexes and fresh nodes, so running each callback right after
    its resumption loses no interleaving of the two. A rejection makes
    [Promise.all] reject: [None]. *)
Fixpoint finishResolving (link : bool) (resolveId : string → bool → ResolveOutcome)
    (md : ref) (waits : list (nat * Handle)) (g : ModuleGraph)
    (resolveResults : list (option ref))
    : ModuleGraph * option (list (option ref)) :=
  match waits with
  | [] => (g, Some resolveResults)
  | (index, hd) :: waits' =>
      match awaitHandle resolveId g hd with
      | (g, Some dep) =>
          let g := if link then with_heap (addImporter md dep (heap g)) g else g in
          finishResolving link resolveId md waits' g (<[index := Some dep]> resolveResults)
      | (g, None) => (g, None)
      end
  end.

(** [prevImports.forEach(dep => ...)]: drop [mod] from the importers of the
    dependencies it no longer imports and collect the orphans.
    [noLongerImported] starts [undefined] ([None]). *)
Fixpoint pruneImporters (md : ref) (prevImports : list ref) (h : Heap)
    (noLongerImported : option (list ref)) : Heap * option (list ref) :=
  match prevImports with
  | [] => (h, noLongerImported)
  | dep :: prevImports' =>
      if negb (JsSet.has dep (clientImportedModules_of h md))
         && negb (JsSet.has dep (ssrImportedModules_of h md))
      then
        let h := deleteImporter md dep h in
        let noLongerImported :=
          if bool_decide (length (importers_of h dep) = 0)
          then Some (JsSet.add dep (default [] noLongerImported))
          else noLongerImported in
        pruneImporters md prevImports' h noLongerImported
      else pruneImporters md prevImports' h noLongerImported
  end.

(** What the promise returned by [updateModuleInfo] settles with. *)
Inductive UpdateResult :=
  | Completed (noLongerImported : option (list ref))
  | Threw.

(** [new Set(resolveResults)] once every slot is filled. *)
Definition resultSet (resolveResults : list (option ref)) : list ref :=
  JsSet.of_list (omap (λ x, x) resolveResults).

(** [updateModuleInfo(mod, importedModules, importedBindings,
    acceptedModules, acceptedExports, isSelfAccepting, ssr)], run with no
    other task interleaved. [importedModules] and [acceptedModules] are
    given in iteration order. *)
Definition updateModuleInfo (resolveId : string → bool → ResolveOutcome)
    (g : ModuleGraph) (md : ref) (importedModules : list Entry)
    (importedBindings : option (list (string * list string)))
    (acceptedModules : list Entry) (acceptedExports : option (list string))
    (isSelfAccepting : bool) (ssr : bool) : ModuleGraph * UpdateResult :=
  let g := with_heap (alter (set_isSelfAccepting (Some isSelfAccepting)) md (heap g)) g in
  let prevImports :=
    if ssr then ssrImportedModules_of (heap g) md
    else clientImportedModules_of (heap g) md in
  let '(g, resolveResults, waits) :=
    startResolving true md ssr importedModules 0 g
      (replicate (length importedModules) None) [] in
  match finishResolving true resolveId md waits g resolveResults with
  | (g, None) => (g, Threw)
  | (g, Some resolveResults) =>
      let nextImports := resultSet resolveResults in
      let g :=
        with_heap
          (alter (if ssr then set_ssrImportedModules nextImports
                  else set_clientImportedModules nextImports) md (heap g)) g in
      let '(h, noLongerImported) := pruneImporters md prevImports (heap g) None in
      let g := with_heap h g in
      let '(g, resolveResults, waits) :=
        startResolving false md ssr acceptedModules 0 g
          (replicate (length acceptedModules) None) [] in
      match finishResolving false resolveId md waits g resolveResults with
      | (g, None) => (g, Threw)
      | (g, Some resolveResults) =>
          let update (n : ModuleNode) :=
            set_importedBindings importedBindings
              (set_acceptedHmrExports acceptedExports
                 (set_acceptedHmrDeps (resultSet resolveResults) n)) in
          (with_heap (alter update md (heap g)) g, Completed noLongerImported)
      end
  end.

(** *** The graph as a state machine

    The calls the collaborators can make, each running to its first
    suspension, and the settling of a resolver promise, which resumes the
    suspended [modPromise]. JavaScript runs each of these to completion
    before the next. *)
Inductive Event :=
  | EvEnsureEntry (rawUrl : string) (ssr : bool) (setIsSelfAccepting : bool)
      (resolved : option PartialResolvedId)
  | EvResolverSettles (p : nat) (outcome : ResolveOutcome)
  | EvCreateFileOnlyEntry (file : string)
  | EvInvalidateModule (md : ref) (seen : list ref) (timestamp : Z)
      (isHmr : bool) (hmrBoundaries : list ref)
  | EvInvalidateAll (timestamp : Z)
  | EvFileChange (file : string) (now : nat → Z)
  | EvUpdateModuleInfo (resolveId : string → bool → ResolveOutcome)
      (md : ref) (importedModules : list Entry)
      (importedBindings : option (list (string * list string)))
      (acceptedModules : list Entry) (acceptedExports : option (list string))
      (isSelfAccepting : bool) (ssr : bool).

Definition step (g : ModuleGraph) (e : Event) : ModuleGraph :=
  match e with
  | EvEnsureEntry rawUrl ssr sa resolved =>
      (_ensureEntryFromUrl g rawUrl ssr sa resolved).1
  | EvResolverSettles p outcome => resumeEnsureEntry g p outcome
  | EvCreateFileOnlyEntry file => (createFileOnlyEntry g file).1
  | EvInvalidateModule md seen timestamp isHmr hmrBoundaries =>
      with_heap (invalidateModule (heap g) md seen timestamp isHmr hmrBoundaries).1 g
  | EvInvalidateAll timestamp => invalidateAll g timestamp
  | EvFileChange file now => onFileChange g file now
  | EvUpdateModuleInfo resolveId md im ib am ae sa ssr =>
      (updateModuleInfo resolveId g md im ib am ae sa ssr).1
  end.

Definition run (g : ModuleGraph) (es : list Event) : ModuleGraph :=
  foldl step g es.

End registry.

(** ** A reference instance of the imported helpers *)

Module ViteUtils.

(** The text before the first character satisfying [stop]. *)
Fixpoint takeUntil (stop : Ascii.ascii → bool) (s : string) : string :=
  match s with
  | EmptyString => EmptyString
  | String c s' => if stop c then EmptyString else String c (takeUntil stop s')
  end.

(** The pieces of [s] between occurrences of [sep]. *)
Fixpoint splitOn (sep : Ascii.ascii) (s : string) : list string :=
  match s with
  | EmptyString => [EmptyString]
  | String c s' =>
      if Ascii.eqb c sep then EmptyString :: splitOn sep s'
      else
        match splitOn sep s' with
        | piece :: pieces => String c piece :: pieces
        | [] => [String c EmptyString]
        end
  end.

Fixpoint joinWith (sep : string) (pieces : list string) : string :=
  match pieces with
  | [] => EmptyString
  | [p] => p
  | p :: ps => p +:+ sep +:+ joinWith sep ps
  end.

(** Modelled from the spec: [cleanUrl] of [../utils] is not among the
    sources; the spec calls its result the query-stripped URL. The text up
    to the first [?] or [#]. *)
Definition cleanUrl (url : string) : string :=
  takeUntil (λ c, Ascii.eqb c "?" || Ascii.eqb c "#")%char url.

(** The query parameters of a url, and the url rebuilt from other ones. *)
Definition queryParams (url : string) : list string :=
  let path := takeUntil (λ c, Ascii.eqb c "?")%char url in
  if String.length path <? String.length url
  then splitOn "&"%char (JsString.slice url (S (String.length path)))
  else [].

Definition withParams (url : string) (params : list string) : string :=
  let path := takeUntil (λ c, Ascii.eqb c "?")%char url in
  match params with
  | [] => path
  | _ => path +:+ "?" +:+ joinWith "&" params
  end.

Definition isDigit (c : Ascii.ascii) : bool :=
  let n := Ascii.nat_of_ascii c in (48 <=? n) && (n <=? 57).

Fixpoint allDigits (s : string) : bool :=
  match s with
  | EmptyString => true
  | String c s' => isDigit c && allDigits s'
  end.

(** Modelled from the spec: [removeTimestampQuery] of [../utils] is not
    among the sources; the spec says it strips the HMR timestamp marker.
    The marker is a query parameter [t=] followed by thirteen digits. *)
Definition removeTimestampQuery (url : string) : string :=
  let isMarker (p : string) :=
    JsString.startsWith p "t=" && (String.length p =? 15)
    && allDigits (JsString.slice p 2) in
  withParams url (List.filter (λ p, negb (isMarker p)) (queryParams url)).

(** Modelled from the spec: [removeImportQuery] of [../utils] is not among
    the sources; the spec says it strips the import marker, the query
    parameter [import]. *)
Definition removeImportQuery (url : string) : string :=
  let isMarker (p : string) := String.eqb p "import" || String.eqb p "import=" in
  withParams url (List.filter (λ p, negb (isMarker p)) (queryParams url)).

(** Modelled from the spec: [normalizePath] of [../utils] is not among the
    sources; the source comments say it turns the path separators into
    [/]. *)
Fixpoint normalizePath (path : string) : string :=
  match path with
  | EmptyString => EmptyString
  | String c s' =>
      String (if Ascii.eqb c (Ascii.ascii_of_nat 92) then "/"%char else c)
        (normalizePath s')
  end.

(** [extname] of [node:path]: from the last [.] of the last path segment to
    its end, empty when that segment has no [.] or only a leading one. *)
Definition extname (path : string) : string :=
  let base := List.last (splitOn "/"%char path) EmptyString in
  let pieces := splitOn "."%char base in
  match pieces with
  | [] | [_] => EmptyString
  | first :: _ =>
      if (length pieces =? 2) && negb (JsString.truthy first) then EmptyString
      else "." +:+ List.last pieces EmptyString
  end.

(** Modelled from the spec: [isDirectCSSRequest] of [../plugins/css] is not
    among the sources; the spec says a node is a style when its url is a
    direct stylesheet request: a [.css] path with the [direct] query
    parameter. *)
Definition isDirectCSSRequest (url : string) : bool :=
  JsString.endsWith (cleanUrl url) ".css"
  && bool_decide ("direct" ∈ queryParams url).

(** Modelled from the spec: [FS_PREFIX] of [../constants] is not among
    the sources; the spec calls it the fs-root marker. *)
Definition FS_PREFIX : string := "/@fs/".

End ViteUtils.

#[export] Instance viteImports : Imports := {|
  removeImportQuery := ViteUtils.removeImportQuery;
  removeTimestampQuery := ViteUtils.removeTimestampQuery;
  cleanUrl := ViteUtils.cleanUrl;
  normalizePath := ViteUtils.normalizePath;
  isDirectCSSRequest := ViteUtils.isDirectCSSRequest;
  extname := ViteUtils.extname;
  FS_PREFIX := ViteUtils.FS_PREFIX
|}.

Example cleanUrl_ex : cleanUrl "/src/App.vue?vue&type=style#x" = "/src/App.vue".
Proof. reflexivity. Qed.
Example extname_ex : extname "/abs/src/App.vue" = ".vue" ∧ extname "/abs/.env" = EmptyString ∧ extname "/a.b/c" = EmptyString.
Proof. vm_compute. auto. Qed.
Example strip_ex : stripMarkers "/src/a.ts?import&t=1700000000000&x=1" = "/src/a.ts?x=1" ∧ stripMarkers "/src/a.ts?t=1700000000000" = "/src/a.ts".
Proof. vm_compute. auto. Qed.
Example resolve_ex : _resolveUrl "/src/App?x" None (Resolves (Some (mkResolved "/abs/src/App.vue" None))) = Some ("/src/App.vue?x", "/abs/src/App.vue", None).
Proof. vm_compute. reflexivity. Qed.

(** * Specifications *)

(** ** Invalidation walks *)

(** What a walk does to the store and to [seen]: the nodes it invalidates
    are appended to [seen] in the order their bodies run, each was absent
    from [seen] and is appended once, and the store changes at exactly those
    nodes, by [invalidated]. *)
Definition visited (isHmr : bool) (timestamp : Z) (h : Heap) (seen : list ref)
    (h' : Heap) (seen' : list ref) : Prop :=
  ∃ added : list ref,
    seen' = seen ++ added ∧ NoDup added ∧ (∀ x, x ∈ added → x ∉ seen) ∧
    ∀ n, h' !! n =
         if decide (n ∈ added) then invalidated isHmr timestamp <$> h !! n
         else h !! n.

(** The number of nodes among the first [n] of the store that are not in
    [seen]: the bound on the depth of a walk. *)
Fixpoint unseen (n : nat) (seen : list ref) : nat :=
  match n with
  | O => O
  | S k => (if decide (k ∈ seen) then 0 else 1) + unseen k seen
  end.

(** ** How the graph evolves *)

(** The fields fixed when a node is created. *)
Definition sameIdentity (a b : ModuleNode) : Prop :=
  url a = url b ∧ id a = id b ∧ file a = file b ∧ type a = type b
  ∧ info a = info b ∧ meta a = meta b.

(** The cached artifacts and the two timestamps: what invalidation
    writes. *)
Definition sameCache (a b : ModuleNode) : Prop :=
  transformResult a = transformResult b
  ∧ ssrTransformResult a = ssrTransformResult b
  ∧ ssrModule a = ssrModule b ∧ ssrError a = ssrError b
  ∧ lastHMRTimestamp a = lastHMRTimestamp b
  ∧ lastInvalidationTimestamp a = lastInvalidationTimestamp b.

(** The import and acceptance bookkeeping: what [updateModuleInfo]
    writes. *)
Definition sameEdges (a b : ModuleNode) : Prop :=
  importers a = importers b
  ∧ clientImportedModules a = clientImportedModules b
  ∧ ssrImportedModules a = ssrImportedModules b
  ∧ acceptedHmrDeps a = acceptedHmrDeps b
  ∧ acceptedHmrExports a = acceptedHmrExports b
  ∧ importedBindings a = importedBindings b
  ∧ isSelfAccepting a = isSelfAccepting b.

(** Every node of [h] is still in [h'], related by [R]. *)
Definition heapEvolves (R : ModuleNode → ModuleNode → Prop) (h h' : Heap) : Prop :=
  ∀ n node, h !! n = Some node → ∃ node', h' !! n = Some node' ∧ R node node'.

(** How many times [resolveId(u, ssr)] has been called. *)
Definition callsFor (u : string) (ssr : bool) (g : ModuleGraph) : nat :=
  length (filter (λ c, c = (u, ssr)) (resolveIdCalls g)).

(** What holds from one state of the graph to any later one: nodes stay
    where they are, related by [R]; a binding of the id index is never
    changed; a promise keeps its task and, once settled, its state. *)
Definition evolves (R : ModuleNode → ModuleNode → Prop) (g g' : ModuleGraph) : Prop :=
  heapEvolves R (heap g) (heap g')
  ∧ (∀ k n, JsMap.get k (idToModuleMap g) = Some n →
            JsMap.get k (idToModuleMap g') = Some n)
  ∧ (∀ p t st, promises g !! p = Some (t, st) →
       ∃ st', promises g' !! p = Some (t, st') ∧ (st = Pending ∨ st' = st)).

(** Single flight, for the key [(u, ssr)] of a pending cache: an entry is
    never removed and no call of the resolver is made for a key that has
    one; for a key without entry, either nothing happens or the resolver is
    called once and the entry appears. *)
Definition dedups (u : string) (ssr : bool) (g g' : ModuleGraph) : Prop :=
  (is_Some (_getUnresolvedUrlToModule g u ssr) →
     is_Some (_getUnresolvedUrlToModule g' u ssr)
     ∧ callsFor u ssr g' = callsFor u ssr g)
  ∧ (_getUnresolvedUrlToModule g u ssr = None →
     (_getUnresolvedUrlToModule g' u ssr = None ∧ callsFor u ssr g' = callsFor u ssr g)
     ∨ (is_Some (_getUnresolvedUrlToModule g' u ssr)
        ∧ callsFor u ssr g' = S (callsFor u ssr g))).

(** ** Invariants of the registry *)

(** Every [modPromise] is filed in the pending cache of its task, under
    the task's url, from the moment it exists. *)
Definition pendingCached (g : ModuleGraph) : Prop :=
  ∀ p t st, promises g !! p = Some (t, st) →
    is_Some (_getUnresolvedUrlToModule g (task_rawUrl t) (task_ssr t)).

(** [n] is a node of the store with a non-null id. *)
Definition hasId (h : Heap) (n : ref) : Prop :=
  ∃ node, h !! n = Some node ∧ id node ≠ None.

(** Every node the url index, the id index, a pending cache or a fulfilled
    promise refers to has an id. *)
Definition indexedHaveId (g : ModuleGraph) : Prop :=
  (∀ k n, (k, n) ∈ urlToModuleMap g → hasId (heap g) n)
  ∧ (∀ k n, (k, n) ∈ idToModuleMap g → hasId (heap g) n)
  ∧ (∀ k n, (k, HNode n) ∈ _unresolvedUrlToModuleMap g → hasId (heap g) n)
  ∧ (∀ k n, (k, HNode n) ∈ _ssrUnresolvedUrlToModuleMap g → hasId (heap g) n)
  ∧ (∀ p t n, promises g !! p = Some (t, Fulfilled n) → hasId (heap g) n).

(** Every [modPromise] stays filed under its task's key: the pending
    cache holds the promise itself until it is fulfilled, and from then on
    the node it was fulfilled with. *)
Definition promisesFiled (g : ModuleGraph) : Prop :=
  ∀ p t st, promises g !! p = Some (t, st) →
    _getUnresolvedUrlToModule g (task_rawUrl t) (task_ssr t) = Some (HPromise p)
    ∨ ∃ n, st = Fulfilled n
           ∧ _getUnresolvedUrlToModule g (task_rawUrl t) (task_ssr t) = Some (HNode n).

(** One step of the registry: the graph evolves and the two invariants
    are kept. *)
Definition advances (R : ModuleNode → ModuleNode → Prop) (g g' : ModuleGraph) : Prop :=
  evolves R g g'
  ∧ (pendingCached g → pendingCached g')
  ∧ (indexedHaveId g → indexedHaveId g').

(** What [updateModuleInfo] leaves alone in every node, and what the
    invalidation engine leaves alone. *)
Definition updateKeeps (a b : ModuleNode) : Prop := sameIdentity a b ∧ sameCache a b.

Definition invalidateKeeps (a b : ModuleNode) : Prop := sameIdentity a b ∧ sameEdges a b.

(** ** Timestamps *)

(** No timestamp stored in [h] exceeds [T]. *)
Definition stampsBelow (T : Z) (h : Heap) : Prop :=
  ∀ n node, h !! n = Some node →
    (lastHMRTimestamp node ≤ T)%Z ∧ (lastInvalidationTimestamp node ≤ T)%Z.

(** Neither timestamp of [b] is smaller than it is in [a]. *)
Definition stampsGrow (a b : ModuleNode) : Prop :=
  (lastHMRTimestamp a ≤ lastHMRTimestamp b)%Z
  ∧ (lastInvalidationTimestamp a ≤ lastInvalidationTimestamp b)%Z.

(** The timestamps the events of [es] pass to the invalidation engine, in
    the order they are used, never go back, starting from [T]. For
    [onFileChange], [now] gives the successive readings of the clock. *)
Fixpoint clockOk (T : Z) (es : list Event) : Prop :=
  match es with
  | [] => True
  | e :: es' =>
      match e with
      | EvInvalidateModule _ _ timestamp _ _ | EvInvalidateAll timestamp =>
          (T ≤ timestamp)%Z ∧ clockOk timestamp es'
      | EvFileChange _ now =>
          ∃ T', (∀ i, T ≤ now i ≤ T')%Z ∧ (∀ i j, i ≤ j → (now i ≤ now j)%Z)
                ∧ clockOk T' es'
      | _ => clockOk T es'
      end
  end.

(** A step of the registry that also respects single flight for every
    key and writes no timestamp: new nodes start at 0. *)
Definition progresses (R : ModuleNode → ModuleNode → Prop) (g g' : ModuleGraph) : Prop :=
  advances R g g'
  ∧ (pendingCached g → ∀ u ssr, dedups u ssr g g')
  ∧ (∀ T, (0 ≤ T)%Z → stampsBelow T (heap g) → stampsBelow T (heap g')).

Section url_specs.
Context {U : Imports}.

(** An event that is not a call of [_ensureEntryFromUrl] for the key
    [(u, ssr)] with an already resolved id, the one call that files a
    promise without consulting the resolver. *)
Definition consultsResolver (u : string) (ssr : bool) (e : Event) : Prop :=
  match e with
  | EvEnsureEntry rawUrl ssr' _ (Some _) => (stripMarkers rawUrl, ssr') ≠ (u, ssr)
  | _ => True
  end.

(** ** Extension reconciliation, as the specification words it *)



End url_specs.

(** ** Edges *)





(** ** Sample graphs *)

(** A stylesheet served at [/main.css] that pulls in [/abs/dep.css], a file
    with no url of its own: node 0 is in all three indexes, node 1 only in
    the file index. *)
Definition resolveAbs (u : string) (ssr : bool) : ResolveOutcome :=
  Resolves (Some (mkResolved ("/abs" +:+ u) None)).

Definition styleGraph : ModuleGraph :=
  let g := run emptyGraph
             [EvEnsureEntry "/main.css" false true None;
              EvResolverSettles 0 (resolveAbs "/main.css" false)] in
  let g := (createFileOnlyEntry g "/abs/dep.css").1 in
  (updateModuleInfo resolveAbs g 0 [ENode 1] None [] None false false).1.

(** A stylesheet requested at [/src/a.css] and resolved to
    [/abs/src/a.css]. *)
Definition importedStyleGraph : ModuleGraph :=
  run emptyGraph
    [EvEnsureEntry "/src/a.css" false true None;
     EvResolverSettles 0 (Resolves (Some (mkResolved "/abs/src/a.css" None)))].

(** Keys are unique in a map built by [set] from the empty map. *)
Definition uniqueKeys {V : Type} (m : list (string * V)) : Prop := NoDup m.*1.

(** A node with every cached artifact present and some bookkeeping. *)
Definition sampleNode : ModuleNode :=
  {| url := "/src/a.ts"; id := Some "/abs/src/a.ts"; file := Some "/abs/src/a.ts";
     type := js; info := Some "info"; meta := Some "meta";
     importers := [1]; clientImportedModules := [2]; ssrImportedModules := [3];
     acceptedHmrDeps := [2]; acceptedHmrExports := Some ["default"];
     importedBindings := Some [("/src/b.ts", ["x"])];
     isSelfAccepting := Some false;
     transformResult := Some "code"; ssrTransformResult := Some "ssr code";
     ssrModule := Some "module"; ssrError := Some "error";
     lastHMRTimestamp := 3; lastInvalidationTimestamp := 4 |}.



(** The graph of three resolutions: [/b/foo] and then [/a/foo] resolve to
    the id [/x/foo.js], and in between [/a/foo.js] resolves to
    [/y/foo.js]. *)
Definition aliasGraph : ModuleGraph :=
  run emptyGraph
    [EvEnsureEntry "/b/foo" false true None;
     EvResolverSettles 0 (Resolves (Some (mkResolved "/x/foo.js" None)));
     EvEnsureEntry "/a/foo.js" false true None;
     EvResolverSettles 1 (Resolves (Some (mkResolved "/y/foo.js" None)));
     EvEnsureEntry "/a/foo" false true None;
     EvResolverSettles 2 (Resolves (Some (mkResolved "/x/foo.js" None)))].

(** * Further specifications *)

(** ** Propagation *)

(** An update of [m] propagates to [x]: [x] imports [m] and does not accept
    it, the test of the importer loop of [invalidateModule]. *)
Definition propagates (h : Heap) (m x : ref) : Prop :=
  x ∈ importers_of h m ∧ m ∉ acceptedHmrDeps_of h x.

(** The nodes an update of [md] propagates to, through any number of
    importers. *)
Inductive propagatesTo (h : Heap) (md : ref) : ref → Prop :=
  | propagatesTo_root : propagatesTo h md md
  | propagatesTo_step m x :
      propagatesTo h md m → propagates h m x → propagatesTo h md x.

(** Both stores answer the reads of the importer loop alike. *)
Definition sameReads (h h0 : Heap) : Prop :=
  ∀ y, importers_of h y = importers_of h0 y
       ∧ acceptedHmrDeps_of h y = acceptedHmrDeps_of h0 y.

(** What a walk from the roots [roots] adds to [seen], in terms of the
    store [h0] it started from: every root is in, whatever was added has
    all it propagates to in, and nothing is added that no root propagates
    to. *)
Definition walked (h0 : Heap) (roots : list ref) (seen seen' : list ref) : Prop :=
  (∀ i, i ∈ roots → i ∈ seen')
  ∧ (∀ m x, m ∈ seen' → m ∉ seen → propagates h0 m x → x ∈ seen')
  ∧ (∀ x, x ∈ seen' → x ∈ seen ∨ ∃ i, i ∈ roots ∧ propagatesTo h0 i x).

Section registration_specs.
Context {U : Imports}.

(** From [g] to [g'] the file index keeps every set it had, with the
    members it had in the order it had them. *)
Definition filesGrow (g g' : ModuleGraph) : Prop :=
  ∀ f s, getModulesByFile g f = Some s → ∃ s', getModulesByFile g' f = Some (s ++ s').

End registration_specs.


(** Everything of the graph but the contents of its nodes. *)
Definition sameRegistry (g g' : ModuleGraph) : Prop :=
  length (heap g') = length (heap g)
  ∧ urlToModuleMap g' = urlToModuleMap g ∧ idToModuleMap g' = idToModuleMap g
  ∧ fileToModulesMap g' = fileToModulesMap g
  ∧ _unresolvedUrlToModuleMap g' = _unresolvedUrlToModuleMap g
  ∧ _ssrUnresolvedUrlToModuleMap g' = _ssrUnresolvedUrlToModuleMap g
  ∧ promises g' = promises g ∧ resolveIdCalls g' = resolveIdCalls g.

(** * The esbuild plugin (plugins/esbuild.ts)

    [resolveEsbuildTranspileOptions] computes the options of the final
    esbuild pass over a rendered chunk from the resolved build config. *)

(** ** JavaScript values

    The values the option objects hold. An object is the list of its own
    properties in insertion order, read and written like a [JsMap]. *)
Module Js.

#[warnings="-register-all"]
Inductive value :=
  | undefined
  | null
  | boolean (b : bool)
  | number (n : Z)
  | str (s : string)
  | array (items : list value)
  | object (props : list (string * value)).

(** [ToBoolean] *)
Definition truthy (v : value) : bool :=
  match v with
  | undefined | null => false
  | boolean b => b
  | number n => negb (n =? 0)%Z
  | str s => JsString.truthy s
  | array _ | object _ => true
  end.

(** [v === 's'] *)
Definition is_str (v : value) (s : string) : bool :=
  match v with
  | str s' => bool_decide (s' = s)
  | _ => false
  end.

(** [v != null] *)
Definition not_nullish (v : value) : bool :=
  match v with
  | undefined | null => false
  | _ => true
  end.

(** [a || b] and [a ?? b] *)
Definition or (a b : value) : value := if truthy a then a else b.

Definition coalesce (a b : value) : value := if not_nullish a then a else b.

(** [o.k] on a value: [undefined] when [o] has no such property. *)
Definition prop (o : value) (k : string) : value :=
  match o with
  | object props => default undefined (JsMap.get k props)
  | _ => undefined
  end.

(** [{ ...acc, ...src }]: the own properties of [src] are assigned in
    order. [undefined], [null], booleans and numbers have none; strings
    and arrays, which have index properties, do not occur where the
    plugin spreads (the option types exclude them). *)
Definition spread (acc : list (string * value)) (src : value) : list (string * value) :=
  match src with
  | object props => foldl (λ o kv, JsMap.set kv.1 kv.2 o) acc props
  | _ => acc
  end.

(** [{ ...acc, k1: v1, ... }] *)
Definition assign (acc : list (string * value)) (kvs : list (string * value))
    : list (string * value) :=
  foldl (λ o kv, JsMap.set kv.1 kv.2 o) acc kvs.


(** [v === undefined], [v === true] and [typeof v === 'string'] *)
Definition is_undefined (v : value) : bool :=
  match v with
  | undefined => true
  | _ => false
  end.

Definition is_true (v : value) : bool :=
  match v with
  | boolean true => true
  | _ => false
  end.

Definition is_string (v : value) : bool :=
  match v with
  | str _ => true
  | _ => false
  end.

(** [delete o.k] *)
Definition delete (k : string) (o : list (string * value)) : list (string * value) :=
  filter (λ kv, kv.1 ≠ k) o.

End Js.

Module Esbuild.

(** [InternalModuleFormat] of rollup *)
Inductive InternalModuleFormat := amd | cjs | es | iife | system | umd.

(** The fields of [ResolvedConfig] the function reads: [config.build.target],
    [config.build.minify], [config.build.lib] and [config.esbuild]. *)
Record ResolvedConfig := mkResolvedConfig {
  build_target : Js.value;
  build_minify : Js.value;
  build_lib : Js.value;
  config_esbuild : Js.value;
}.

(** [rollupToEsbuildFormatMap[format]]: [iife] is mapped to [undefined],
    the other formats are not in the map. *)
Definition rollupToEsbuildFormatMap (format : InternalModuleFormat) : Js.value :=
  match format with
  | es => Js.str "esm"
  | cjs => Js.str "cjs"
  | _ => Js.undefined
  end.

(** [resolveEsbuildTranspileOptions(config, format)]; [None] is [null]. *)
Definition resolveEsbuildTranspileOptions (config : ResolvedConfig)
    (format : InternalModuleFormat) : option (list (string * Js.value)) :=
  let target := build_target config in
  let minify := Js.is_str (build_minify config) "esbuild" in
  if (negb (Js.truthy target) || Js.is_str target "esnext") && negb minify then None
  else
    let isEsLibBuild :=
      Js.truthy (build_lib config)
      && match format with es => true | _ => false end in
    let esbuildOptions := Js.or (config_esbuild config) (Js.object []) in
    let options :=
      Js.assign
        (Js.spread [("charset", Js.str "utf8")] esbuildOptions)
        [("target", Js.or target Js.undefined);
         ("format", rollupToEsbuildFormatMap format);
         ("supported",
          Js.object
            (Js.spread
               [("dynamic-import", Js.boolean true); ("import-meta", Js.boolean true)]
               (Js.prop esbuildOptions "supported")))] in
    let opt k := Js.prop (Js.object options) k in
    if negb minify then
      Some (Js.assign options
              [("minify", Js.boolean false);
               ("minifyIdentifiers", Js.boolean false);
               ("minifySyntax", Js.boolean false);
               ("minifyWhitespace", Js.boolean false);
               ("treeShaking", Js.boolean false)])
    else if Js.not_nullish (opt "minifyIdentifiers")
            || Js.not_nullish (opt "minifySyntax")
            || Js.not_nullish (opt "minifyWhitespace") then
      if isEsLibBuild then
        Some (Js.assign options
                [("minify", Js.boolean false);
                 ("minifyIdentifiers",
                  Js.coalesce (opt "minifyIdentifiers") (Js.boolean true));
                 ("minifySyntax", Js.coalesce (opt "minifySyntax") (Js.boolean true));
                 ("minifyWhitespace", Js.boolean false);
                 ("treeShaking", Js.boolean true)])
      else
        Some (Js.assign options
                [("minify", Js.boolean false);
                 ("minifyIdentifiers",
                  Js.coalesce (opt "minifyIdentifiers") (Js.boolean true));
                 ("minifySyntax", Js.coalesce (opt "minifySyntax") (Js.boolean true));
                 ("minifyWhitespace",
                  Js.coalesce (opt "minifyWhitespace") (Js.boolean true));
                 ("treeShaking", Js.boolean true)])
    else if isEsLibBuild then
      Some (Js.assign options
              [("minify", Js.boolean false);
               ("minifyIdentifiers", Js.boolean true);
               ("minifySyntax", Js.boolean true);
               ("minifyWhitespace", Js.boolean false);
               ("treeShaking", Js.boolean true)])
    else
      Some (Js.assign options
              [("minify", Js.boolean true); ("treeShaking", Js.boolean true)]).

(** The own properties of a value that [Js.spread] copies. *)
Definition ownProps (v : Js.value) : list (string * Js.value) :=
  match v with
  | Js.object props => props
  | _ => []
  end.

(** The keys [resolveEsbuildTranspileOptions] assigns itself. *)
Definition assignedKeys : list string :=
  ["target"; "format"; "supported"; "minify"; "minifyIdentifiers"; "minifySyntax";
   "minifyWhitespace"; "treeShaking"].

(** The [options] object [resolveEsbuildTranspileOptions] builds before it
    decides the minify flags. *)
Definition optionsObject (config : ResolvedConfig) (format : InternalModuleFormat)
    : list (string * Js.value) :=
  let esbuildOptions := Js.or (config_esbuild config) (Js.object []) in
  Js.assign
    (Js.spread [("charset", Js.str "utf8")] esbuildOptions)
    [("target", Js.or (build_target config) Js.undefined);
     ("format", rollupToEsbuildFormatMap format);
     ("supported",
      Js.object
        (Js.spread
           [("dynamic-import", Js.boolean true); ("import-meta", Js.boolean true)]
           (Js.prop esbuildOptions "supported")))].

(** The keys of the flags each branch of [resolveEsbuildTranspileOptions]
    assigns over [options]. *)
Definition minifyKeys : list string :=
  ["minify"; "minifyIdentifiers"; "minifySyntax"; "minifyWhitespace"; "treeShaking"].


(** [meaningfulFields]: the fields of a tsconfig's [compilerOptions] that
    affect the compilation result. *)
Definition meaningfulFields : list string :=
  ["alwaysStrict"; "experimentalDecorators"; "importsNotUsedAsValues"; "jsx";
   "jsxFactory"; "jsxFragmentFactory"; "jsxImportSource"; "preserveValueImports";
   "target"; "useDefineForClassFields"; "verbatimModuleSyntax"].

(** The loader [transformWithEsbuild] picks: [options.loader], or else one
    derived from [ext], the extension of the file name without its dot
    ([path.extname(...).slice(1)], computed by node's [path] and a regular
    expression, taken as given). *)
Definition loaderFor (options : Js.value) (ext : string) : Js.value :=
  let loader := Js.prop options "loader" in
  if negb (Js.truthy loader) then
    if bool_decide (ext = "cjs") || bool_decide (ext = "mjs") then Js.str "js"
    else if bool_decide (ext = "cts") || bool_decide (ext = "mts") then Js.str "ts"
    else Js.str ext
  else loader.

(** Whether [transformWithEsbuild] awaits [loadTsconfigJsonForFile]. *)
Definition readsTsconfig (options : Js.value) (ext : string) : bool :=
  negb (Js.is_string (Js.prop options "tsconfigRaw"))
  && (Js.is_str (loaderFor options ext) "ts" || Js.is_str (loaderFor options ext) "tsx").

(** [for (const field of meaningfulFields) if (field in loaded)
    compilerOptionsForFile[field] = loaded[field]] *)
Definition pickMeaningful (loadedCompilerOptions : list (string * Js.value))
    : list (string * Js.value) :=
  foldl
    (λ acc field,
       if JsMap.has field loadedCompilerOptions
       then JsMap.set field (Js.prop (Js.object loadedCompilerOptions) field) acc
       else acc)
    [] meaningfulFields.

(** [options.k && (compilerOptions.field = undefined)] *)
Definition blankIf (options : Js.value) (k field : string)
    (compilerOptions : list (string * Js.value)) : list (string * Js.value) :=
  if Js.truthy (Js.prop options k) then JsMap.set field Js.undefined compilerOptions
  else compilerOptions.

(** The block of [transformWithEsbuild] under
    [if (typeof tsconfigRaw !== 'string')]: the [compilerOptions] handed to
    esbuild and [fallbackSupported]. [loadedTsconfig] is the
    [compilerOptions] of what [loadTsconfigJsonForFile(filename)] resolved
    with, a [TSConfigJSON]: an object when present. It is read for the
    loaders [ts] and [tsx] only. *)
Definition compilerOptionsFor (options : Js.value) (loader : Js.value)
    (loadedTsconfig : option (list (string * Js.value)))
    : list (string * Js.value) * list (string * Js.value) :=
  let tsconfigRaw := Js.prop options "tsconfigRaw" in
  let compilerOptionsForFile :=
    if Js.is_str loader "ts" || Js.is_str loader "tsx" then
      pickMeaningful (default [] loadedTsconfig)
    else [] in
  let compilerOptions :=
    Js.spread (Js.spread [] (Js.object compilerOptionsForFile))
      (Js.prop tsconfigRaw "compilerOptions") in
  let compilerOptions :=
    if Js.is_undefined (Js.prop (Js.object compilerOptions) "useDefineForClassFields")
       && Js.is_undefined (Js.prop (Js.object compilerOptions) "target")
    then JsMap.set "useDefineForClassFields" (Js.boolean false) compilerOptions
    else compilerOptions in
  let compilerOptions :=
    if Js.is_undefined (Js.prop (Js.object compilerOptions) "experimentalDecorators")
    then JsMap.set "experimentalDecorators" (Js.boolean true) compilerOptions
    else compilerOptions in
  let fallbackSupported :=
    if negb (Js.is_true (Js.prop (Js.object compilerOptions) "useDefineForClassFields"))
    then [("class-static-blocks", Js.boolean false)]
    else [] in
  let compilerOptions :=
    if Js.truthy options then
      blankIf options "jsxImportSource" "jsxImportSource"
        (blankIf options "jsxFragment" "jsxFragmentFactory"
           (blankIf options "jsxFactory" "jsxFactory"
              (blankIf options "jsx" "jsx" compilerOptions)))
    else compilerOptions in
  (compilerOptions, fallbackSupported).

(** [resolvedOptions], the options [transformWithEsbuild(code, filename,
    options)] hands to esbuild's [transform], once [include], [exclude] and
    [jsxInject] are deleted. *)
Definition resolvedOptions (filename ext : string) (options : Js.value)
    (loadedTsconfig : option (list (string * Js.value))) : list (string * Js.value) :=
  let loader := loaderFor options ext in
  let tsconfigRaw := Js.prop options "tsconfigRaw" in
  let '(tsconfigRaw, fallbackSupported) :=
    if negb (Js.is_string tsconfigRaw) then
      let '(compilerOptions, fallbackSupported) :=
        compilerOptionsFor options loader loadedTsconfig in
      (Js.object
         (JsMap.set "compilerOptions" (Js.object compilerOptions)
            (Js.spread [] tsconfigRaw)),
       fallbackSupported)
    else (tsconfigRaw, []) in
  Js.delete "jsxInject"
    (Js.delete "exclude"
       (Js.delete "include"
          (Js.assign
             (Js.spread
                [("sourcemap", Js.boolean true); ("sourcefile", Js.str filename)]
                options)
             [("loader", loader);
              ("tsconfigRaw", tsconfigRaw);
              ("supported",
               Js.object (Js.spread fallbackSupported (Js.prop options "supported")))]))).

(** What the merge [{...compilerOptionsForFile, ...tsconfigRaw?.compilerOptions}]
    holds for a field: the caller's value, else the tsconfig file's when the
    loader is [ts] or [tsx] and the field is a meaningful one. *)
Definition mergedField (options loader : Js.value)
    (loadedTsconfig : option (list (string * Js.value))) (f : string) : option Js.value :=
  match JsMap.get f
          (ownProps (Js.prop (Js.prop options "tsconfigRaw") "compilerOptions")) with
  | Some v => Some v
  | None =>
      if (Js.is_str loader "ts" || Js.is_str loader "tsx")
         && bool_decide (f ∈ meaningfulFields)
      then JsMap.get f (default [] loadedTsconfig)
      else None
  end.

(** [transformOptions] of [esbuildPlugin(config)], the options its
    [transform] hook passes to [transformWithEsbuild]. The destructuring
    [const { jsxInject, include, exclude, ...esbuildTransformOptions } =
    options] throws a [TypeError] on [undefined] and [null] ([None]); the
    rest holds the other own properties (a boolean or a number has none;
    strings and arrays, which have index properties, are no esbuild
    options). *)
Definition transformOptions (config : ResolvedConfig)
    : option (list (string * Js.value)) :=
  let options := config_esbuild config in
  if Js.not_nullish options then
    let esbuildTransformOptions :=
      Js.delete "exclude"
        (Js.delete "include" (Js.delete "jsxInject" (ownProps options))) in
    Some
      (Js.assign
         (Js.spread [("target", Js.str "esnext"); ("charset", Js.str "utf8")]
            (Js.object esbuildTransformOptions))
         [("minify", Js.boolean false);
          ("minifyIdentifiers", Js.boolean false);
          ("minifySyntax", Js.boolean false);
          ("minifyWhitespace", Js.boolean false);
          ("treeShaking", Js.boolean false);
          ("keepNames", Js.boolean false)])
  else None.

(** The options the [transform] hook of [esbuildPlugin(config)] has
    [transformWithEsbuild(code, id, transformOptions)] hand to esbuild for
    a module its filter lets through; [ext] is the extension of [id] as for
    [loaderFor]. *)
Definition pluginResolvedOptions (config : ResolvedConfig) (id ext : string)
    (loadedTsconfig : option (list (string * Js.value)))
    : option (list (string * Js.value)) :=
  (λ transformOptions,
     resolvedOptions id ext (Js.object transformOptions) loadedTsconfig)
  <$> transformOptions config.

(** The options [renderChunk] of [buildEsbuildPlugin(config)] has
    [transformWithEsbuild(code, chunk.fileName, options)] hand to esbuild;
    [None] where it returns [null] and leaves the chunk as it is. [skip] is
    [opts.__vite_skip_esbuild__], [format] is [opts.format]. *)
Definition renderChunkOptions (config : ResolvedConfig) (skip : Js.value)
    (format : InternalModuleFormat) (fileName ext : string)
    (loadedTsconfig : option (list (string * Js.value)))
    : option (list (string * Js.value)) :=
  if Js.truthy skip then None
  else
    match resolveEsbuildTranspileOptions config format with
    | None => None
    | Some options =>
        Some (resolvedOptions fileName ext (Js.object options) loadedTsconfig)
    end.

End Esbuild.

(** Sample configs: a library build minified by esbuild whose esbuild
    options ask for whitespace minification, and an application build
    minified by terser. *)
Definition libConfig : Esbuild.ResolvedConfig :=
  {| Esbuild.build_target := Js.array [Js.str "es2020"; Js.str "safari14"];
     Esbuild.build_minify := Js.str "esbuild";
     Esbuild.build_lib := Js.object [("entry", Js.str "src/index.ts")];
     Esbuild.config_esbuild :=
       Js.object [("minifyWhitespace", Js.boolean true);
                  ("legalComments", Js.str "none");
                  ("target", Js.str "es5")] |}.

Definition terserConfig : Esbuild.ResolvedConfig :=
  {| Esbuild.build_target := Js.str "es2015";
     Esbuild.build_minify := Js.str "terser";
     Esbuild.build_lib := Js.boolean false;
     Esbuild.config_esbuild :=
       Js.object [("minify", Js.boolean true); ("treeShaking", Js.boolean true)] |}.

(** A TypeScript file transformed with a jsx option set, its tsconfig
    declaring a target, a jsx mode and an option esbuild does not read. *)
Definition tsOptions : Js.value :=
  Js.object [("jsx", Js.str "automatic"); ("include", Js.str "src/**");
             ("sourcemap", Js.boolean false)].

Definition tsconfigJson : option (list (string * Js.value)) :=
  Some [("target", Js.str "ES2020"); ("jsx", Js.str "preserve");
        ("strict", Js.boolean true)].

(** Options naming a loader, options whose [tsconfigRaw] is a string, and
    options whose [tsconfigRaw] is an object declaring a target. *)
Definition jsOptions : Js.value := Js.object [("loader", Js.str "js")].

Definition rawStringOptions : Js.value :=
  Js.object [("tsconfigRaw", Js.str "{}");
             ("supported", Js.object [("bigint", Js.boolean true)])].

Definition rawObjectOptions : Js.value :=
  Js.object
    [("tsconfigRaw",
      Js.object [("compilerOptions", Js.object [("target", Js.str "ES2022")])])].

(** * Facts *)

Arguments invalidateModule : simpl never.
Arguments ensureEntryFromUrl : simpl never.
Arguments _ensureEntryFromUrl : simpl never.
Arguments resumeEnsureEntry : simpl never.
Arguments materialize : simpl never.
Arguments createFileOnlyEntry : simpl never.
Arguments awaitHandle : simpl never.
Arguments addImporter : simpl never.
Arguments deleteImporter : simpl never.
Arguments resultSet : simpl never.
Arguments callsFor : simpl never.

(** ** Containers *)

Section set_facts.
Context {A : Type} `{EqDecision A}.
Implicit Types (x y : A) (s l : list A).

Lemma has_true x s : JsSet.has x s = true ↔ x ∈ s.
Proof. unfold JsSet.has. by rewrite bool_decide_eq_true. Qed.

Lemma has_false x s : JsSet.has x s = false ↔ x ∉ s.
Proof. unfold JsSet.has. by rewrite bool_decide_eq_false. Qed.

Lemma add_fresh x s : x ∉ s → JsSet.add x s = s ++ [x].
Proof. intros E%has_false. unfold JsSet.add. by rewrite E. Qed.

Lemma add_present x s : x ∈ s → JsSet.add x s = s.
Proof. intros E%has_true. unfold JsSet.add. by rewrite E. Qed.

Lemma elem_of_add y x s : y ∈ JsSet.add x s ↔ y = x ∨ y ∈ s.
Proof.
  destruct (decide (x ∈ s)) as [Hin|Hout].
  - rewrite add_present by done. split; [by right | intros [->|]; done].
  - rewrite add_fresh by done. rewrite elem_of_app, list_elem_of_singleton. tauto.
Qed.

Lemma add_NoDup x s : NoDup s → NoDup (JsSet.add x s).
Proof.
  intros Hs. destruct (decide (x ∈ s)) as [Hin|Hout].
  - by rewrite add_present.
  - rewrite add_fresh by done. apply list.NoDup_app.
    split_and!; [done| |apply NoDup_singleton].
    by intros y Hy ->%list_elem_of_singleton.
Qed.


Lemma elem_of_add_fold l s y :
  y ∈ foldl (λ s x, JsSet.add x s) s l ↔ y ∈ s ∨ y ∈ l.
Proof.
  revert s. induction l as [|a l IH]; intros s; simpl.
  - rewrite elem_of_nil. tauto.
  - rewrite IH, elem_of_add, elem_of_cons. tauto.
Qed.


End set_facts.

Section map_facts.
Context {V : Type}.
Implicit Types (k : string) (v : V) (m : list (string * V)).

Lemma get_set_eq k v m : JsMap.get k (JsMap.set k v m) = Some v.
Proof.
  induction m as [|[k' v'] m IH]; simpl.
  - by rewrite decide_True.
  - destruct (decide (k' = k)); simpl.
    + by rewrite decide_True.
    + by rewrite decide_False.
Qed.

Lemma get_set_ne k k' v m : k ≠ k' → JsMap.get k' (JsMap.set k v m) = JsMap.get k' m.
Proof.
  intros Hne. induction m as [|[k0 v0] m IH]; simpl.
  - by rewrite decide_False.
  - destruct (decide (k0 = k)) as [->|]; simpl.
    + by rewrite !decide_False.
    + destruct (decide (k0 = k')); done.
Qed.

Lemma get_set k k' v m :
  JsMap.get k' (JsMap.set k v m) = if decide (k = k') then Some v else JsMap.get k' m.
Proof.
  destruct (decide (k = k')) as [->|]; [apply get_set_eq | by apply get_set_ne].
Qed.

Lemma has_get k m : JsMap.has k m = true ↔ is_Some (JsMap.get k m).
Proof.
  unfold JsMap.has. destruct (JsMap.get k m); split; done.
Qed.

Lemma get_value k v m : JsMap.get k m = Some v → v ∈ JsMap.values m.
Proof.
  unfold JsMap.values. induction m as [|[k' v'] m IH]; simpl; [done|].
  destruct (decide (k' = k)).
  - intros [= ->]. apply list_elem_of_here.
  - intros Hg. apply list_elem_of_further. auto.
Qed.

Lemma set_keys k v m :
  (JsMap.set k v m).*1 = if JsMap.has k m then m.*1 else m.*1 ++ [k].
Proof.
  unfold JsMap.has. induction m as [|[k' v'] m IH]; csimpl; [done|].
  destruct (decide (k' = k)) as [->|]; csimpl; [done|].
  rewrite IH. by destruct (JsMap.get k m).
Qed.

Lemma get_None_keys k m : JsMap.get k m = None ↔ k ∉ m.*1.
Proof.
  induction m as [|[k' v'] m IH]; simpl.
  - split; [intros _; apply not_elem_of_nil | done].
  - rewrite not_elem_of_cons. destruct (decide (k' = k)) as [->|].
    + split; [done | intros [? _]; done].
    + rewrite IH. split; [by split|tauto].
Qed.

Lemma set_uniqueKeys k v m : uniqueKeys m → uniqueKeys (JsMap.set k v m).
Proof.
  unfold uniqueKeys. rewrite set_keys. unfold JsMap.has.
  destruct (JsMap.get k m) eqn:E; [done|].
  intros Hnd. apply list.NoDup_app. split_and!; [done| |apply NoDup_singleton].
  intros y Hy ->%list_elem_of_singleton. by apply get_None_keys in E.
Qed.

Lemma value_get v m : uniqueKeys m → v ∈ JsMap.values m → ∃ k, JsMap.get k m = Some v.
Proof.
  unfold uniqueKeys, JsMap.values. induction m as [|[k' v'] m IH]; simpl.
  - by intros _ ?%elem_of_nil.
  - intros [Hk' Hnd]%list.NoDup_cons [->|Hin]%elem_of_cons.
    + exists k'. by rewrite decide_True.
    + destruct (IH Hnd Hin) as [k Hk]. exists k.
      rewrite decide_False; [done|]. intros ->.
      apply Hk'. apply eq_None_ne_Some_1 with (x := v) in Hk; [done|].
      by apply get_None_keys.
Qed.

End map_facts.

(** ** The invalidation engine *)

Lemma visited_refl isHmr ts h seen : visited isHmr ts h seen h seen.
Proof.
  exists []. split_and!.
  - by rewrite app_nil_r.
  - apply NoDup_nil_2.
  - by intros x ?%elem_of_nil.
  - intros n. by rewrite decide_False by apply not_elem_of_nil.
Qed.

Lemma visited_one isHmr ts h seen md :
  md ∉ seen →
  visited isHmr ts h seen (alter (invalidated isHmr ts) md h) (JsSet.add md seen).
Proof.
  intros Hmd. exists [md]. split_and!.
  - by apply add_fresh.
  - apply NoDup_singleton.
  - by intros x ->%list_elem_of_singleton.
  - intros n. destruct (decide (n = md)) as [->|Hne].
    + rewrite decide_True by apply list_elem_of_here. apply list_lookup_alter_eq.
    + rewrite decide_False by (by rewrite list_elem_of_singleton).
      by apply list_lookup_alter_ne.
Qed.

Lemma visited_trans isHmr ts h0 s0 h1 s1 h2 s2 :
  visited isHmr ts h0 s0 h1 s1 → visited isHmr ts h1 s1 h2 s2 →
  visited isHmr ts h0 s0 h2 s2.
Proof.
  intros (a1 & -> & Hnd1 & Hfresh1 & Hh1) (a2 & -> & Hnd2 & Hfresh2 & Hh2).
  exists (a1 ++ a2). split_and!.
  - by rewrite app_assoc.
  - apply list.NoDup_app. split_and!; [done| |done].
    intros x Hx1 Hx2. apply (Hfresh2 x Hx2). apply elem_of_app. by right.
  - intros x [Hx|Hx]%elem_of_app; [by apply Hfresh1|].
    intros Hs. apply (Hfresh2 x Hx). apply elem_of_app. by left.
  - intros n. rewrite Hh2, Hh1.
    destruct (decide (n ∈ a2)) as [H2|H2], (decide (n ∈ a1)) as [H1|H1].
    + exfalso. apply (Hfresh2 n H2). apply elem_of_app. by right.
    + rewrite decide_True; [done|]. apply elem_of_app. by right.
    + rewrite decide_True; [done|]. apply elem_of_app. by left.
    + rewrite decide_False; [done|]. rewrite elem_of_app. tauto.
Qed.

Lemma visited_length isHmr ts h seen h' seen' :
  visited isHmr ts h seen h' seen' → length h' = length h.
Proof.
  intros (added & _ & _ & _ & Hh).
  assert (∀ n, is_Some (h' !! n) ↔ is_Some (h !! n)) as Hdom.
  { intros n. rewrite Hh. destruct (decide (n ∈ added)); [|done].
    by rewrite fmap_is_Some. }
  destruct (decide (length h' = length h)) as [|Hne]; [done|exfalso].
  destruct (decide (length h' < length h)).
  - destruct (Hdom (length h')) as [_ Hd].
    apply lookup_lt_is_Some in Hd; [lia|]. by apply lookup_lt_is_Some.
  - destruct (Hdom (length h)) as [Hd _].
    apply lookup_lt_is_Some in Hd; [lia|]. apply lookup_lt_is_Some. lia.
Qed.

Lemma visited_subseteq isHmr ts h seen h' seen' :
  visited isHmr ts h seen h' seen' → seen ⊆ seen'.
Proof. intros (added & -> & _) x Hx. apply elem_of_app. by left. Qed.

Lemma visited_NoDup isHmr ts h seen h' seen' :
  visited isHmr ts h seen h' seen' → NoDup seen → NoDup seen'.
Proof.
  intros (added & -> & Hnd & Hfresh & _) Hs. apply list.NoDup_app.
  split_and!; [done| |done]. intros x Hx Hx'. by apply (Hfresh x Hx').
Qed.

Lemma walkImporters_visited isHmr ts rec md todo h seen r :
  (∀ h i s r, rec h i s = Some r → visited isHmr ts h s r.1 r.2) →
  walkImporters rec md todo h seen = Some r → visited isHmr ts h seen r.1 r.2.
Proof.
  intros Hrec. revert h seen.
  induction todo as [|importer todo IH]; intros h seen; simpl.
  - intros [= <-]. apply visited_refl.
  - destruct (negb _); [|by apply IH].
    destruct (rec h importer seen) as [[h1 seen1]|] eqn:E; [|done].
    intros Hwalk. eapply visited_trans; [|by apply IH].
    apply (Hrec _ _ _ _ E).
Qed.

Lemma invalidateModule_fuel_visited fuel h md seen ts isHmr bnds r :
  invalidateModule_fuel fuel h md seen ts isHmr bnds = Some r →
  visited isHmr ts h seen r.1 r.2 ∧ md ∈ r.2.
Proof.
  revert h md seen bnds r.
  induction fuel as [|fuel IH]; intros h md seen bnds r; simpl; [done|].
  destruct (JsSet.has md seen) eqn:Hseen.
  { intros [= <-]. split; [apply visited_refl | by apply has_true]. }
  apply has_false in Hseen.
  pose proof (visited_one isHmr ts h seen md Hseen) as Hone.
  assert (md ∈ JsSet.add md seen) as Hmd by (apply elem_of_add; by left).
  destruct (bool_decide (md ∈ bnds)); [by intros [= <-]|].
  intros Hwalk. apply walkImporters_visited with (isHmr := isHmr) (ts := ts) in Hwalk.
  - split; [by eapply visited_trans|].
    by apply (visited_subseteq _ _ _ _ _ _ Hwalk).
  - intros h1 i s r1 Hr1. by apply IH in Hr1 as [? _].
Qed.

Lemma unseen_le n seen : unseen n seen ≤ n.
Proof. induction n; simpl; [done|]. case_decide; lia. Qed.

Lemma unseen_mono n (s s' : list ref) : s ⊆ s' → unseen n s' ≤ unseen n s.
Proof.
  intros Hs. induction n as [|n IH]; simpl; [done|].
  repeat case_decide; try lia. exfalso. auto.
Qed.

Lemma unseen_add n md (s : list ref) :
  md < n → md ∉ s → unseen n (JsSet.add md s) < unseen n s.
Proof.
  intros Hlt Hmd. induction n as [|n IH]; simpl; [lia|].
  assert (unseen n (JsSet.add md s) ≤ unseen n s) as Hle.
  { apply unseen_mono. intros x Hx. apply elem_of_add. by right. }
  destruct (decide (n = md)) as [->|Hne].
  - repeat case_decide; try done; [lia|].
    exfalso. match goal with H : _ ∉ JsSet.add _ _ |- _ => apply H end.
    apply elem_of_add. by left.
  - assert (md < n) as Hlt' by lia. specialize (IH Hlt').
    repeat case_decide; try lia.
    exfalso. match goal with H : _ ∉ JsSet.add _ _ |- _ => apply H end.
    apply elem_of_add. by right.
Qed.

Lemma walkImporters_total isHmr ts rec md todo n fuel h seen :
  (∀ h i s r, rec h i s = Some r → visited isHmr ts h s r.1 r.2) →
  (∀ h i s, length h = n → unseen n s < fuel → is_Some (rec h i s)) →
  length h = n → unseen n seen < fuel →
  is_Some (walkImporters rec md todo h seen).
Proof.
  intros Hvis Htot. revert h seen.
  induction todo as [|importer todo IH]; intros h seen Hlen Hfuel; simpl; [done|].
  destruct (negb _); [|by apply IH].
  destruct (Htot h importer seen Hlen Hfuel) as [[h1 seen1] E]. rewrite E.
  apply Hvis in E. simpl in E. apply IH.
  - by rewrite (visited_length _ _ _ _ _ _ E).
  - pose proof (unseen_mono n _ _ (visited_subseteq _ _ _ _ _ _ E)). lia.
Qed.

Lemma invalidateModule_fuel_total fuel h md seen ts isHmr bnds :
  unseen (length h) seen < fuel →
  is_Some (invalidateModule_fuel fuel h md seen ts isHmr bnds).
Proof.
  revert h md seen bnds.
  induction fuel as [|fuel IH]; intros h md seen bnds Hfuel; simpl; [lia|].
  destruct (JsSet.has md seen) eqn:Hseen; [done|]. apply has_false in Hseen.
  destruct (bool_decide (md ∈ bnds)); [done|].
  destruct (decide (md < length h)) as [Hlt|Hge].
  - apply walkImporters_total with (isHmr := isHmr) (ts := ts) (n := length h) (fuel := fuel).
    + intros h1 i s r Hr. by apply invalidateModule_fuel_visited in Hr as [? _].
    + intros h1 i s Hlen Hs. apply IH. by rewrite Hlen.
    + apply length_alter.
    + pose proof (unseen_add (length h) md seen Hlt Hseen). lia.
  - unfold importers_of. rewrite list_lookup_alter_eq.
    rewrite lookup_ge_None_2 by lia. done.
Qed.

(** Any fuel that lets the walk finish gives the same result. *)
Lemma walkImporters_ext rec rec' md todo h seen r :
  (∀ h i s r, rec h i s = Some r → rec' h i s = Some r) →
  walkImporters rec md todo h seen = Some r →
  walkImporters rec' md todo h seen = Some r.
Proof.
  intros Hext. revert h seen.
  induction todo as [|importer todo IH]; intros h seen; simpl; [done|].
  destruct (negb _); [|by apply IH].
  destruct (rec h importer seen) as [[h1 seen1]|] eqn:E; [|done].
  rewrite (Hext _ _ _ _ E). apply IH.
Qed.

Lemma invalidateModule_fuel_mono fuel fuel' h md seen ts isHmr bnds r :
  fuel ≤ fuel' →
  invalidateModule_fuel fuel h md seen ts isHmr bnds = Some r →
  invalidateModule_fuel fuel' h md seen ts isHmr bnds = Some r.
Proof.
  revert fuel' h md seen bnds r.
  induction fuel as [|fuel IH]; intros fuel' h md seen bnds r Hle; simpl; [done|].
  destruct fuel' as [|fuel']; [lia|]. simpl.
  destruct (JsSet.has md seen); [done|].
  destruct (bool_decide (md ∈ bnds)); [done|].
  apply walkImporters_ext. intros h1 i s r1. apply IH. lia.
Qed.

(** The default fuel of [invalidateModule] is enough: the walk returns. *)
Lemma invalidateModule_fuel_enough h md seen ts isHmr bnds :
  invalidateModule_fuel (S (length h)) h md seen ts isHmr bnds
  = Some (invalidateModule h md seen ts isHmr bnds).
Proof.
  unfold invalidateModule.
  destruct (invalidateModule_fuel_total (S (length h)) h md seen ts isHmr bnds) as [r Hr].
  - pose proof (unseen_le (length h) seen). lia.
  - by rewrite Hr.
Qed.

(** A result computed with any fuel is the result of [invalidateModule]. *)
Lemma invalidateModule_eq fuel h md seen ts isHmr bnds r :
  invalidateModule_fuel fuel h md seen ts isHmr bnds = Some r →
  invalidateModule h md seen ts isHmr bnds = r.
Proof.
  intros Hr. pose proof (invalidateModule_fuel_enough h md seen ts isHmr bnds) as He.
  apply invalidateModule_fuel_mono with (fuel' := fuel `max` S (length h)) in Hr; [|lia].
  apply invalidateModule_fuel_mono with (fuel' := fuel `max` S (length h)) in He; [|lia].
  congruence.
Qed.

Lemma invalidateModule_visited h md seen ts isHmr bnds :
  visited isHmr ts h seen (invalidateModule h md seen ts isHmr bnds).1
    (invalidateModule h md seen ts isHmr bnds).2
  ∧ md ∈ (invalidateModule h md seen ts isHmr bnds).2.
Proof.
  eapply invalidateModule_fuel_visited, invalidateModule_fuel_enough.
Qed.

(** [invalidated] writes none of the edge sets, so reads of them through the
    store are the same before and after a node is invalidated. *)
Lemma importers_of_invalidated isHmr ts md h x :
  importers_of (alter (invalidated isHmr ts) md h) x = importers_of h x.
Proof.
  unfold importers_of. rewrite list_lookup_alter.
  case_decide as E; [subst x|done]. by destruct (h !! md).
Qed.

Lemma acceptedHmrDeps_of_invalidated isHmr ts md h x :
  acceptedHmrDeps_of (alter (invalidated isHmr ts) md h) x = acceptedHmrDeps_of h x.
Proof.
  unfold acceptedHmrDeps_of. rewrite list_lookup_alter.
  case_decide as E; [subst x|done]. by destruct (h !! md).
Qed.

(** One level of the walk, for a node that is not in [seen]. *)
Lemma invalidateModule_fuel_S fuel h md seen ts isHmr bnds :
  md ∉ seen →
  invalidateModule_fuel (S fuel) h md seen ts isHmr bnds =
    if bool_decide (md ∈ bnds)
    then Some (alter (invalidated isHmr ts) md h, seen ++ [md])
    else walkImporters
           (λ h importer seen, invalidateModule_fuel fuel h importer seen ts isHmr [])
           md (importers_of h md) (alter (invalidated isHmr ts) md h) (seen ++ [md]).
Proof.
  intros Hmd. simpl. rewrite (proj2 (has_false md seen) Hmd).
  by rewrite importers_of_invalidated, add_fresh.
Qed.

Lemma walkImporters_accepting rec md importer todo h seen :
  md ∈ acceptedHmrDeps_of h importer →
  walkImporters rec md (importer :: todo) h seen = walkImporters rec md todo h seen.
Proof. intros Hacc%has_true. simpl. by rewrite Hacc. Qed.

Lemma walkImporters_propagating rec md importer todo h seen :
  md ∉ acceptedHmrDeps_of h importer →
  walkImporters rec md (importer :: todo) h seen =
    match rec h importer seen with
    | Some (h', seen') => walkImporters rec md todo h' seen'
    | None => None
    end.
Proof. intros Hacc%has_false. simpl. by rewrite Hacc. Qed.

(** C7. For a node [md] of the store that is not in [seen],
    [invalidateModule] leaves [transformResult], [ssrTransformResult],
    [ssrModule] and [ssrError] of [md] null, and [info], [meta],
    [importers], [clientImportedModules], [ssrImportedModules],
    [acceptedHmrDeps], [acceptedHmrExports] and [importedBindings] of [md]
    as they were. This holds in the store the whole walk returns, not only
    after the first level. *)
Theorem invalidateModule_clears_artifacts_keeps_bookkeeping
    (h : Heap) (md : ref) (seen : list ref) (timestamp : Z) (isHmr : bool)
    (hmrBoundaries : list ref) (node : ModuleNode) :
  h !! md = Some node → md ∉ seen →
  ∃ node',
    (invalidateModule h md seen timestamp isHmr hmrBoundaries).1 !! md = Some node'
    ∧ transformResult node' = None ∧ ssrTransformResult node' = None
    ∧ ssrModule node' = None ∧ ssrError node' = None
    ∧ info node' = info node ∧ meta node' = meta node
    ∧ importers node' = importers node
    ∧ clientImportedModules node' = clientImportedModules node
    ∧ ssrImportedModules node' = ssrImportedModules node
    ∧ acceptedHmrDeps node' = acceptedHmrDeps node
    ∧ acceptedHmrExports node' = acceptedHmrExports node
    ∧ importedBindings node' = importedBindings node.
Proof.
  intros Hnode Hseen.
  destruct (invalidateModule_visited h md seen timestamp isHmr hmrBoundaries)
    as [(added & Hs & _ & _ & Hh) Hin].
  exists (invalidated isHmr timestamp node).
  split; [|by repeat split].
  rewrite Hh, Hnode. rewrite Hs, elem_of_app in Hin.
  destruct Hin as [|Hin]; [done|]. by rewrite decide_True.
Qed.

Lemma invalidateModule_clears_artifacts_witness :
  ∃ node',
    (invalidateModule [sampleNode] 0 [] 9 true []).1 !! 0 = Some node'
    ∧ transformResult node' = None ∧ ssrTransformResult node' = None
    ∧ ssrModule node' = None ∧ ssrError node' = None
    ∧ info node' = info sampleNode ∧ meta node' = meta sampleNode
    ∧ importers node' = importers sampleNode
    ∧ clientImportedModules node' = clientImportedModules sampleNode
    ∧ ssrImportedModules node' = ssrImportedModules sampleNode
    ∧ acceptedHmrDeps node' = acceptedHmrDeps sampleNode
    ∧ acceptedHmrExports node' = acceptedHmrExports sampleNode
    ∧ importedBindings node' = importedBindings sampleNode.
Proof.
  apply (invalidateModule_clears_artifacts_keeps_bookkeeping
           [sampleNode] 0 [] 9 true [] sampleNode).
  - reflexivity.
  - apply not_elem_of_nil.
Defined.

(** ** Acceptance boundaries on a chain *)




Lemma visited_importers_of isHmr ts h seen h' seen' x :
  visited isHmr ts h seen h' seen' → importers_of h' x = importers_of h x.
Proof.
  intros (added & _ & _ & _ & Hh). unfold importers_of. rewrite Hh.
  case_decide; [|done]. by destruct (h !! x).
Qed.

(** Whatever a walk adds to [seen] is its root or an importer of a node it
    also added. *)
Lemma walkImporters_reach isHmr ts rec md todo h0 h seen r :
  (∀ h i s r, rec h i s = Some r →
     visited isHmr ts h s r.1 r.2 ∧
     ∀ x, x ∈ (r.2) → x ∈ s ∨ x = i ∨ (∃ m, m ∈ (r.2) ∧ (m ∉ s) ∧ x ∈ importers_of h m)) →
  (∀ x, importers_of h x = importers_of h0 x) →
  walkImporters rec md todo h seen = Some r →
  ∀ x, x ∈ (r.2) →
    x ∈ seen ∨ x ∈ todo ∨ (∃ m, m ∈ (r.2) ∧ (m ∉ seen) ∧ x ∈ importers_of h0 m).
Proof.
  intros Hrec. revert h seen.
  induction todo as [|importer todo IH]; intros h seen Himp; simpl.
  - intros [= <-] x Hx. by left.
  - destruct (negb _).
    2:{ intros Hw x Hx. destruct (IH _ _ Himp Hw x Hx) as [?|[?|?]]; auto.
        right; left. by apply list_elem_of_further. }
    destruct (rec h importer seen) as [[h1 seen1]|] eqn:E; [|done].
    destruct (Hrec _ _ _ _ E) as [Hv Hreach]. simpl in Hv, Hreach.
    intros Hw x Hx.
    assert (∀ x, importers_of h1 x = importers_of h0 x) as Himp1.
    { intros y. rewrite <- Himp. by eapply visited_importers_of. }
    pose proof (walkImporters_visited isHmr ts rec md todo h1 seen1 r
                  (λ h i s r H, proj1 (Hrec h i s r H)) Hw) as Hv'.
    pose proof (visited_subseteq _ _ _ _ _ _ Hv') as Hsub1.
    destruct (IH _ _ Himp1 Hw x Hx) as [Hx1|[?|(m & Hm & Hms & Hxm)]].
    + destruct (Hreach x Hx1) as [?|[->|(m & Hm & Hms & Hxm)]].
      * by left.
      * right; left. apply list_elem_of_here.
      * right; right. exists m. rewrite <- Himp. auto.
    + right; left. by apply list_elem_of_further.
    + right; right. exists m. split_and!; [done| |done].
      intros Hs. apply Hms. by apply (visited_subseteq _ _ _ _ _ _ Hv).
Qed.

Lemma invalidateModule_fuel_reach fuel h md seen ts isHmr bnds r :
  invalidateModule_fuel fuel h md seen ts isHmr bnds = Some r →
  ∀ x, x ∈ (r.2) →
    x ∈ seen ∨ x = md ∨ (∃ m, m ∈ (r.2) ∧ (m ∉ seen) ∧ x ∈ importers_of h m).
Proof.
  revert h md seen bnds r.
  induction fuel as [|fuel IH]; intros h md seen bnds r; [done|].
  destruct (decide (md ∈ seen)) as [Hin|Hout].
  { simpl. rewrite (proj2 (has_true md seen) Hin). intros [= <-] x Hx. by left. }
  rewrite invalidateModule_fuel_S by done.
  destruct (bool_decide (md ∈ bnds)).
  { intros [= <-] x [?|Hx%list_elem_of_singleton]%elem_of_app; auto. }
  intros Hw x Hx.
  assert (md ∈ seen ++ [md]) as Hmd.
  { apply elem_of_app. right. apply list_elem_of_here. }
  eapply (walkImporters_reach isHmr ts) with (h0 := h) in Hw as Hr;
    [| |apply importers_of_invalidated|exact Hx].
  2:{ intros h1 i s r1 Hr1. split.
      - by apply invalidateModule_fuel_visited in Hr1 as [? _].
      - by apply (IH _ _ _ _ _ Hr1). }
  apply walkImporters_visited with (isHmr := isHmr) (ts := ts) in Hw.
  2:{ intros h1 i s r1 Hr1. by apply invalidateModule_fuel_visited in Hr1 as [? _]. }
  destruct Hr as [[?|Hx'%list_elem_of_singleton]%elem_of_app|[Himp|(m & Hm & Hms & Hxm)]];
    auto.
  - right; right. exists md. split_and!; [|done|done].
    by apply (visited_subseteq _ _ _ _ _ _ Hw).
  - right; right. exists m. split_and!; [done| |done].
    intros Hs. apply Hms, elem_of_app. by left.
Qed.

Lemma invalidateModule_reach h md seen ts isHmr bnds x :
  x ∈ ((invalidateModule h md seen ts isHmr bnds).2) →
  x ∈ seen ∨ x = md
  ∨ (∃ m, m ∈ ((invalidateModule h md seen ts isHmr bnds).2) ∧ (m ∉ seen)
          ∧ x ∈ importers_of h m).
Proof.
  eapply invalidateModule_fuel_reach, invalidateModule_fuel_enough.
Qed.

(** ** [invalidateAll] *)

Lemma invalidateAll_walk_visited ts mods h seen :
  visited false ts h seen (invalidateAll_walk ts mods h seen).1
    (invalidateAll_walk ts mods h seen).2
  ∧ Forall (λ n, n ∈ (invalidateAll_walk ts mods h seen).2) mods.
Proof.
  revert h seen. induction mods as [|md mods IH]; intros h seen; simpl.
  - split; [apply visited_refl | constructor].
  - destruct (invalidateModule_visited h md seen ts false []) as [Hv Hin].
    destruct (invalidateModule h md seen ts false []) as [h1 seen1]. simpl in *.
    destruct (IH h1 seen1) as [Hv' Hall]. split.
    + by eapply visited_trans.
    + constructor; [|done]. by apply (visited_subseteq _ _ _ _ _ _ Hv').
Qed.


Lemma invalidateAll_walk_reach ts mods h0 h seen x :
  (∀ y, importers_of h y = importers_of h0 y) →
  x ∈ ((invalidateAll_walk ts mods h seen).2) →
  x ∈ seen ∨ x ∈ mods
  ∨ (∃ m, m ∈ ((invalidateAll_walk ts mods h seen).2) ∧ x ∈ importers_of h0 m).
Proof.
  revert h seen. induction mods as [|md mods IH]; intros h seen Himp; simpl.
  - by left.
  - destruct (invalidateModule_visited h md seen ts false []) as [Hv _].
    pose proof (invalidateModule_reach h md seen ts false [] ) as Hreach.
    destruct (invalidateModule h md seen ts false []) as [h1 seen1]. simpl in *.
    destruct (invalidateAll_walk_visited ts mods h1 seen1) as [Hv' _].
    assert (∀ y, importers_of h1 y = importers_of h0 y) as Himp1.
    { intros y. rewrite <- Himp. by eapply visited_importers_of. }
    intros Hx. destruct (IH h1 seen1 Himp1 Hx) as [Hx1|[?|?]].
    + destruct (Hreach x Hx1) as [?|[->|(m & Hm & _ & Hxm)]].
      * by left.
      * right; left. apply list_elem_of_here.
      * right; right. exists m. rewrite <- Himp. split; [|done].
        by apply (visited_subseteq _ _ _ _ _ _ Hv').
    + right; left. by apply list_elem_of_further.
    + by right; right.
Qed.

(** C6, as stated, fails: in [styleGraph] node 1 is registered (the file
    index maps [/abs/dep.css] to it) and [invalidateAll] with timestamp 5
    never invalidates it; node 0 is invalidated. *)
Lemma invalidateAll_skips_file_only_node :
  getModulesByFile styleGraph "/abs/dep.css" = Some [1]
  ∧ (invalidateAll_walk 5 (JsMap.values (idToModuleMap styleGraph))
       (heap styleGraph) []).2 = [0]
  ∧ lastInvalidationTimestamp <$> heap (invalidateAll styleGraph 5) !! 0 = Some 5%Z
  ∧ lastInvalidationTimestamp <$> heap (invalidateAll styleGraph 5) !! 1 = Some 0%Z.
Proof. vm_compute. by repeat split. Qed.

(** C6, amended. [invalidateAll] takes one timestamp and walks from every
    node of the id index with one shared [seen] set. The nodes it
    invalidates are those of the resulting [seen]: each is invalidated once
    ([seen] lists the bodies run and has no duplicates), every node of the
    id index is among them, and the store changes at exactly these nodes,
    by [invalidated false timestamp]. A node outside the id index (one
    registered in the file index only) is invalidated only as an importer
    of another invalidated node. *)
Theorem invalidateAll_each_indexed_node_once (g : ModuleGraph) (timestamp : Z) :
  let r := invalidateAll_walk timestamp (JsMap.values (idToModuleMap g)) (heap g) [] in
  heap (invalidateAll g timestamp) = r.1
  ∧ NoDup r.2
  ∧ Forall (λ n, n ∈ r.2) (JsMap.values (idToModuleMap g))
  ∧ Forall (λ n, n ∈ JsMap.values (idToModuleMap g)
                 ∨ ∃ m, m ∈ r.2 ∧ n ∈ importers_of (heap g) m) r.2
  ∧ ∀ n, r.1 !! n =
         if decide (n ∈ r.2) then invalidated false timestamp <$> heap g !! n
         else heap g !! n.
Proof.
  intros r.
  destruct (invalidateAll_walk_visited timestamp
              (JsMap.values (idToModuleMap g)) (heap g) []) as [Hv Hall].
  fold r in Hv, Hall. split_and!; [done| |done| |].
  - eapply visited_NoDup; [done|]. apply NoDup_nil_2.
  - apply list.Forall_forall. intros x Hx. unfold r in Hx.
    apply (invalidateAll_walk_reach timestamp _ (heap g)) in Hx as [Hx|[?|?]]; auto.
    by apply elem_of_nil in Hx.
  - destruct Hv as (added & Hs & _ & _ & Hh). simpl in Hs. by rewrite Hs.
Qed.

(** ** The registry *)

Lemma heapEvolves_refl (R : ModuleNode → ModuleNode → Prop) h :
  (∀ a, R a a) → heapEvolves R h h.
Proof. intros HR n node Hn. eauto. Qed.

Lemma heapEvolves_trans (R : ModuleNode → ModuleNode → Prop) h1 h2 h3 :
  (∀ a b c, R a b → R b c → R a c) →
  heapEvolves R h1 h2 → heapEvolves R h2 h3 → heapEvolves R h1 h3.
Proof.
  intros HR H12 H23 n node Hn.
  destruct (H12 n node Hn) as (node2 & Hn2 & HR12).
  destruct (H23 n node2 Hn2) as (node3 & Hn3 & HR23). eauto.
Qed.

Lemma heapEvolves_weaken (R R' : ModuleNode → ModuleNode → Prop) h h' :
  (∀ a b, R a b → R' a b) → heapEvolves R h h' → heapEvolves R' h h'.
Proof. intros HR Hh n node Hn. destruct (Hh n node Hn) as (? & ? & ?). eauto. Qed.

Lemma heapEvolves_app (R : ModuleNode → ModuleNode → Prop) h extra :
  (∀ a, R a a) → heapEvolves R h (h ++ extra).
Proof. intros HR n node Hn. exists node. split; [by apply lookup_app_l_Some|done]. Qed.

Lemma heapEvolves_alter (R : ModuleNode → ModuleNode → Prop) f i h :
  (∀ a, R a a) → (∀ a, R a (f a)) → heapEvolves R h (alter f i h).
Proof.
  intros HR Hf n node Hn. rewrite list_lookup_alter.
  case_decide; [subst n; rewrite Hn; simpl|]; eauto.
Qed.


Lemma sameIdentity_refl a : sameIdentity a a.
Proof. by repeat split. Qed.

Lemma sameIdentity_trans a b c : sameIdentity a b → sameIdentity b c → sameIdentity a c.
Proof. unfold sameIdentity. intuition congruence. Qed.

Lemma sameCache_refl a : sameCache a a.
Proof. by repeat split. Qed.

Lemma sameCache_trans a b c : sameCache a b → sameCache b c → sameCache a c.
Proof. unfold sameCache. intuition congruence. Qed.

Lemma sameEdges_refl a : sameEdges a a.
Proof. by repeat split. Qed.

Lemma sameEdges_trans a b c : sameEdges a b → sameEdges b c → sameEdges a c.
Proof. unfold sameEdges. intuition congruence. Qed.

Lemma visited_heapEvolves isHmr ts h seen h' seen' :
  visited isHmr ts h seen h' seen' →
  heapEvolves (λ a b, sameIdentity a b ∧ sameEdges a b) h h'.
Proof.
  intros (added & _ & _ & _ & Hh) n node Hn. rewrite Hh, Hn.
  case_decide; simpl; eexists; (split; [done|]); by repeat split.
Qed.

Lemma evolves_refl (R : ModuleNode → ModuleNode → Prop) g :
  (∀ a, R a a) → evolves R g g.
Proof.
  intros HR. split_and!; [by apply heapEvolves_refl|done|]. intros p t st Hp. eauto.
Qed.

Lemma evolves_trans (R : ModuleNode → ModuleNode → Prop) g1 g2 g3 :
  (∀ a b c, R a b → R b c → R a c) →
  evolves R g1 g2 → evolves R g2 g3 → evolves R g1 g3.
Proof.
  intros HR (Hh12 & Hi12 & Hp12) (Hh23 & Hi23 & Hp23). split_and!.
  - by eapply heapEvolves_trans.
  - auto.
  - intros p t st Hp. destruct (Hp12 _ _ _ Hp) as (st2 & Hp2 & Hst2).
    destruct (Hp23 _ _ _ Hp2) as (st3 & Hp3 & Hst3). exists st3.
    split; [done|]. destruct Hst2 as [|<-]; [by left|done].
Qed.

Lemma evolves_weaken (R R' : ModuleNode → ModuleNode → Prop) g g' :
  (∀ a b, R a b → R' a b) → evolves R g g' → evolves R' g g'.
Proof. intros HR (Hh & ? & ?). split_and!; [by eapply heapEvolves_weaken|done|done]. Qed.

Lemma dedups_refl u ssr g : dedups u ssr g g.
Proof. split; [done|]. intros ?. by left. Qed.

Lemma dedups_trans u ssr g1 g2 g3 :
  dedups u ssr g1 g2 → dedups u ssr g2 g3 → dedups u ssr g1 g3.
Proof.
  intros [Hc12 Hm12] [Hc23 Hm23]. split.
  - intros Hc. destruct (Hc12 Hc) as [Hc2 E2]. destruct (Hc23 Hc2) as [Hc3 E3].
    split; [done|congruence].
  - intros Hm. destruct (Hm12 Hm) as [[Hm2 E2]|[Hc2 E2]].
    + destruct (Hm23 Hm2) as [[Hm3 E3]|[Hc3 E3]].
      * left. split; [done|congruence].
      * right. split; [done|congruence].
    + destruct (Hc23 Hc2) as [Hc3 E3]. right. split; [done|congruence].
Qed.

Lemma elem_of_set {V} k v (m : list (string * V)) (e : string * V) :
  e ∈ JsMap.set k v m → e = (k, v) ∨ e ∈ m.
Proof.
  induction m as [|[k' v'] m IH]; simpl.
  - intros ->%list_elem_of_singleton. by left.
  - destruct (decide (k' = k)) as [->|].
    + intros [->|?]%elem_of_cons; [by left|]. right. by apply list_elem_of_further.
    + intros [->|?]%elem_of_cons; [right; apply list_elem_of_here|].
      destruct IH as [|]; [done|by left|]. right. by apply list_elem_of_further.
Qed.

Lemma get_elem_of {V} k v (m : list (string * V)) :
  JsMap.get k m = Some v → (k, v) ∈ m.
Proof.
  induction m as [|[k' v'] m IH]; simpl; [done|].
  destruct (decide (k' = k)) as [->|].
  - intros [= ->]. apply list_elem_of_here.
  - intros. apply list_elem_of_further. auto.
Qed.

Lemma elem_of_values {V} v (m : list (string * V)) :
  v ∈ JsMap.values m ↔ ∃ k, (k, v) ∈ m.
Proof.
  unfold JsMap.values. rewrite list_elem_of_fmap. split.
  - intros ([k v'] & -> & Hin). by exists k.
  - intros (k & Hin). by exists (k, v).
Qed.

Section registry_facts.
Context {U : Imports}.

Lemma getUnresolved_set g u hd ssr u' ssr' :
  _getUnresolvedUrlToModule (_setUnresolvedUrlToModule g u hd ssr) u' ssr' =
    if decide (u = u' ∧ ssr = ssr') then Some hd
    else _getUnresolvedUrlToModule g u' ssr'.
Proof.
  unfold _getUnresolvedUrlToModule, _setUnresolvedUrlToModule.
  destruct ssr, ssr'; simpl; rewrite ?get_set;
    repeat case_decide; try done; exfalso; intuition congruence.
Qed.

Lemma getUnresolved_set_is_Some g u hd ssr u' ssr' :
  is_Some (_getUnresolvedUrlToModule g u' ssr') →
  is_Some (_getUnresolvedUrlToModule (_setUnresolvedUrlToModule g u hd ssr) u' ssr').
Proof. rewrite getUnresolved_set. by case_decide. Qed.

Lemma setUnresolved_frame g u hd ssr :
  let g' := _setUnresolvedUrlToModule g u hd ssr in
  heap g' = heap g ∧ urlToModuleMap g' = urlToModuleMap g
  ∧ idToModuleMap g' = idToModuleMap g
  ∧ fileToModulesMap g' = fileToModulesMap g
  ∧ promises g' = promises g ∧ resolveIdCalls g' = resolveIdCalls g.
Proof. unfold _setUnresolvedUrlToModule. by destruct ssr. Qed.

Lemma setUnresolved_entries g u hd ssr k hd' :
  (k, hd') ∈ _unresolvedUrlToModuleMap (_setUnresolvedUrlToModule g u hd ssr)
  ∨ (k, hd') ∈ _ssrUnresolvedUrlToModuleMap (_setUnresolvedUrlToModule g u hd ssr) →
  hd' = hd ∨ (k, hd') ∈ _unresolvedUrlToModuleMap g
  ∨ (k, hd') ∈ _ssrUnresolvedUrlToModuleMap g.
Proof.
  unfold _setUnresolvedUrlToModule. destruct ssr; simpl.
  - intros [?|[[= _ ->]|?]%elem_of_set]; auto.
  - intros [[[= _ ->]|?]%elem_of_set|?]; auto.
Qed.

(** *** [_ensureEntryFromUrl] up to its return *)

Lemma ensureEntry_hit g rawUrl ssr sa resolved hd :
  _getUnresolvedUrlToModule g (stripMarkers rawUrl) ssr = Some hd →
  _ensureEntryFromUrl g rawUrl ssr sa resolved = (g, hd).
Proof. intros Hhit. unfold _ensureEntryFromUrl. by rewrite Hhit. Qed.

Lemma ensureEntry_miss g rawUrl ssr sa resolved :
  _getUnresolvedUrlToModule g (stripMarkers rawUrl) ssr = None →
  ∃ g',
    _ensureEntryFromUrl g rawUrl ssr sa resolved = (g', HPromise (length (promises g)))
    ∧ heap g' = heap g ∧ urlToModuleMap g' = urlToModuleMap g
    ∧ idToModuleMap g' = idToModuleMap g
    ∧ fileToModulesMap g' = fileToModulesMap g
    ∧ promises g' =
        promises g ++ [(mkEnsureTask (stripMarkers rawUrl) ssr sa resolved, Pending)]
    ∧ resolveIdCalls g' =
        match resolved with
        | Some _ => resolveIdCalls g
        | None => resolveIdCalls g ++ [(stripMarkers rawUrl, ssr)]
        end
    ∧ (∀ u' ssr', _getUnresolvedUrlToModule g' u' ssr' =
         if decide (stripMarkers rawUrl = u' ∧ ssr = ssr')
         then Some (HPromise (length (promises g)))
         else _getUnresolvedUrlToModule g u' ssr')
    ∧ (∀ k hd, (k, hd) ∈ _unresolvedUrlToModuleMap g'
               ∨ (k, hd) ∈ _ssrUnresolvedUrlToModuleMap g' →
         hd = HPromise (length (promises g))
         ∨ (k, hd) ∈ _unresolvedUrlToModuleMap g
         ∨ (k, hd) ∈ _ssrUnresolvedUrlToModuleMap g).
Proof.
  intros Hmiss. unfold _ensureEntryFromUrl. rewrite Hmiss.
  destruct resolved;
    (eexists; split; [reflexivity|]; simpl;
     split_and!; try (by destruct ssr);
     [intros u' ssr'; by rewrite getUnresolved_set
     |intros k hd Hin; by apply setUnresolved_entries in Hin]).
Qed.

(** *** The body of [modPromise] after the [await] *)

Lemma materialize_existing g task url' rid meta' n :
  JsMap.get rid (idToModuleMap g) = Some n →
  ∃ g',
    materialize g task (url', rid, meta') = (g', n)
    ∧ heap g' = heap g ∧ idToModuleMap g' = idToModuleMap g
    ∧ fileToModulesMap g' = fileToModulesMap g
    ∧ promises g' = promises g ∧ resolveIdCalls g' = resolveIdCalls g
    ∧ urlToModuleMap g' =
        (if JsMap.has url' (urlToModuleMap g) then urlToModuleMap g
         else JsMap.set url' n (urlToModuleMap g))
    ∧ (∀ u' ssr', _getUnresolvedUrlToModule g' u' ssr' =
         if decide (task_rawUrl task = u' ∧ task_ssr task = ssr')
         then Some (HNode n) else _getUnresolvedUrlToModule g u' ssr')
    ∧ (∀ k hd, (k, hd) ∈ _unresolvedUrlToModuleMap g'
               ∨ (k, hd) ∈ _ssrUnresolvedUrlToModuleMap g' →
         hd = HNode n ∨ (k, hd) ∈ _unresolvedUrlToModuleMap g
         ∨ (k, hd) ∈ _ssrUnresolvedUrlToModuleMap g).
Proof.
  intros Hid. unfold materialize. rewrite Hid.
  destruct (JsMap.has url' (urlToModuleMap g)); simpl;
    (eexists; split; [reflexivity|];
     split_and!; try (by destruct (task_ssr task));
     [intros u' ssr'; by rewrite getUnresolved_set
     |intros k hd Hin; by apply setUnresolved_entries in Hin]).
Qed.

Lemma materialize_fresh g task url' rid meta' :
  JsMap.get rid (idToModuleMap g) = None →
  ∃ g' node,
    materialize g task (url', rid, meta') = (g', length (heap g))
    ∧ heap g' = heap g ++ [node]
    ∧ url node = url' ∧ id node = Some rid ∧ file node = Some (cleanUrl rid)
    ∧ meta node = meta' ∧ importers node = []
    ∧ lastHMRTimestamp node = 0%Z ∧ lastInvalidationTimestamp node = 0%Z
    ∧ idToModuleMap g' = JsMap.set rid (length (heap g)) (idToModuleMap g)
    ∧ urlToModuleMap g' = JsMap.set url' (length (heap g)) (urlToModuleMap g)
    ∧ fileToModulesMap g' =
        JsMap.set (cleanUrl rid)
          (JsSet.add (length (heap g))
             (default [] (JsMap.get (cleanUrl rid) (fileToModulesMap g))))
          (fileToModulesMap g)
    ∧ promises g' = promises g ∧ resolveIdCalls g' = resolveIdCalls g
    ∧ (∀ u' ssr', _getUnresolvedUrlToModule g' u' ssr' =
         if decide (task_rawUrl task = u' ∧ task_ssr task = ssr')
         then Some (HNode (length (heap g)))
         else _getUnresolvedUrlToModule g u' ssr')
    ∧ (∀ k hd, (k, hd) ∈ _unresolvedUrlToModuleMap g'
               ∨ (k, hd) ∈ _ssrUnresolvedUrlToModuleMap g' →
         hd = HNode (length (heap g)) ∨ (k, hd) ∈ _unresolvedUrlToModuleMap g
         ∨ (k, hd) ∈ _ssrUnresolvedUrlToModuleMap g).
Proof.
  intros Hid. unfold materialize. rewrite Hid. simpl.
  eexists _, _. split; [reflexivity|].
  split_and!; try (by destruct (task_ssr task));
    try (by destruct meta').
  - intros u' ssr'. by rewrite getUnresolved_set.
  - intros k hd Hin. by apply setUnresolved_entries in Hin.
Qed.

(** *** The invariants, primitive by primitive *)

Lemma hasId_evolves (R : ModuleNode → ModuleNode → Prop) h h' n :
  (∀ a b, R a b → id a = id b) → heapEvolves R h h' → hasId h n → hasId h' n.
Proof.
  intros HR Hh (node & Hn & Hid). destruct (Hh _ _ Hn) as (node' & Hn' & Hr).
  exists node'. split; [done|]. by rewrite <- (HR _ _ Hr).
Qed.

Lemma indexedHaveId_step g g' :
  indexedHaveId g →
  (∀ n, hasId (heap g) n → hasId (heap g') n) →
  (∀ k n, (k, n) ∈ urlToModuleMap g' → (k, n) ∈ urlToModuleMap g ∨ hasId (heap g') n) →
  (∀ k n, (k, n) ∈ idToModuleMap g' → (k, n) ∈ idToModuleMap g ∨ hasId (heap g') n) →
  (∀ k n, (k, HNode n) ∈ _unresolvedUrlToModuleMap g'
          ∨ (k, HNode n) ∈ _ssrUnresolvedUrlToModuleMap g' →
     hasId (heap g') n ∨ (k, HNode n) ∈ _unresolvedUrlToModuleMap g
     ∨ (k, HNode n) ∈ _ssrUnresolvedUrlToModuleMap g) →
  (∀ p t n, promises g' !! p = Some (t, Fulfilled n) →
     promises g !! p = Some (t, Fulfilled n) ∨ hasId (heap g') n) →
  indexedHaveId g'.
Proof.
  intros (Hu & Hi & Hc & Hs & Hp) Hmono Hu' Hi' Hc' Hp'. split_and!.
  - intros k n Hin. destruct (Hu' _ _ Hin); eauto.
  - intros k n Hin. destruct (Hi' _ _ Hin); eauto.
  - intros k n Hin. destruct (Hc' k n (or_introl Hin)) as [|[|]]; eauto.
  - intros k n Hin. destruct (Hc' k n (or_intror Hin)) as [|[|]]; eauto.
  - intros q t n Hin. destruct (Hp' _ _ _ Hin); eauto.
Qed.

Lemma callsFor_snoc u ssr g calls k s :
  resolveIdCalls g = calls ++ [(k, s)] →
  callsFor u ssr g =
    length (filter (λ c, c = (u, ssr)) calls)
    + (if decide ((k, s) = (u, ssr)) then 1 else 0).
Proof.
  intros E. unfold callsFor. rewrite E, list.filter_app, length_app. f_equal.
  rewrite list.filter_cons, filter_nil. by case_decide.
Qed.

(** A step that leaves the pending caches and the call log alone. *)
Lemma dedups_same u ssr g g' :
  _getUnresolvedUrlToModule g' u ssr = _getUnresolvedUrlToModule g u ssr →
  resolveIdCalls g' = resolveIdCalls g →
  dedups u ssr g g'.
Proof.
  intros Hc Hl. assert (callsFor u ssr g' = callsFor u ssr g) as E.
  { unfold callsFor. by rewrite Hl. }
  split; rewrite Hc; [done|]. intros ?. by left.
Qed.

Lemma ensureEntry_advances (R : ModuleNode → ModuleNode → Prop) g rawUrl ssr sa resolved :
  (∀ a, R a a) → advances R g (_ensureEntryFromUrl g rawUrl ssr sa resolved).1.
Proof.
  intros HR.
  destruct (_getUnresolvedUrlToModule g (stripMarkers rawUrl) ssr) as [hd|] eqn:Hc.
  { rewrite (ensureEntry_hit _ _ _ _ _ _ Hc). simpl.
    split_and!; [by apply evolves_refl|done|done]. }
  destruct (ensureEntry_miss g rawUrl ssr sa resolved Hc)
    as (g' & -> & Hh & Hu & Hi & Hf & Hp & Hl & Hget & Hent). simpl.
  unfold advances, evolves. split_and!.
  - rewrite Hh. by apply heapEvolves_refl.
  - by rewrite Hi.
  - intros q t st Hq. exists st. rewrite Hp. split; [|by right].
    by apply lookup_app_l_Some.
  - intros Hpc q t st. rewrite Hp. intros Hq. rewrite Hget.
    case_decide; [done|].
    apply lookup_app_Some in Hq as [Hq|[_ Hq]]; [by eapply Hpc|].
    apply list_lookup_singleton_Some in Hq as [_ [= <- <-]]. simpl in *. tauto.
  - intros Hwf. apply (indexedHaveId_step g); try done.
    + by rewrite Hh.
    + intros k n. rewrite Hu. by left.
    + intros k n. rewrite Hi. by left.
    + intros k n Hin. destruct (Hent _ _ Hin) as [|]; [done|by right].
    + intros q t n. rewrite Hp. intros Hq.
      apply lookup_app_Some in Hq as [Hq|[_ Hq]]; [by left|].
      by apply list_lookup_singleton_Some in Hq as [_ [=]].
Qed.

Lemma ensureEntry_dedups g rawUrl ssr sa resolved u ssr' :
  resolved = None ∨ (stripMarkers rawUrl, ssr) ≠ (u, ssr') →
  dedups u ssr' g (_ensureEntryFromUrl g rawUrl ssr sa resolved).1.
Proof.
  intros Hpub.
  destruct (_getUnresolvedUrlToModule g (stripMarkers rawUrl) ssr) as [hd|] eqn:Hc.
  { rewrite (ensureEntry_hit _ _ _ _ _ _ Hc). apply dedups_refl. }
  destruct (ensureEntry_miss g rawUrl ssr sa resolved Hc)
    as (g' & -> & Hh & Hu & Hi & Hf & Hp & Hl & Hget & Hent). cbn [fst].
  assert (callsFor u ssr' g' = callsFor u ssr' g
            + match resolved with
              | None => if decide ((stripMarkers rawUrl, ssr) = (u, ssr')) then 1 else 0
              | Some _ => 0
              end) as Hcalls.
  { destruct resolved.
    - unfold callsFor. rewrite Hl. lia.
    - rewrite (callsFor_snoc _ _ _ _ _ _ Hl). by fold (callsFor u ssr' g). }
  split; rewrite Hget.
  - intros Hs. destruct (decide (stripMarkers rawUrl = u ∧ ssr = ssr')) as [[<- <-]|E].
    { rewrite Hc in Hs. by destruct Hs. }
    split; [done|]. rewrite Hcalls. destruct resolved; [lia|].
    rewrite decide_False; [lia|]. intros [= <- <-]. tauto.
  - intros Hm. destruct (decide (stripMarkers rawUrl = u ∧ ssr = ssr')) as [[<- <-]|E].
    + right. split; [by eexists|]. rewrite Hcalls.
      destruct Hpub as [->|]; [|done]. rewrite decide_True by done. lia.
    + left. split; [done|]. rewrite Hcalls. destruct resolved; [lia|].
      rewrite decide_False; [lia|]. intros [= <- <-]. tauto.
Qed.

Lemma resumeEnsureEntry_cases g p outcome :
  (∃ task res,
     promises g !! p = Some (task, Pending)
     ∧ _resolveUrl (task_rawUrl task) (task_resolved task) outcome = Some res
     ∧ resumeEnsureEntry g p outcome =
         settlePromise (materialize g task res).1 p (Fulfilled (materialize g task res).2))
  ∨ (∃ task,
       promises g !! p = Some (task, Pending)
       ∧ _resolveUrl (task_rawUrl task) (task_resolved task) outcome = None
       ∧ resumeEnsureEntry g p outcome = settlePromise g p Rejected)
  ∨ ((∀ task, promises g !! p ≠ Some (task, Pending))
     ∧ resumeEnsureEntry g p outcome = g).
Proof.
  unfold resumeEnsureEntry.
  destruct (promises g !! p) as [[task [| |]]|] eqn:Hp; try (right; right; by split).
  destruct (_resolveUrl _ _ outcome) as [res|] eqn:Hres.
  - left. exists task, res. split_and!; [done|done|].
    by destruct (materialize g task res).
  - right; left. by exists task.
Qed.

Lemma settlePromise_lookup g p st q :
  promises (settlePromise g p st) !! q =
    if decide (p = q) then (λ e, (e.1, st)) <$> promises g !! p
    else promises g !! q.
Proof. unfold settlePromise. simpl. by rewrite list_lookup_alter. Qed.

Lemma settlePromise_evolves (R : ModuleNode → ModuleNode → Prop) g p task st :
  (∀ a, R a a) → promises g !! p = Some (task, Pending) →
  evolves R g (settlePromise g p st)
  ∧ (pendingCached g → pendingCached (settlePromise g p st)).
Proof.
  intros HR Hp. unfold evolves. split_and!.
  - by apply heapEvolves_refl.
  - done.
  - intros q t st0 Hq. rewrite settlePromise_lookup.
    case_decide as E; [subst q|by eauto].
    rewrite Hp in Hq. injection Hq as <- <-. rewrite Hp. simpl. eauto.
  - intros Hpc q t st0. rewrite settlePromise_lookup.
    case_decide as E; [subst q|by apply Hpc].
    rewrite Hp. simpl. intros [= <- <-]. by eapply Hpc.
Qed.

Lemma settlePromise_indexedHaveId g p st :
  indexedHaveId g → (∀ n, st = Fulfilled n → hasId (heap g) n) →
  indexedHaveId (settlePromise g p st).
Proof.
  intros Hwf Hst. apply (indexedHaveId_step g); try done; try (intros; by left).
  - intros k n Hin. right. tauto.
  - intros q t n. rewrite settlePromise_lookup.
    case_decide as E; [subst q|by left].
    destruct (promises g !! p) as [[t0 st0]|]; simpl; [|done].
    intros [= <- ->]. right. by apply Hst.
Qed.

Lemma materialize_advances (R : ModuleNode → ModuleNode → Prop) g task res :
  (∀ a, R a a) →
  advances R g (materialize g task res).1
  ∧ (indexedHaveId g → hasId (heap (materialize g task res).1) (materialize g task res).2)
  ∧ promises (materialize g task res).1 = promises g
  ∧ resolveIdCalls (materialize g task res).1 = resolveIdCalls g
  ∧ ∀ u ssr, _getUnresolvedUrlToModule (materialize g task res).1 u ssr =
       if decide (task_rawUrl task = u ∧ task_ssr task = ssr)
       then Some (HNode (materialize g task res).2)
       else _getUnresolvedUrlToModule g u ssr.
Proof.
  intros HR. destruct res as [[url' rid] meta'].
  destruct (JsMap.get rid (idToModuleMap g)) as [n|] eqn:Hid.
  - destruct (materialize_existing g task url' rid meta' n Hid)
      as (g' & -> & Hh & Hi & Hf & Hp & Hl & Hu & Hget & Hent). cbn [fst snd].
    assert (indexedHaveId g → hasId (heap g') n) as Hn.
    { intros (_ & Hwf & _). rewrite Hh. eapply Hwf. by apply get_elem_of. }
    assert (advances R g g') as Hadv; [|done].
    unfold advances, evolves. split_and!.
    + rewrite Hh. by apply heapEvolves_refl.
    + by rewrite Hi.
    + intros q t st Hq. rewrite Hp. eauto.
    + intros Hpc q t st. rewrite Hp. intros Hq. rewrite Hget.
      case_decide; [by eexists|by eapply Hpc].
    + intros Hwf. apply (indexedHaveId_step g); try done.
      * by rewrite Hh.
      * intros k m. rewrite Hu. destruct (JsMap.has url' _); [by left|].
        intros [[= _ ->]|?]%elem_of_set; [right; by apply Hn|by left].
      * intros k m. rewrite Hi. by left.
      * intros k m Hin. destruct (Hent _ _ Hin) as [[= ->]|]; [left; by apply Hn|by right].
      * intros q t m. rewrite Hp. by left.
  - destruct (materialize_fresh g task url' rid meta' Hid)
      as (g' & node & -> & Hh & _ & Hnid & _ & _ & _ & _ & _ & Hi & Hu & Hf & Hp & Hl & Hget & Hent).
    cbn [fst snd].
    assert (hasId (heap g') (length (heap g))) as Hn.
    { exists node. rewrite Hh, Hnid. split; [|done].
      rewrite lookup_app_r by lia. by rewrite Nat.sub_diag. }
    assert (advances R g g') as Hadv; [|done].
    unfold advances, evolves. split_and!.
    + rewrite Hh. by apply heapEvolves_app.
    + intros k n Hk. rewrite Hi, get_set_ne; [done|]. intros ->. congruence.
    + intros q t st Hq. rewrite Hp. eauto.
    + intros Hpc q t st. rewrite Hp. intros Hq. rewrite Hget.
      case_decide; [by eexists|by eapply Hpc].
    + intros Hwf. apply (indexedHaveId_step g); try done.
      * intros n. rewrite Hh. apply hasId_evolves with (R := eq); [by intros ? ? ->|].
        by apply heapEvolves_app.
      * intros k m. rewrite Hu. intros [[= _ ->]|?]%elem_of_set; [by right|by left].
      * intros k m. rewrite Hi. intros [[= _ ->]|?]%elem_of_set; [by right|by left].
      * intros k m Hin. destruct (Hent _ _ Hin) as [[= ->]|]; [by left|by right].
      * intros q t m. rewrite Hp. by left.
Qed.

Lemma advances_refl (R : ModuleNode → ModuleNode → Prop) g :
  (∀ a, R a a) → advances R g g.
Proof. intros HR. split_and!; [by apply evolves_refl|done|done]. Qed.

Lemma advances_trans (R : ModuleNode → ModuleNode → Prop) g1 g2 g3 :
  (∀ a b c, R a b → R b c → R a c) →
  advances R g1 g2 → advances R g2 g3 → advances R g1 g3.
Proof.
  intros HR (He12 & Hp12 & Hw12) (He23 & Hp23 & Hw23).
  split_and!; [by eapply evolves_trans|auto|auto].
Qed.

Lemma advances_weaken (R R' : ModuleNode → ModuleNode → Prop) g g' :
  (∀ a b, R a b → R' a b) → advances R g g' → advances R' g g'.
Proof. intros HR (He & ? & ?). split_and!; [by eapply evolves_weaken|done|done]. Qed.

Lemma resumeEnsureEntry_advances (R : ModuleNode → ModuleNode → Prop) g p outcome :
  (∀ a, R a a) → (∀ a b c, R a b → R b c → R a c) →
  advances R g (resumeEnsureEntry g p outcome).
Proof.
  intros HR HRt.
  destruct (resumeEnsureEntry_cases g p outcome)
    as [(task & res & Hp & Hres & ->)|[(task & Hp & Hres & ->)|[_ ->]]].
  - destruct (materialize_advances R g task res HR)
      as ((He & Hpc & Hwf) & Hn & Hp' & _).
    destruct (settlePromise_evolves R (materialize g task res).1 p task
                (Fulfilled (materialize g task res).2) HR) as [He' Hpc'].
    { by rewrite Hp'. }
    split_and!; [by eapply evolves_trans|auto|].
    intros Hg. apply settlePromise_indexedHaveId; [auto|].
    intros n [= <-]. auto.
  - destruct (settlePromise_evolves R g p task Rejected HR Hp) as [He' Hpc'].
    split_and!; [done|done|].
    intros Hg. by apply settlePromise_indexedHaveId.
  - by apply advances_refl.
Qed.

Lemma resumeEnsureEntry_dedups g p outcome u ssr :
  pendingCached g → dedups u ssr g (resumeEnsureEntry g p outcome).
Proof.
  intros Hpc.
  destruct (resumeEnsureEntry_cases g p outcome)
    as [(task & res & Hp & Hres & ->)|[(task & Hp & Hres & ->)|[_ ->]]].
  - destruct (materialize_advances eq g task res) as (_ & _ & _ & Hl & Hget); [done|].
    assert (callsFor u ssr (settlePromise (materialize g task res).1 p
                              (Fulfilled (materialize g task res).2))
            = callsFor u ssr g) as Hcalls.
    { unfold callsFor. simpl. by rewrite Hl. }
    specialize (Hpc _ _ _ Hp).
    split; unfold settlePromise at 1, _getUnresolvedUrlToModule at 2; simpl;
      fold (_getUnresolvedUrlToModule (materialize g task res).1 u ssr);
      rewrite Hget.
    + intros Hs. split; [|done]. case_decide; [by eexists|done].
    + intros Hm. left. split; [|done]. rewrite decide_False; [done|].
      intros [<- <-]. rewrite Hm in Hpc. by destruct Hpc.
  - by apply dedups_same.
  - apply dedups_refl.
Qed.

(** *** [createFileOnlyEntry] *)

Lemma createFileOnlyEntry_cases g path :
  let f := normalizePath path in
  (∃ s m, JsMap.get f (fileToModulesMap g) = Some s
          ∧ m ∈ s ∧ fileEntryMatches g (FS_PREFIX +:+ f) f m = true
          ∧ createFileOnlyEntry g path = (g, m))
  ∨ (∃ g' node,
       createFileOnlyEntry g path = (g', length (heap g))
       ∧ heap g' = heap g ++ [node]
       ∧ url node = FS_PREFIX +:+ f ∧ id node = None ∧ file node = Some f
       ∧ importers node = []
       ∧ lastHMRTimestamp node = 0%Z ∧ lastInvalidationTimestamp node = 0%Z
       ∧ urlToModuleMap g' = urlToModuleMap g ∧ idToModuleMap g' = idToModuleMap g
       ∧ _unresolvedUrlToModuleMap g' = _unresolvedUrlToModuleMap g
       ∧ _ssrUnresolvedUrlToModuleMap g' = _ssrUnresolvedUrlToModuleMap g
       ∧ promises g' = promises g ∧ resolveIdCalls g' = resolveIdCalls g
       ∧ (∃ s, JsMap.get f (fileToModulesMap g') = Some s ∧ length (heap g) ∈ s)).
Proof.
  intros f. unfold createFileOnlyEntry. fold f.
  destruct (JsMap.get f (fileToModulesMap g)) as [s|] eqn:Hf.
  - destruct (List.find (fileEntryMatches g (FS_PREFIX +:+ f) f) s) as [m|] eqn:Hfind.
    + left. apply List.find_some in Hfind as [Hin Hm].
      exists s, m. split_and!; try done. by apply list_elem_of_In.
    + right. eexists _, _. split; [reflexivity|]. simpl. split_and!; try done.
      eexists. rewrite get_set_eq. split; [done|]. apply elem_of_add. by left.
  - right. simpl. eexists _, _. split; [reflexivity|]. simpl. split_and!; try done.
    eexists. rewrite get_set_eq. split; [done|]. apply elem_of_add. by left.
Qed.

Lemma createFileOnlyEntry_advances (R : ModuleNode → ModuleNode → Prop) g path :
  (∀ a, R a a) → advances R g (createFileOnlyEntry g path).1.
Proof.
  intros HR.
  destruct (createFileOnlyEntry_cases g path)
    as [(s & m & _ & _ & _ & ->)
       |(g' & node & -> & Hh & _ & _ & _ & _ & _ & _ & Hu & Hi & Hc & Hs & Hp & Hl & _)];
    cbn [fst].
  { by apply advances_refl. }
  assert (heapEvolves R (heap g) (heap g')) as Hhe.
  { rewrite Hh. by apply heapEvolves_app. }
  unfold advances, evolves. split_and!.
  - done.
  - by rewrite Hi.
  - intros q t st Hq. rewrite Hp. eauto.
  - intros Hpc q t st. rewrite Hp. intros Hq.
    unfold _getUnresolvedUrlToModule. rewrite Hc, Hs. by eapply Hpc.
  - intros Hwf. apply (indexedHaveId_step g); try done.
    + intros n. rewrite Hh. apply hasId_evolves with (R := eq); [by intros ? ? ->|].
      by apply heapEvolves_app.
    + intros k n. rewrite Hu. by left.
    + intros k n. rewrite Hi. by left.
    + intros k n. rewrite Hc, Hs. by right.
    + intros q t n. rewrite Hp. by left.
Qed.

Lemma createFileOnlyEntry_dedups g path u ssr :
  dedups u ssr g (createFileOnlyEntry g path).1.
Proof.
  destruct (createFileOnlyEntry_cases g path)
    as [(s & m & _ & _ & _ & ->)
       |(g' & node & -> & Hh & _ & _ & _ & _ & _ & _ & Hu & Hi & Hc & Hs & Hp & Hl & _)];
    cbn [fst].
  { apply dedups_refl. }
  apply dedups_same; [|done]. unfold _getUnresolvedUrlToModule. by rewrite Hc, Hs.
Qed.

(** *** Steps that only write to nodes *)

Lemma with_heap_advances (R : ModuleNode → ModuleNode → Prop) g h' :
  (∀ a b, R a b → id a = id b) →
  heapEvolves R (heap g) h' → advances R g (with_heap h' g).
Proof.
  intros HR Hh. unfold advances, evolves. split_and!; try done.
  - intros q t st Hq. eauto.
  - intros Hwf. apply (indexedHaveId_step g); try done; try (intros; by left).
    + intros n. by apply hasId_evolves with (R := R).
    + intros k n Hin. right. tauto.
Qed.

Lemma with_heap_dedups g h' u ssr : dedups u ssr g (with_heap h' g).
Proof. by apply dedups_same. Qed.

(** *** [updateModuleInfo] *)

Lemma updateKeeps_refl a : updateKeeps a a.
Proof. split; [apply sameIdentity_refl|apply sameCache_refl]. Qed.

Lemma updateKeeps_trans a b c : updateKeeps a b → updateKeeps b c → updateKeeps a c.
Proof.
  intros [? ?] [? ?]. split; [by eapply sameIdentity_trans|by eapply sameCache_trans].
Qed.

Lemma updateKeeps_id a b : updateKeeps a b → id a = id b.
Proof. by intros [(_ & ? & _) _]. Qed.

Lemma invalidateKeeps_refl a : invalidateKeeps a a.
Proof. split; [apply sameIdentity_refl|apply sameEdges_refl]. Qed.

Lemma invalidateKeeps_trans a b c :
  invalidateKeeps a b → invalidateKeeps b c → invalidateKeeps a c.
Proof.
  intros [? ?] [? ?]. split; [by eapply sameIdentity_trans|by eapply sameEdges_trans].
Qed.

Lemma invalidateKeeps_id a b : invalidateKeeps a b → id a = id b.
Proof. by intros [(_ & ? & _) _]. Qed.

Lemma progresses_refl (R : ModuleNode → ModuleNode → Prop) g :
  (∀ a, R a a) → progresses R g g.
Proof.
  intros HR. split_and!; [by apply advances_refl| |done].
  intros _ u ssr. apply dedups_refl.
Qed.

Lemma progresses_trans (R : ModuleNode → ModuleNode → Prop) g1 g2 g3 :
  (∀ a b c, R a b → R b c → R a c) →
  progresses R g1 g2 → progresses R g2 g3 → progresses R g1 g3.
Proof.
  intros HR (Ha12 & Hd12 & Hs12) (Ha23 & Hd23 & Hs23).
  split_and!; [by eapply advances_trans| |auto].
  intros Hpc u ssr. eapply dedups_trans; [by apply Hd12|].
  apply Hd23. destruct Ha12 as (_ & Hp & _). auto.
Qed.

Lemma stampsBelow_altered T h h' :
  length h' = length h → heapEvolves updateKeeps h h' →
  stampsBelow T h → stampsBelow T h'.
Proof.
  intros Hlen Hh Hs n node' Hn'.
  destruct (lookup_lt_is_Some_2 h n) as [node Hn].
  { rewrite <- Hlen. by eapply lookup_lt_Some. }
  destruct (Hh _ _ Hn) as (node'' & Hn'' & _ & (_ & _ & _ & _ & E1 & E2)).
  rewrite Hn' in Hn''. injection Hn'' as <-. rewrite <- E1, <- E2. by eapply Hs.
Qed.

Lemma stampsBelow_app T h node :
  lastHMRTimestamp node = 0%Z → lastInvalidationTimestamp node = 0%Z → (0 ≤ T)%Z →
  stampsBelow T h → stampsBelow T (h ++ [node]).
Proof.
  intros E1 E2 HT Hs n node' [Hn|[_ Hn]]%lookup_app_Some; [by eapply Hs|].
  apply list_lookup_singleton_Some in Hn as [_ <-]. by rewrite E1, E2.
Qed.

Lemma with_heap_progresses g h' :
  length h' = length (heap g) →
  heapEvolves updateKeeps (heap g) h' → progresses updateKeeps g (with_heap h' g).
Proof.
  intros Hlen Hh. split_and!.
  - apply with_heap_advances; [apply updateKeeps_id|done].
  - intros _ u ssr. apply with_heap_dedups.
  - intros T _. by apply stampsBelow_altered.
Qed.

Lemma addImporter_evolves md dep h : heapEvolves updateKeeps h (addImporter md dep h).
Proof. apply heapEvolves_alter; [apply updateKeeps_refl|]. intros a. by repeat split. Qed.

Lemma deleteImporter_evolves md dep h : heapEvolves updateKeeps h (deleteImporter md dep h).
Proof. apply heapEvolves_alter; [apply updateKeeps_refl|]. intros a. by repeat split. Qed.

Lemma ensureEntry_heap g rawUrl ssr sa resolved :
  heap (_ensureEntryFromUrl g rawUrl ssr sa resolved).1 = heap g.
Proof.
  destruct (_getUnresolvedUrlToModule g (stripMarkers rawUrl) ssr) as [hd|] eqn:Hc.
  - by rewrite (ensureEntry_hit _ _ _ _ _ _ Hc).
  - by destruct (ensureEntry_miss g rawUrl ssr sa resolved Hc) as (g' & -> & Hh & _).
Qed.

Lemma resumeEnsureEntry_stamps g p outcome T :
  (0 ≤ T)%Z → stampsBelow T (heap g) → stampsBelow T (heap (resumeEnsureEntry g p outcome)).
Proof.
  intros HT Hs.
  destruct (resumeEnsureEntry_cases g p outcome)
    as [(task & [[url' rid] meta'] & Hp & Hres & ->)|[(task & Hp & Hres & ->)|[_ ->]]];
    [|done|done].
  change (heap (settlePromise ?g _ _)) with (heap g).
  destruct (JsMap.get rid (idToModuleMap g)) as [n|] eqn:Hid.
  - destruct (materialize_existing g task url' rid meta' n Hid) as (g' & -> & Hh & _).
    cbn [fst]. by rewrite Hh.
  - destruct (materialize_fresh g task url' rid meta' Hid)
      as (g' & node & -> & Hh & _ & _ & _ & _ & _ & E1 & E2 & _).
    cbn [fst]. rewrite Hh. by apply stampsBelow_app.
Qed.

Lemma createFileOnlyEntry_stamps g path T :
  (0 ≤ T)%Z → stampsBelow T (heap g) → stampsBelow T (heap (createFileOnlyEntry g path).1).
Proof.
  intros HT Hs.
  destruct (createFileOnlyEntry_cases g path)
    as [(s & m & _ & _ & _ & ->)
       |(g' & node & -> & Hh & _ & _ & _ & _ & E1 & E2 & _)]; [done|].
  cbn [fst]. rewrite Hh. by apply stampsBelow_app.
Qed.

Lemma ensureEntryFromUrl_progresses g rawUrl ssr sa :
  progresses updateKeeps g (ensureEntryFromUrl g rawUrl ssr sa).1.
Proof.
  split_and!; [apply ensureEntry_advances, updateKeeps_refl| |].
  - intros _ u ssr'. apply ensureEntry_dedups. by left.
  - intros T _. unfold ensureEntryFromUrl. by rewrite ensureEntry_heap.
Qed.

Lemma resumeEnsureEntry_progresses g p outcome :
  progresses updateKeeps g (resumeEnsureEntry g p outcome).
Proof.
  split_and!.
  - apply resumeEnsureEntry_advances; [apply updateKeeps_refl|apply updateKeeps_trans].
  - intros Hpc u ssr. by apply resumeEnsureEntry_dedups.
  - intros T. apply resumeEnsureEntry_stamps.
Qed.

Lemma startResolving_progresses link md ssr entries index g results waits :
  progresses updateKeeps g
    (startResolving link md ssr entries index g results waits).1.1.
Proof.
  revert index g results waits.
  induction entries as [|[u|n] entries IH]; intros index g results waits; simpl.
  - apply progresses_refl, updateKeeps_refl.
  - pose proof (ensureEntryFromUrl_progresses g u ssr true) as H1.
    destruct (ensureEntryFromUrl g u ssr true) as [g1 hd]. simpl in H1.
    eapply progresses_trans; [apply updateKeeps_trans|exact H1|apply IH].
  - eapply progresses_trans; [apply updateKeeps_trans| |apply IH].
    destruct link; [|apply progresses_refl, updateKeeps_refl].
    apply with_heap_progresses; [apply length_alter|apply addImporter_evolves].
Qed.

Lemma awaitHandle_progresses resolveId g hd :
  progresses updateKeeps g (awaitHandle resolveId g hd).1.
Proof.
  unfold awaitHandle. simpl. destruct hd as [n|p].
  { apply progresses_refl, updateKeeps_refl. }
  destruct (promises g !! p) as [[task [| |]]|];
    try apply progresses_refl, updateKeeps_refl.
  apply resumeEnsureEntry_progresses.
Qed.

Lemma finishResolving_progresses link resolveId md waits g results :
  progresses updateKeeps g (finishResolving link resolveId md waits g results).1.
Proof.
  revert g results.
  induction waits as [|[index hd] waits IH]; intros g results; cbn [finishResolving].
  - apply progresses_refl, updateKeeps_refl.
  - pose proof (awaitHandle_progresses resolveId g hd) as H1.
    destruct (awaitHandle resolveId g hd) as [g1 [dep|]]; cbn [fst] in *; [|exact H1].
    eapply progresses_trans; [apply updateKeeps_trans|exact H1|].
    eapply progresses_trans; [apply updateKeeps_trans| |apply IH].
    destruct link; [|apply progresses_refl, updateKeeps_refl].
    apply with_heap_progresses; [apply length_alter|apply addImporter_evolves].
Qed.

Lemma pruneImporters_evolves md prev h orphans :
  heapEvolves updateKeeps h (pruneImporters md prev h orphans).1.
Proof.
  revert h orphans. induction prev as [|dep prev IH]; intros h orphans; simpl.
  - apply heapEvolves_refl, updateKeeps_refl.
  - destruct (_ && _); [|apply IH].
    eapply heapEvolves_trans; [apply updateKeeps_trans| |apply IH].
    apply deleteImporter_evolves.
Qed.

Lemma pruneImporters_length md prev h orphans :
  length (pruneImporters md prev h orphans).1 = length h.
Proof.
  revert h orphans. induction prev as [|dep prev IH]; intros h orphans; simpl; [done|].
  destruct (_ && _); [|apply IH]. rewrite IH. apply length_alter.
Qed.

Lemma updateModuleInfo_progresses resolveId g md im ib am ae sa ssr :
  progresses updateKeeps g (updateModuleInfo resolveId g md im ib am ae sa ssr).1.
Proof.
  unfold updateModuleInfo.
  set (g0 := with_heap (alter (set_isSelfAccepting (Some sa)) md (heap g)) g).
  assert (progresses updateKeeps g g0) as H0.
  { apply with_heap_progresses; [apply length_alter|].
    apply heapEvolves_alter; [apply updateKeeps_refl|]. intros a. by repeat split. }
  eapply progresses_trans; [apply updateKeeps_trans|exact H0|]. clearbody g0. clear H0.
  pose proof (startResolving_progresses true md ssr im 0 g0
                (replicate (length im) None) []) as H1.
  destruct (startResolving true md ssr im 0 g0 _ []) as [[g1 results1] waits1].
  cbn [fst] in H1.
  eapply progresses_trans; [apply updateKeeps_trans|exact H1|]. clear H1.
  pose proof (finishResolving_progresses true resolveId md waits1 g1 results1) as H2.
  destruct (finishResolving true resolveId md waits1 g1 results1) as [g2 [results2|]];
    cbn [fst] in *; [|exact H2].
  eapply progresses_trans; [apply updateKeeps_trans|exact H2|]. clear H2.
  set (g3 := with_heap (alter _ md (heap g2)) g2).
  assert (progresses updateKeeps g2 g3) as H3.
  { apply with_heap_progresses; [apply length_alter|].
    apply heapEvolves_alter; [apply updateKeeps_refl|].
    intros a. destruct ssr; by repeat split. }
  eapply progresses_trans; [apply updateKeeps_trans|exact H3|]. clearbody g3. clear H3.
  pose proof (pruneImporters_evolves md
    (if ssr then ssrImportedModules_of (heap g0) md
     else clientImportedModules_of (heap g0) md) (heap g3) None) as H4.
  pose proof (pruneImporters_length md
    (if ssr then ssrImportedModules_of (heap g0) md
     else clientImportedModules_of (heap g0) md) (heap g3) None) as H4'.
  destruct (pruneImporters md _ (heap g3) None) as [h4 orphans]. cbn [fst] in H4, H4'.
  eapply progresses_trans;
    [apply updateKeeps_trans|apply (with_heap_progresses g3 h4 H4' H4)|].
  pose proof (startResolving_progresses false md ssr am 0 (with_heap h4 g3)
                (replicate (length am) None) []) as H5.
  destruct (startResolving false md ssr am 0 (with_heap h4 g3) _ [])
    as [[g5 results5] waits5].
  cbn [fst] in H5.
  eapply progresses_trans; [apply updateKeeps_trans|exact H5|]. clear H5.
  pose proof (finishResolving_progresses false resolveId md waits5 g5 results5) as H6.
  destruct (finishResolving false resolveId md waits5 g5 results5) as [g6 [results6|]];
    cbn [fst] in *; [|exact H6].
  eapply progresses_trans; [apply updateKeeps_trans|exact H6|].
  apply with_heap_progresses; [apply length_alter|].
  apply heapEvolves_alter; [apply updateKeeps_refl|]. intros a. by repeat split.
Qed.

(** *** Invalidation as a step of the graph *)

Lemma invalidateModule_evolves h md seen ts isHmr bnds :
  heapEvolves invalidateKeeps h (invalidateModule h md seen ts isHmr bnds).1.
Proof.
  destruct (invalidateModule_visited h md seen ts isHmr bnds) as [Hv _].
  by apply visited_heapEvolves in Hv.
Qed.

Lemma invalidateAll_walk_evolves ts mods h seen :
  heapEvolves invalidateKeeps h (invalidateAll_walk ts mods h seen).1.
Proof.
  destruct (invalidateAll_walk_visited ts mods h seen) as [Hv _].
  by apply visited_heapEvolves in Hv.
Qed.

Lemma onFileChange_walk_evolves now i mods h seen :
  heapEvolves invalidateKeeps h (onFileChange_walk now i mods h seen).1.
Proof.
  revert i h seen. induction mods as [|md mods IH]; intros i h seen; simpl.
  - apply heapEvolves_refl, invalidateKeeps_refl.
  - pose proof (invalidateModule_evolves h md seen (now i) false []) as H1.
    destruct (invalidateModule h md seen (now i) false []) as [h1 seen1].
    eapply heapEvolves_trans; [apply invalidateKeeps_trans|exact H1|apply IH].
Qed.

(** *** Every event *)

Lemma identity_of_updateKeeps a b : updateKeeps a b → sameIdentity a b.
Proof. by intros [? _]. Qed.

Lemma identity_of_invalidateKeeps a b : invalidateKeeps a b → sameIdentity a b.
Proof. by intros [? _]. Qed.

Lemma step_advances g e : advances sameIdentity g (step g e).
Proof.
  destruct e; simpl.
  - apply ensureEntry_advances, sameIdentity_refl.
  - apply resumeEnsureEntry_advances; [apply sameIdentity_refl|apply sameIdentity_trans].
  - apply createFileOnlyEntry_advances, sameIdentity_refl.
  - apply (advances_weaken invalidateKeeps); [apply identity_of_invalidateKeeps|].
    apply with_heap_advances; [apply invalidateKeeps_id|apply invalidateModule_evolves].
  - apply (advances_weaken invalidateKeeps); [apply identity_of_invalidateKeeps|].
    apply with_heap_advances; [apply invalidateKeeps_id|apply invalidateAll_walk_evolves].
  - unfold onFileChange. destruct (getModulesByFile g file0);
      [|apply advances_refl, sameIdentity_refl].
    apply (advances_weaken invalidateKeeps); [apply identity_of_invalidateKeeps|].
    apply with_heap_advances; [apply invalidateKeeps_id|apply onFileChange_walk_evolves].
  - apply (advances_weaken updateKeeps); [apply identity_of_updateKeeps|].
    apply updateModuleInfo_progresses.
Qed.

Lemma step_dedups g e u ssr :
  pendingCached g → consultsResolver u ssr e → dedups u ssr g (step g e).
Proof.
  intros Hpc He. destruct e; simpl.
  - apply ensureEntry_dedups. destruct resolved; [by right|by left].
  - by apply resumeEnsureEntry_dedups.
  - apply createFileOnlyEntry_dedups.
  - apply with_heap_dedups.
  - apply with_heap_dedups.
  - unfold onFileChange. destruct (getModulesByFile g file0);
      [apply with_heap_dedups|apply dedups_refl].
  - by apply updateModuleInfo_progresses.
Qed.

Lemma run_snoc g es e : run g (es ++ [e]) = step (run g es) e.
Proof. unfold run. by rewrite foldl_app. Qed.

Lemma run_advances g es : advances sameIdentity g (run g es).
Proof.
  revert g. induction es as [|e es IH]; intros g; simpl.
  - apply advances_refl, sameIdentity_refl.
  - eapply advances_trans; [apply sameIdentity_trans|apply step_advances|apply IH].
Qed.

Lemma run_dedups g es u ssr :
  pendingCached g → Forall (consultsResolver u ssr) es → dedups u ssr g (run g es).
Proof.
  revert g. induction es as [|e es IH]; intros g Hpc Hes; simpl.
  - apply dedups_refl.
  - apply list.Forall_cons in Hes as [He Hes].
    eapply dedups_trans; [by apply step_dedups|]. apply IH; [|done].
    by apply (step_advances g e).
Qed.

(** *** Promises stay filed *)

Lemma promisesFiled_pendingCached g : promisesFiled g → pendingCached g.
Proof.
  intros Hj p t st Hp. destruct (Hj _ _ _ Hp) as [->|(n & _ & ->)]; by eexists.
Qed.

Lemma promisesFiled_same g g' :
  promises g' = promises g →
  (∀ u ssr, _getUnresolvedUrlToModule g' u ssr = _getUnresolvedUrlToModule g u ssr) →
  promisesFiled g → promisesFiled g'.
Proof. intros Hp Hc Hj p t st. rewrite Hp, Hc. apply Hj. Qed.

Lemma ensureEntry_promisesFiled g rawUrl ssr sa resolved :
  promisesFiled g → promisesFiled (_ensureEntryFromUrl g rawUrl ssr sa resolved).1.
Proof.
  intros Hj.
  destruct (_getUnresolvedUrlToModule g (stripMarkers rawUrl) ssr) as [hd|] eqn:Hc.
  { by rewrite (ensureEntry_hit _ _ _ _ _ _ Hc). }
  destruct (ensureEntry_miss g rawUrl ssr sa resolved Hc)
    as (g' & -> & _ & _ & _ & _ & Hp & _ & Hget & _). cbn [fst].
  intros q t st. rewrite Hp, Hget. intros Hq.
  apply lookup_app_Some in Hq as [Hq|[Hlen Hq]].
  - rewrite decide_False; [by apply Hj|].
    intros [E1 E2]. destruct (Hj _ _ _ Hq) as [E|(n & _ & E)];
      rewrite <- E1, <- E2 in E; congruence.
  - apply list_lookup_singleton_Some in Hq as [Hq [= <- <-]]. simpl.
    rewrite decide_True by done. left. do 2 f_equal. lia.
Qed.

Lemma resumeEnsureEntry_promisesFiled g p outcome :
  promisesFiled g → promisesFiled (resumeEnsureEntry g p outcome).
Proof.
  intros Hj.
  destruct (resumeEnsureEntry_cases g p outcome)
    as [(task & res & Hp & Hres & ->)|[(task & Hp & Hres & ->)|[_ ->]]]; [| |done].
  - destruct (materialize_advances eq g task res) as (_ & _ & Hp' & _ & Hget); [done|].
    destruct (Hj _ _ _ Hp) as [Hcp|(n & [=] & _)].
    intros q t st. rewrite settlePromise_lookup, Hp'.
    unfold settlePromise, _getUnresolvedUrlToModule at 1 2; simpl.
    fold (_getUnresolvedUrlToModule (materialize g task res).1 (task_rawUrl t) (task_ssr t)).
    rewrite Hget. case_decide as E; [subst q|].
    + rewrite Hp. simpl. intros [= <- <-]. rewrite decide_True by done.
      right. eauto.
    + intros Hq. rewrite decide_False; [by apply Hj|].
      intros [E1 E2]. destruct (Hj _ _ _ Hq) as [Hc|(n & _ & Hc)];
        rewrite <- E1, <- E2, Hcp in Hc; congruence.
  - intros q t st. rewrite settlePromise_lookup.
    change (_getUnresolvedUrlToModule (settlePromise g p Rejected))
      with (_getUnresolvedUrlToModule g).
    case_decide as E; [subst q|by apply Hj].
    rewrite Hp. simpl. intros [= <- <-].
    destruct (Hj _ _ _ Hp) as [?|(n & [=] & _)]. by left.
Qed.

Lemma createFileOnlyEntry_promisesFiled g path :
  promisesFiled g → promisesFiled (createFileOnlyEntry g path).1.
Proof.
  destruct (createFileOnlyEntry_cases g path)
    as [(s & m & _ & _ & _ & ->)
       |(g' & node & -> & Hh & _ & _ & _ & _ & _ & _ & Hu & Hi & Hc & Hs & Hp & Hl & _)];
    cbn [fst]; [done|].
  apply promisesFiled_same; [done|].
  intros u ssr. unfold _getUnresolvedUrlToModule. by rewrite Hc, Hs.
Qed.

Lemma startResolving_promisesFiled link md ssr entries index g results waits :
  promisesFiled g →
  promisesFiled (startResolving link md ssr entries index g results waits).1.1.
Proof.
  revert index g results waits.
  induction entries as [|[u|n] entries IH]; intros index g results waits Hj;
    cbn [startResolving]; [done| |].
  - pose proof (ensureEntry_promisesFiled g u ssr true None Hj) as H1.
    fold (ensureEntryFromUrl g u ssr true) in H1.
    destruct (ensureEntryFromUrl g u ssr true) as [g1 hd]. by apply IH.
  - apply IH. by destruct link.
Qed.

Lemma awaitHandle_promisesFiled resolveId g hd :
  promisesFiled g → promisesFiled (awaitHandle resolveId g hd).1.
Proof.
  intros Hj. unfold awaitHandle. cbn [fst]. destruct hd as [n|p]; [done|].
  destruct (promises g !! p) as [[task [| |]]|]; try done.
  by apply resumeEnsureEntry_promisesFiled.
Qed.

Lemma finishResolving_promisesFiled link resolveId md waits g results :
  promisesFiled g →
  promisesFiled (finishResolving link resolveId md waits g results).1.
Proof.
  revert g results.
  induction waits as [|[index hd] waits IH]; intros g results Hj;
    cbn [finishResolving]; [done|].
  pose proof (awaitHandle_promisesFiled resolveId g hd Hj) as H1.
  destruct (awaitHandle resolveId g hd) as [g1 [dep|]]; cbn [fst] in *; [|done].
  apply IH. by destruct link.
Qed.

Lemma updateModuleInfo_promisesFiled resolveId g md im ib am ae sa ssr :
  promisesFiled g →
  promisesFiled (updateModuleInfo resolveId g md im ib am ae sa ssr).1.
Proof.
  intros Hj. unfold updateModuleInfo.
  set (g0 := with_heap (alter (set_isSelfAccepting (Some sa)) md (heap g)) g).
  assert (promisesFiled g0) as H0 by done. clearbody g0.
  pose proof (startResolving_promisesFiled true md ssr im 0 g0
                (replicate (length im) None) [] H0) as H1.
  destruct (startResolving true md ssr im 0 g0 _ []) as [[g1 results1] waits1].
  cbn [fst] in H1.
  pose proof (finishResolving_promisesFiled true resolveId md waits1 g1 results1 H1) as H2.
  destruct (finishResolving true resolveId md waits1 g1 results1) as [g2 [results2|]];
    cbn [fst] in *; [|done].
  set (g3 := with_heap (alter _ md (heap g2)) g2).
  assert (promisesFiled g3) as H3 by done. clearbody g3.
  destruct (pruneImporters md _ (heap g3) None) as [h4 orphans].
  assert (promisesFiled (with_heap h4 g3)) as H4 by done.
  pose proof (startResolving_promisesFiled false md ssr am 0 (with_heap h4 g3)
                (replicate (length am) None) [] H4) as H5.
  destruct (startResolving false md ssr am 0 (with_heap h4 g3) _ [])
    as [[g5 results5] waits5].
  cbn [fst] in H5.
  pose proof (finishResolving_promisesFiled false resolveId md waits5 g5 results5 H5) as H6.
  destruct (finishResolving false resolveId md waits5 g5 results5) as [g6 [results6|]];
    cbn [fst] in *; done.
Qed.

Lemma step_promisesFiled g e : promisesFiled g → promisesFiled (step g e).
Proof.
  intros Hj. destruct e; simpl.
  - by apply ensureEntry_promisesFiled.
  - by apply resumeEnsureEntry_promisesFiled.
  - by apply createFileOnlyEntry_promisesFiled.
  - done.
  - done.
  - unfold onFileChange. by destruct (getModulesByFile g file0).
  - by apply updateModuleInfo_promisesFiled.
Qed.

Lemma run_promisesFiled g es : promisesFiled g → promisesFiled (run g es).
Proof.
  revert g. induction es as [|e es IH]; intros g Hj; simpl; [done|].
  by apply IH, step_promisesFiled.
Qed.

Lemma emptyGraph_promisesFiled : promisesFiled emptyGraph.
Proof. by intros p t st Hp. Qed.

(** ** Single flight *)

(** C4. From a graph in which every promise is filed, a first
    [ensureEntryFromUrl] call for a raw url that has no entry in the pending
    cache of its [ssr] flag files its promise under the stripped url before
    it returns (that is, before it suspends), with the promise pending.
    Whatever happens next, [es] holding any number of further calls for the
    same url with resolver settlements and other operations interleaved,
    the resolver has been called exactly once for that url and flag, and a
    later call changes nothing and returns the first caller's handle, or
    the node that handle was fulfilled with. *)
Theorem ensureEntry_single_flight
    (g : ModuleGraph) (rawUrl : string) (ssr sa sa' : bool) (es : list Event) :
  promisesFiled g →
  _getUnresolvedUrlToModule g (stripMarkers rawUrl) ssr = None →
  Forall (consultsResolver (stripMarkers rawUrl) ssr) es →
  let g1 := (ensureEntryFromUrl g rawUrl ssr sa).1 in
  let first := (ensureEntryFromUrl g rawUrl ssr sa).2 in
  let g2 := run g1 es in
  first = HPromise (length (promises g))
  ∧ _getUnresolvedUrlToModule g1 (stripMarkers rawUrl) ssr = Some first
  ∧ handleState g1 first = Pending
  ∧ callsFor (stripMarkers rawUrl) ssr g2 = S (callsFor (stripMarkers rawUrl) ssr g)
  ∧ (ensureEntryFromUrl g2 rawUrl ssr sa').1 = g2
  ∧ ((ensureEntryFromUrl g2 rawUrl ssr sa').2 = first
     ∨ ∃ n, (ensureEntryFromUrl g2 rawUrl ssr sa').2 = HNode n
            ∧ handleState g2 first = Fulfilled n).
Proof.
  intros Hj Hmiss Hes g1 first g2.
  pose proof (ensureEntry_promisesFiled g rawUrl ssr sa None Hj) as Hj1.
  pose proof (ensureEntry_dedups g rawUrl ssr sa None (stripMarkers rawUrl) ssr
                (or_introl eq_refl)) as [_ Hd1].
  destruct (ensureEntry_miss g rawUrl ssr sa None Hmiss)
    as (g' & Hg' & _ & _ & _ & _ & Hp & _ & Hget & _).
  unfold ensureEntryFromUrl in *. subst g1 first g2.
  rewrite Hg' in *. cbn [fst snd] in *.
  assert (promises g' !! length (promises g)
          = Some (mkEnsureTask (stripMarkers rawUrl) ssr sa None, Pending)) as Hp1.
  { rewrite Hp, lookup_app_r by lia. by rewrite Nat.sub_diag. }
  assert (_getUnresolvedUrlToModule g' (stripMarkers rawUrl) ssr
          = Some (HPromise (length (promises g)))) as Hc1.
  { rewrite Hget. by rewrite decide_True. }
  destruct (Hd1 Hmiss) as [[Hno _]|[_ Hcalls1]]; [congruence|].
  pose proof (run_dedups g' es (stripMarkers rawUrl) ssr
                (promisesFiled_pendingCached _ Hj1) Hes) as [Hd2 _].
  destruct Hd2 as [_ Hcalls2]; [by rewrite Hc1|].
  pose proof (run_promisesFiled g' es Hj1) as Hj2.
  destruct (run_advances g' es) as ((_ & _ & Hpe) & _ & _).
  destruct (Hpe _ _ _ Hp1) as (st2 & Hp2 & _).
  split_and!; [done|done| |congruence| |].
  - simpl. by rewrite Hp1.
  - destruct (Hj2 _ _ _ Hp2) as [Hc|(n & _ & Hc)]; simpl in Hc;
      by rewrite (ensureEntry_hit _ _ _ _ _ _ Hc).
  - destruct (Hj2 _ _ _ Hp2) as [Hc|(n & -> & Hc)]; simpl in Hc;
      rewrite (ensureEntry_hit _ _ _ _ _ _ Hc); cbn [snd]; [by left|].
    right. exists n. split; [done|]. simpl. by rewrite Hp2.
Qed.

End registry_facts.

Lemma ensureEntry_single_flight_witness :
  let es := [EvEnsureEntry "/src/main.ts?t=1700000000000" false true None;
             EvEnsureEntry "/src/main.ts?import" false true None;
             EvResolverSettles 0 (Resolves (Some (mkResolved "/abs/src/main.ts" None)));
             EvEnsureEntry "/src/main.ts" false true None] in
  callsFor "/src/main.ts" false
    (run (ensureEntryFromUrl emptyGraph "/src/main.ts" false true).1 es) = 1.
Proof.
  intros es.
  pose proof (ensureEntry_single_flight emptyGraph "/src/main.ts" false true true es
                emptyGraph_promisesFiled eq_refl) as H.
  destruct H as (_ & _ & _ & Hcalls & _).
  - repeat constructor.
  - exact Hcalls.
Defined.

(** ** Resolver failures *)

(** C5, as stated, fails for a null result: when the resolver's promise is
    fulfilled with [null], the promise of [ensureEntryFromUrl] is fulfilled
    with a new node whose id is the url itself, registered in the url, id and
    file indexes, and [resolveUrl] answers with the url as resolved id. *)
Lemma null_result_creates_node :
  let g := run emptyGraph [EvEnsureEntry "/src/missing.ts" false true None;
                           EvResolverSettles 0 (Resolves None)] in
  handleState g (HPromise 0) = Fulfilled 0
  ∧ JsMap.get "/src/missing.ts" (urlToModuleMap g) = Some 0
  ∧ getModuleById g "/src/missing.ts" = Some 0
  ∧ getModulesByFile g "/src/missing.ts" = Some [0]
  ∧ resolveUrl emptyGraph "/src/missing.ts" false (Resolves None)
    = Fulfilled ("/src/missing.ts", "/src/missing.ts", None).
Proof. vm_compute. by repeat split. Qed.

Section failure_facts.
Context {U : Imports}.

Lemma resolveUrl_resume_null u : _resolveUrl_resume u None = (u, u, None).
Proof. unfold _resolveUrl_resume. by rewrite bool_decide_eq_false_2 by (by intros ?). Qed.

Lemma resumeEnsureEntry_rejects g p task :
  promises g !! p = Some (task, Pending) → task_resolved task = None →
  resumeEnsureEntry g p Rejects = settlePromise g p Rejected.
Proof.
  intros Hp Hres. unfold resumeEnsureEntry, _resolveUrl. by rewrite Hp, Hres.
Qed.

Lemma resumeEnsureEntry_resolves g p task r :
  promises g !! p = Some (task, Pending) → task_resolved task = None →
  resumeEnsureEntry g p (Resolves r) =
    settlePromise (materialize g task (_resolveUrl_resume (task_rawUrl task) r)).1 p
      (Fulfilled (materialize g task (_resolveUrl_resume (task_rawUrl task) r)).2).
Proof.
  intros Hp Hres. unfold resumeEnsureEntry, _resolveUrl. rewrite Hp, Hres.
  by destruct (materialize g task _).
Qed.

Lemma handleState_settled g p task st :
  promises g !! p = Some (task, Pending) →
  handleState (settlePromise g p st) (HPromise p) = st.
Proof.
  intros Hp. simpl. rewrite list_lookup_alter_eq, Hp. done.
Qed.

Lemma materialize_binds_id g task url' rid meta' :
  JsMap.get rid (idToModuleMap (materialize g task (url', rid, meta')).1)
  = Some (materialize g task (url', rid, meta')).2.
Proof.
  destruct (JsMap.get rid (idToModuleMap g)) as [n|] eqn:Hid.
  - destruct (materialize_existing g task url' rid meta' n Hid)
      as (g' & -> & _ & Hi & _). cbn [fst snd]. by rewrite Hi.
  - destruct (materialize_fresh g task url' rid meta' Hid)
      as (g' & node & -> & _ & _ & _ & _ & _ & _ & _ & _ & Hi & _).
    cbn [fst snd]. rewrite Hi. apply get_set_eq.
Qed.

(** C5, amended. When the resolver's promise is rejected, the promise of
    [ensureEntryFromUrl] is rejected, the store and the url, id and file
    indexes are what they were, the resolver is not called again, and a
    later [ensureEntryFromUrl] or [resolveUrl] for that url gets the same
    rejection from the pending cache; [resolveUrl] on a url without cache
    entry is rejected too. When the resolver's promise is fulfilled with
    [null], nothing fails: the stripped url is taken as the resolved id,
    the promise is fulfilled with the node the id index then binds to it,
    and [resolveUrl] answers with the url as id and no meta. *)
Theorem resolver_failure_propagates
    (g : ModuleGraph) (p : nat) (task : EnsureTask) (rawUrl : string) (sa : bool)
    (outcome : ResolveOutcome) :
  promisesFiled g →
  promises g !! p = Some (task, Pending) → task_resolved task = None →
  stripMarkers rawUrl = task_rawUrl task →
  (let g' := resumeEnsureEntry g p Rejects in
   handleState g' (HPromise p) = Rejected
   ∧ heap g' = heap g ∧ urlToModuleMap g' = urlToModuleMap g
   ∧ idToModuleMap g' = idToModuleMap g
   ∧ fileToModulesMap g' = fileToModulesMap g
   ∧ resolveIdCalls g' = resolveIdCalls g
   ∧ ensureEntryFromUrl g' rawUrl (task_ssr task) sa = (g', HPromise p)
   ∧ resolveUrl g' rawUrl (task_ssr task) outcome = Rejected)
  ∧ (∀ url' ssr, _getUnresolvedUrlToModule g (stripMarkers url') ssr = None →
       resolveUrl g url' ssr Rejects = Rejected
       ∧ resolveUrl g url' ssr (Resolves None)
         = Fulfilled (stripMarkers url', stripMarkers url', None))
  ∧ (let g' := resumeEnsureEntry g p (Resolves None) in
     ∃ n, handleState g' (HPromise p) = Fulfilled n
          ∧ JsMap.get (task_rawUrl task) (idToModuleMap g') = Some n).
Proof.
  intros Hj Hp Hres Hraw. split_and!.
  - rewrite (resumeEnsureEntry_rejects g p task Hp Hres).
    assert (_getUnresolvedUrlToModule (settlePromise g p Rejected)
              (stripMarkers rawUrl) (task_ssr task) = Some (HPromise p)) as Hc.
    { rewrite Hraw.
      change (_getUnresolvedUrlToModule (settlePromise g p Rejected))
        with (_getUnresolvedUrlToModule g).
      by destruct (Hj _ _ _ Hp) as [?|(n & [=] & _)]. }
    cbn zeta. rewrite (handleState_settled g p task Rejected Hp).
    split_and!; try done.
    + by apply ensureEntry_hit.
    + unfold resolveUrl. rewrite Hc.
      by rewrite (handleState_settled g p task Rejected Hp).
  - intros url' ssr Hmiss. unfold resolveUrl. rewrite Hmiss. simpl.
    by rewrite resolveUrl_resume_null.
  - rewrite (resumeEnsureEntry_resolves g p task None Hp Hres).
    rewrite resolveUrl_resume_null.
    destruct (materialize_advances eq g task (task_rawUrl task, task_rawUrl task, None))
      as (_ & _ & Hp' & _); [done|].
    eexists. split.
    + apply handleState_settled with (task := task). by rewrite Hp'.
    + apply materialize_binds_id.
Qed.

End failure_facts.

Lemma resolver_failure_propagates_witness :
  let g := (ensureEntryFromUrl emptyGraph "/src/a.ts" false true).1 in
  handleState (resumeEnsureEntry g 0 Rejects) (HPromise 0) = Rejected
  ∧ idToModuleMap (resumeEnsureEntry g 0 Rejects) = []
  ∧ resolveIdCalls (resumeEnsureEntry g 0 Rejects) = [("/src/a.ts", false)].
Proof.
  intros g.
  pose proof (resolver_failure_propagates g 0
                (mkEnsureTask "/src/a.ts" false true None) "/src/a.ts" true Rejects
                (ensureEntry_promisesFiled emptyGraph "/src/a.ts" false true None
                   emptyGraph_promisesFiled)
                eq_refl eq_refl eq_refl) as [H _].
  destruct H as (Hst & _ & _ & Hid & _ & Hcalls & _).
  split_and!; [exact Hst|exact Hid|exact Hcalls].
Defined.

(** ** One node per resolved id *)

(** C3, as stated, fails in its last clause: in [aliasGraph] the urls
    [/b/foo] and [/a/foo] resolve to one id and get one node, node 0, but
    the served url [/a/foo.js] of the later alias was already in the url
    index, bound to node 1, and is not registered to node 0. *)
Lemma alias_url_already_bound_is_kept :
  _resolveUrl "/a/foo" None (Resolves (Some (mkResolved "/x/foo.js" None)))
    = Some ("/a/foo.js", "/x/foo.js", None)
  ∧ handleState aliasGraph (HPromise 0) = Fulfilled 0
  ∧ handleState aliasGraph (HPromise 2) = Fulfilled 0
  ∧ JsMap.get "/a/foo.js" (urlToModuleMap aliasGraph) = Some 1
  ∧ JsMap.get "/a/foo.js" (urlToModuleMap aliasGraph) ≠ Some 0.
Proof. vm_compute. by repeat split. Qed.

Section identity_facts.
Context {U : Imports}.

Lemma resumeEnsureEntry_fulfills g p task outcome res :
  promises g !! p = Some (task, Pending) →
  _resolveUrl (task_rawUrl task) (task_resolved task) outcome = Some res →
  resumeEnsureEntry g p outcome =
    settlePromise (materialize g task res).1 p (Fulfilled (materialize g task res).2).
Proof.
  intros Hp Hres. unfold resumeEnsureEntry. rewrite Hp, Hres.
  by destruct (materialize g task res).
Qed.

Lemma handleState_fulfilled_later g g' p task n :
  promises g !! p = Some (task, Fulfilled n) → evolves sameIdentity g g' →
  handleState g' (HPromise p) = Fulfilled n.
Proof.
  intros Hp (_ & _ & Hpe). destruct (Hpe _ _ _ Hp) as (st' & Hp' & [[=]| ->]).
  simpl. by rewrite Hp'.
Qed.

(** C3, amended. Two resolutions that yield the same resolved id [rid],
    with anything in between, fulfil their promises with the same node. If
    [rid] was unknown, the first one creates that node and registers it in
    the url, id and file indexes. The later one creates no node and changes
    neither the id nor the file index; it caches the node under its raw
    url, and it registers its served url to the node only if the url index
    has no binding for that url yet: a url already bound keeps its
    binding. *)
Theorem one_node_per_resolved_id
    (g : ModuleGraph) (p1 p2 : nat) (t1 t2 : EnsureTask) (o1 o2 : ResolveOutcome)
    (url1 url2 rid : string) (meta1 meta2 : option string) (es : list Event) :
  promises g !! p1 = Some (t1, Pending) →
  _resolveUrl (task_rawUrl t1) (task_resolved t1) o1 = Some (url1, rid, meta1) →
  let g1 := resumeEnsureEntry g p1 o1 in
  let g2 := run g1 es in
  promises g2 !! p2 = Some (t2, Pending) →
  _resolveUrl (task_rawUrl t2) (task_resolved t2) o2 = Some (url2, rid, meta2) →
  let g3 := resumeEnsureEntry g2 p2 o2 in
  ∃ n,
    handleState g1 (HPromise p1) = Fulfilled n
    ∧ handleState g3 (HPromise p1) = Fulfilled n
    ∧ handleState g3 (HPromise p2) = Fulfilled n
    ∧ (JsMap.get rid (idToModuleMap g) = None →
         n = length (heap g) ∧ length (heap g1) = S (length (heap g))
         ∧ JsMap.get url1 (urlToModuleMap g1) = Some n
         ∧ JsMap.get rid (idToModuleMap g1) = Some n
         ∧ ∃ s, getModulesByFile g1 (cleanUrl rid) = Some s ∧ n ∈ s)
    ∧ heap g3 = heap g2 ∧ idToModuleMap g3 = idToModuleMap g2
    ∧ fileToModulesMap g3 = fileToModulesMap g2
    ∧ urlToModuleMap g3 =
        (if JsMap.has url2 (urlToModuleMap g2) then urlToModuleMap g2
         else JsMap.set url2 n (urlToModuleMap g2))
    ∧ _getUnresolvedUrlToModule g3 (task_rawUrl t2) (task_ssr t2) = Some (HNode n).
Proof.
  intros Hp1 Hres1 g1 g2 Hp2 Hres2 g3.
  set (n := (materialize g t1 (url1, rid, meta1)).2).
  assert (g1 = settlePromise (materialize g t1 (url1, rid, meta1)).1 p1 (Fulfilled n))
    as Hg1 by (by apply resumeEnsureEntry_fulfills with (outcome := o1)).
  destruct (materialize_advances sameIdentity g t1 (url1, rid, meta1) sameIdentity_refl)
    as (_ & _ & Hpm & _).
  assert (promises g1 !! p1 = Some (t1, Fulfilled n)) as Hf1.
  { rewrite Hg1, settlePromise_lookup, decide_True, Hpm, Hp1 by done. done. }
  assert (JsMap.get rid (idToModuleMap g1) = Some n) as Hid1.
  { rewrite Hg1. apply materialize_binds_id. }
  destruct (run_advances g1 es) as (He12 & _ & _). fold g2 in He12.
  assert (JsMap.get rid (idToModuleMap g2) = Some n) as Hid2 by (by apply He12).
  destruct (materialize_existing g2 t2 url2 rid meta2 n Hid2)
    as (g' & Hm2 & Hh & Hi & Hf & Hp' & _ & Hu & Hget & _).
  assert (g3 = settlePromise g' p2 (Fulfilled n)) as Hg3.
  { unfold g3. rewrite (resumeEnsureEntry_fulfills g2 p2 t2 o2 _ Hp2 Hres2).
    by rewrite Hm2. }
  exists n. split_and!.
  - simpl. by rewrite Hf1.
  - apply handleState_fulfilled_later with (g := g1) (task := t1); [done|].
    eapply evolves_trans; [apply sameIdentity_trans|exact He12|].
    apply resumeEnsureEntry_advances; [apply sameIdentity_refl|apply sameIdentity_trans].
  - rewrite Hg3. apply handleState_settled with (task := t2). by rewrite Hp'.
  - intros Hnew.
    destruct (materialize_fresh g t1 url1 rid meta1 Hnew)
      as (g0 & node & Hm & Hh0 & _ & _ & _ & _ & _ & _ & _ & Hi0 & Hu0 & Hf0 & _).
    assert (n = length (heap g)) as Hn by (unfold n; by rewrite Hm).
    rewrite Hg1, Hm. cbn [fst]. unfold getModulesByFile.
    change (heap (settlePromise g0 p1 (Fulfilled n))) with (heap g0).
    change (urlToModuleMap (settlePromise g0 p1 (Fulfilled n))) with (urlToModuleMap g0).
    change (idToModuleMap (settlePromise g0 p1 (Fulfilled n))) with (idToModuleMap g0).
    change (fileToModulesMap (settlePromise g0 p1 (Fulfilled n)))
      with (fileToModulesMap g0).
    rewrite Hh0, Hu0, Hi0, Hf0, Hn, !get_set_eq, length_app. simpl.
    split_and!; [done|lia|done|done|].
    eexists. split; [done|]. apply elem_of_add. by left.
  - by rewrite Hg3.
  - by rewrite Hg3.
  - by rewrite Hg3.
  - by rewrite Hg3.
  - rewrite Hg3.
    change (_getUnresolvedUrlToModule (settlePromise g' p2 (Fulfilled n)))
      with (_getUnresolvedUrlToModule g').
    rewrite Hget. by rewrite decide_True.
Qed.

End identity_facts.

Lemma one_node_per_resolved_id_witness :
  let g := run emptyGraph [EvEnsureEntry "/src/App" false true None;
                           EvEnsureEntry "/src/App.vue" false true None] in
  let r := Resolves (Some (mkResolved "/abs/src/App.vue" None)) in
  let g3 := resumeEnsureEntry (run (resumeEnsureEntry g 0 r) []) 1 r in
  ∃ n, handleState g3 (HPromise 0) = Fulfilled n
       ∧ handleState g3 (HPromise 1) = Fulfilled n.
Proof.
  intros g r g3.
  destruct (one_node_per_resolved_id g 0 1
              (mkEnsureTask "/src/App" false true None)
              (mkEnsureTask "/src/App.vue" false true None) r r
              "/src/App.vue" "/src/App.vue" "/abs/src/App.vue" None None []
              ltac:(vm_compute; reflexivity) ltac:(vm_compute; reflexivity)
              ltac:(vm_compute; reflexivity) ltac:(vm_compute; reflexivity))
    as (n & _ & H1 & H2 & _).
  exists n. split; [exact H1|exact H2].
Defined.

(** ** Served urls *)




Section served_url_facts.
Context {U : Imports}.



End served_url_facts.



(** ** File-only entries *)

(** C10, as stated, fails: [createFileOnlyEntry] returns an existing node of
    the file when its id is the file. In [importedStyleGraph] it returns
    node 0, which has an id and is in the url and id indexes, so
    [getModuleById] and [getModuleByUrl] return it. *)
Lemma createFileOnlyEntry_returns_indexed_node :
  createFileOnlyEntry importedStyleGraph "/abs/src/a.css" = (importedStyleGraph, 0)
  ∧ id <$> heap importedStyleGraph !! 0 = Some (Some "/abs/src/a.css")
  ∧ getModuleById importedStyleGraph "/abs/src/a.css" = Some 0
  ∧ getModuleByUrl importedStyleGraph "/src/a.css" false Rejects = Fulfilled (Some 0)
  ∧ JsMap.get "/src/a.css" (urlToModuleMap importedStyleGraph) = Some 0.
Proof. vm_compute. by repeat split. Qed.

Section file_only_facts.
Context {U : Imports}.

Lemma hasId_not_null h n node : h !! n = Some node → id node = None → ¬ hasId h n.
Proof. intros Hn Hid (node' & Hn' & Hid'). congruence. Qed.

Lemma handleState_fulfilled_hasId g hd n :
  indexedHaveId g → handleState g hd = Fulfilled n →
  (∃ k, (k, hd) ∈ _unresolvedUrlToModuleMap g ∨ (k, hd) ∈ _ssrUnresolvedUrlToModuleMap g) →
  hasId (heap g) n.
Proof.
  intros (_ & _ & Hc & Hs & Hp) Hst (k & Hin). destruct hd as [m|p]; simpl in Hst.
  - injection Hst as ->. destruct Hin; eauto.
  - destruct (promises g !! p) as [[t st]|] eqn:E; simpl in Hst; [|done].
    subst st. eauto.
Qed.

Lemma getUnresolved_elem_of g u ssr hd :
  _getUnresolvedUrlToModule g u ssr = Some hd →
  ∃ k, (k, hd) ∈ _unresolvedUrlToModuleMap g ∨ (k, hd) ∈ _ssrUnresolvedUrlToModuleMap g.
Proof.
  unfold _getUnresolvedUrlToModule. destruct ssr; intros H%get_elem_of; eauto.
Qed.

(** C10, amended. [createFileOnlyEntry] returns either a node already
    registered for the file whose url is the synthesized address or whose id
    is the file (such a node may well have an id and be in the url and id
    indexes), or a node it creates. A node it creates has a null id and is
    registered in the file index only: the url index, the id index and the
    pending caches are unchanged. Whatever happens later, [getModuleById]
    and [getModuleByUrl] never return that node, it is never among the
    nodes of the id index that [invalidateAll] starts from, and
    [invalidateAll] invalidates it only as an importer of another node it
    invalidates. *)
Theorem createFileOnlyEntry_new_node_is_file_only
    (g : ModuleGraph) (path : string) (es : list Event) :
  indexedHaveId g →
  let g1 := (createFileOnlyEntry g path).1 in
  let n := (createFileOnlyEntry g path).2 in
  let f := normalizePath path in
  ((g1 = g
    ∧ ∃ node s, heap g !! n = Some node
                ∧ (url node = FS_PREFIX +:+ f ∨ id node = Some f)
                ∧ getModulesByFile g f = Some s ∧ n ∈ s)
   ∨ (n = length (heap g)
      ∧ urlToModuleMap g1 = urlToModuleMap g ∧ idToModuleMap g1 = idToModuleMap g
      ∧ _unresolvedUrlToModuleMap g1 = _unresolvedUrlToModuleMap g
      ∧ _ssrUnresolvedUrlToModuleMap g1 = _ssrUnresolvedUrlToModuleMap g
      ∧ ∃ node s, heap g1 !! n = Some node ∧ id node = None
                  ∧ url node = FS_PREFIX +:+ f ∧ file node = Some f
                  ∧ getModulesByFile g1 f = Some s ∧ n ∈ s))
  ∧ (n = length (heap g) →
     let g2 := run g1 es in
     (∃ node, heap g2 !! n = Some node ∧ id node = None)
     ∧ (∀ k, getModuleById g2 k ≠ Some n)
     ∧ (∀ rawUrl ssr outcome, getModuleByUrl g2 rawUrl ssr outcome ≠ Fulfilled (Some n))
     ∧ (n ∉ JsMap.values (idToModuleMap g2))
     ∧ ∀ timestamp,
         let r := invalidateAll_walk timestamp (JsMap.values (idToModuleMap g2))
                    (heap g2) [] in
         n ∈ r.2 → ∃ m, m ∈ r.2 ∧ n ∈ importers_of (heap g2) m).
Proof.
  intros Hwf g1 n f.
  pose proof (createFileOnlyEntry_advances sameIdentity g path sameIdentity_refl)
    as (_ & _ & Hwf1). specialize (Hwf1 Hwf). fold g1 in Hwf1.
  assert (createFileOnlyEntry g path = (g1, n)) as Hr by (by destruct (createFileOnlyEntry g path)).
  clearbody g1 n.
  destruct (createFileOnlyEntry_cases g path)
    as [(s & m & Hs & Hm & Hmatch & Hr')
       |(g' & node & Hr' & Hh & Hurl & Hid & Hfile & _ & _ & _ & Hu & Hi & Hc & Hsc & _ & _
         & (s & Hs & Hin))];
    rewrite Hr in Hr'; injection Hr' as -> ->.
  - unfold fileEntryMatches in Hmatch.
    destruct (heap g !! m) as [node|] eqn:Hnode; [|done].
    split.
    + left. split; [done|]. exists node, s. split_and!; try done.
      apply orb_true_iff in Hmatch as [H%bool_decide_eq_true|H%bool_decide_eq_true];
        [by left|by right].
    + intros Hnew. exfalso. apply lookup_lt_Some in Hnode. lia.
  - assert (heap g' !! length (heap g) = Some node) as Hnode.
    { rewrite Hh, lookup_app_r by lia. by rewrite Nat.sub_diag. }
    split.
    + right. split_and!; try done. by exists node, s.
    + intros _ g2.
      destruct (run_advances g' es) as ((Hhe & _ & _) & _ & Hwf2).
      specialize (Hwf2 Hwf1). fold g2 in Hhe, Hwf2.
      destruct (Hhe _ _ Hnode) as (node2 & Hnode2 & (_ & Hid2 & _)).
      assert (id node2 = None) as Hnull by congruence.
      pose proof (hasId_not_null _ _ _ Hnode2 Hnull) as Hno.
      assert (length (heap g) ∉ JsMap.values (idToModuleMap g2)) as Hvals.
      { intros (k & Hk)%elem_of_values. destruct Hwf2 as (_ & Hi2 & _). eauto. }
      split_and!.
      * eauto.
      * intros k Hk. unfold getModuleById in Hk. apply get_elem_of in Hk.
        destruct Hwf2 as (_ & Hi2 & _). eauto.
      * intros rawUrl ssr outcome. unfold getModuleByUrl.
        destruct (_getUnresolvedUrlToModule g2 (stripMarkers rawUrl) ssr) as [hd|] eqn:Hhit.
        -- destruct (handleState g2 hd) as [|m|] eqn:Hst; try done.
           intros [= ->]. apply Hno.
           eapply handleState_fulfilled_hasId; [done|done|].
           by eapply getUnresolved_elem_of.
        -- destruct (_resolveUrl _ None outcome) as [[[u' ?] ?]|]; [|done].
           intros [= Hk]. apply get_elem_of in Hk.
           destruct Hwf2 as (Hu2 & _). eauto.
      * done.
      * intros timestamp r Hin'.
        apply (invalidateAll_walk_reach timestamp _ (heap g2)) in Hin'
          as [Hnil|[?|?]]; [|done|done|done].
        by apply elem_of_nil in Hnil.
Qed.

End file_only_facts.

Lemma emptyGraph_indexedHaveId : indexedHaveId emptyGraph.
Proof.
  split_and!; try (by intros k n Hin%elem_of_nil). by intros p t n Hp.
Qed.

Lemma createFileOnlyEntry_new_node_witness :
  let es := [EvEnsureEntry "/abs/dep.css" false true None;
             EvResolverSettles 0 (Resolves (Some (mkResolved "/abs/dep.css?direct" None)));
             EvInvalidateAll 7] in
  getModuleById (run (createFileOnlyEntry emptyGraph "/abs/dep.css").1 es) "/abs/dep.css"
    ≠ Some 0.
Proof.
  intros es.
  destruct (createFileOnlyEntry_new_node_is_file_only emptyGraph "/abs/dep.css" es
              emptyGraph_indexedHaveId) as [_ H].
  destruct (H eq_refl) as (_ & Hid & _).
  exact (Hid "/abs/dep.css").
Defined.

(** ** Timestamps *)

Lemma stampsGrow_refl a : stampsGrow a a.
Proof. split; lia. Qed.

Lemma stampsGrow_trans a b c : stampsGrow a b → stampsGrow b c → stampsGrow a c.
Proof. intros [? ?] [? ?]. split; lia. Qed.

Lemma stampsGrow_of_sameCache a b : sameCache a b → stampsGrow a b.
Proof. intros (_ & _ & _ & _ & E1 & E2). split; lia. Qed.

Lemma stampsBelow_mono T T' h : (T ≤ T')%Z → stampsBelow T h → stampsBelow T' h.
Proof. intros HT Hs n node Hn. destruct (Hs _ _ Hn). lia. Qed.

Lemma visited_stamps isHmr ts T h seen h' seen' :
  visited isHmr ts h seen h' seen' → stampsBelow T h → (T ≤ ts)%Z →
  heapEvolves stampsGrow h h' ∧ stampsBelow ts h'.
Proof.
  intros (added & _ & _ & _ & Hh) Hs HT. split.
  - intros n node Hn. rewrite Hh, Hn. destruct (Hs _ _ Hn).
    case_decide; simpl; eexists; (split; [done|]); [|apply stampsGrow_refl].
    split; simpl; destruct isHmr; lia.
  - intros n node'. rewrite Hh.
    destruct (h !! n) as [node|] eqn:Hn; [|by case_decide].
    destruct (Hs _ _ Hn).
    case_decide; simpl; intros [= <-]; simpl; [destruct isHmr|]; lia.
Qed.

Lemma onFileChange_walk_stamps now i mods T T' h seen :
  (∀ j, (T ≤ now j ≤ T')%Z) → (∀ j k, j ≤ k → (now j ≤ now k)%Z) →
  stampsBelow (if i is 0 then T else now (pred i)) h →
  heapEvolves stampsGrow h (onFileChange_walk now i mods h seen).1
  ∧ stampsBelow T' (onFileChange_walk now i mods h seen).1.
Proof.
  intros Hb Hm. revert i h seen.
  induction mods as [|md mods IH]; intros i h seen Hs; simpl.
  - split; [apply heapEvolves_refl, stampsGrow_refl|].
    eapply stampsBelow_mono; [|exact Hs]. destruct i; [|apply Hb].
    specialize (Hb 0). lia.
  - destruct (invalidateModule_visited h md seen (now i) false []) as [Hv _].
    destruct (invalidateModule h md seen (now i) false []) as [h1 seen1].
    simpl in Hv. eapply visited_stamps in Hv as [Hg Hs1]; [|exact Hs|].
    2:{ destruct i; [apply Hb|]. apply Hm. lia. }
    destruct (IH (S i) h1 seen1 Hs1) as [Hg' Hs']. split; [|done].
    eapply heapEvolves_trans; [apply stampsGrow_trans|exact Hg|exact Hg'].
Qed.

Section timestamp_facts.
Context {U : Imports}.

Lemma step_stamps g T e es :
  (0 ≤ T)%Z → stampsBelow T (heap g) → clockOk T (e :: es) →
  heapEvolves stampsGrow (heap g) (heap (step g e))
  ∧ ∃ T', (0 ≤ T')%Z ∧ stampsBelow T' (heap (step g e)) ∧ clockOk T' es.
Proof.
  intros HT Hs Hc. destruct e; simpl in Hc |- *.
  - rewrite ensureEntry_heap. split; [apply heapEvolves_refl, stampsGrow_refl|eauto].
  - split.
    + destruct (resumeEnsureEntry_progresses g p outcome) as (((Hh & _) & _) & _).
      eapply heapEvolves_weaken; [|exact Hh].
      intros a b [_ Hab]. by apply stampsGrow_of_sameCache.
    + exists T. split_and!; [done| |done]. by apply resumeEnsureEntry_stamps.
  - split.
    + destruct (createFileOnlyEntry_advances updateKeeps g file0 updateKeeps_refl)
        as ((Hh & _) & _).
      eapply heapEvolves_weaken; [|exact Hh].
      intros a b [_ Hab]. by apply stampsGrow_of_sameCache.
    + exists T. split_and!; [done| |done]. by apply createFileOnlyEntry_stamps.
  - destruct Hc as [Hle Hc].
    destruct (invalidateModule_visited (heap g) md seen timestamp isHmr hmrBoundaries)
      as [Hv _].
    eapply visited_stamps in Hv as [Hg Hs1]; [|exact Hs|exact Hle].
    split; [done|]. exists timestamp. split_and!; [lia|done|done].
  - destruct Hc as [Hle Hc].
    destruct (invalidateAll_walk_visited timestamp (JsMap.values (idToModuleMap g))
                (heap g) []) as [Hv _].
    eapply visited_stamps in Hv as [Hg Hs1]; [|exact Hs|exact Hle].
    split; [done|]. exists timestamp. split_and!; [lia|done|done].
  - destruct Hc as (T' & Hb & Hm & Hc).
    assert (0 ≤ T')%Z by (specialize (Hb 0); lia).
    unfold onFileChange. destruct (getModulesByFile g file0) as [mods|].
    + destruct (onFileChange_walk_stamps now 0 mods T T' (heap g) [] Hb Hm Hs)
        as [Hg Hs1].
      split; [done|]. exists T'. by split_and!.
    + split; [apply heapEvolves_refl, stampsGrow_refl|].
      exists T'. split_and!; [done| |done].
      eapply stampsBelow_mono; [|exact Hs]. specialize (Hb 0). lia.
  - destruct (updateModuleInfo_progresses resolveId g md importedModules0
                importedBindings0 acceptedModules acceptedExports isSelfAccepting0 ssr)
      as (((Hh & _) & _) & _ & Hst).
    split.
    + eapply heapEvolves_weaken; [|exact Hh].
      intros a b [_ Hab]. by apply stampsGrow_of_sameCache.
    + exists T. split_and!; [done|by apply Hst|done].
Qed.

Lemma run_stamps g T es :
  (0 ≤ T)%Z → stampsBelow T (heap g) → clockOk T es →
  heapEvolves stampsGrow (heap g) (heap (run g es)).
Proof.
  revert g T. induction es as [|e es IH]; intros g T HT Hs Hc.
  - apply heapEvolves_refl, stampsGrow_refl.
  - destruct (step_stamps g T e es HT Hs Hc) as (Hg & T' & HT' & Hs' & Hc').
    eapply heapEvolves_trans; [apply stampsGrow_trans|exact Hg|].
    by apply (IH (step g e) T').
Qed.

(** C9, amended. Take any sequence of operations on the graph and cut it
    anywhere. If the timestamps the operations hand to the invalidation
    engine never go back, starting from a bound [T >= 0] on the timestamps
    already stored, then for every node both [lastHMRTimestamp] and
    [lastInvalidationTimestamp] are, after the whole sequence, at least what
    they were at the cut. *)
Theorem timestamps_never_decrease
    (g : ModuleGraph) (T : Z) (es1 es2 : list Event) :
  (0 ≤ T)%Z → stampsBelow T (heap g) → clockOk T (es1 ++ es2) →
  heapEvolves stampsGrow (heap (run g es1)) (heap (run g (es1 ++ es2))).
Proof.
  revert g T. induction es1 as [|e es1 IH]; intros g T HT Hs Hc.
  - by apply (run_stamps g T).
  - destruct (step_stamps g T e (es1 ++ es2) HT Hs Hc) as (_ & T' & HT' & Hs' & Hc').
    by apply (IH (step g e) T').
Qed.

End timestamp_facts.

(** C9, as stated, fails: [invalidateModule] assigns whatever timestamp
    it is given. A node invalidated at 5 and then, by a caller passing an
    older timestamp, at 3 ends with [lastInvalidationTimestamp = 3]. *)
Lemma timestamp_decreases_with_older_argument :
  let g1 := step importedStyleGraph (EvInvalidateModule 0 [] 5 false []) in
  let g2 := step g1 (EvInvalidateModule 0 [] 3 false []) in
  lastInvalidationTimestamp <$> heap g1 !! 0 = Some 5%Z
  ∧ lastInvalidationTimestamp <$> heap g2 !! 0 = Some 3%Z.
Proof. vm_compute. by split. Qed.

(** ** The import graph updater *)














Section update_facts.
Context {U : Imports}.





















End update_facts.



Lemma timestamps_never_decrease_witness :
  let now := λ i : nat, (6 + Z.min (Z.of_nat i) 3)%Z in
  let es1 := [EvInvalidateModule 1 [] 5 false []] in
  let es2 := [EvFileChange "/abs/main.css" now; EvInvalidateAll 20] in
  heapEvolves stampsGrow (heap (run styleGraph es1)) (heap (run styleGraph (es1 ++ es2))).
Proof.
  intros now es1 es2.
  apply (timestamps_never_decrease styleGraph 0 es1 es2).
  - lia.
  - intros n node Hn. destruct n as [|[|n]]; vm_compute in Hn; [| |done];
      injection Hn as <-; cbn; lia.
  - cbn. split; [lia|]. exists 9%Z. unfold now. split_and!; try lia.
Defined.

(** * Further facts *)

(** ** What an invalidation reaches *)

Lemma propagatesTo_trans h a b c :
  propagatesTo h a b → propagatesTo h b c → propagatesTo h a c.
Proof.
  intros Hab Hbc. induction Hbc as [|m x _ IH Hmx]; [done|].
  by eapply propagatesTo_step.
Qed.

Lemma sameReads_refl h : sameReads h h.
Proof. by intros y. Qed.

Lemma sameReads_trans h1 h2 h3 : sameReads h1 h2 → sameReads h2 h3 → sameReads h1 h3.
Proof.
  intros H12 H23 y. destruct (H12 y) as [-> ->]. apply H23.
Qed.

Lemma visited_sameReads isHmr ts h seen h' seen' :
  visited isHmr ts h seen h' seen' → sameReads h' h.
Proof.
  intros (added & _ & _ & _ & Hh) y. unfold importers_of, acceptedHmrDeps_of.
  rewrite Hh. case_decide; [|done]. by destruct (h !! y).
Qed.

Lemma walkImporters_walked isHmr ts rec md todo h0 h seen r :
  (∀ h i s r, sameReads h h0 → rec h i s = Some r →
     visited isHmr ts h s r.1 r.2 ∧ walked h0 [i] s r.2) →
  sameReads h h0 →
  walkImporters rec md todo h seen = Some r →
  visited isHmr ts h seen r.1 r.2
  ∧ walked h0 (filter (λ i, md ∉ acceptedHmrDeps_of h0 i) todo) seen r.2.
Proof.
  intros Hrec. revert h seen.
  induction todo as [|importer todo IH]; intros h seen Hsame.
  - simpl. intros [= <-]. split; [apply visited_refl|]. split_and!.
    + by intros i ?%elem_of_nil.
    + by intros m x ? ?.
    + intros x ?. by left.
  - destruct (decide (md ∈ acceptedHmrDeps_of h0 importer)) as [Hacc|Hacc].
    + rewrite walkImporters_accepting by (by rewrite (proj2 (Hsame importer))).
      rewrite list.filter_cons, decide_False by tauto. by apply IH.
    + rewrite walkImporters_propagating by (by rewrite (proj2 (Hsame importer))).
      rewrite list.filter_cons, decide_True by done.
      destruct (rec h importer seen) as [[h1 seen1]|] eqn:E; [|done].
      destruct (Hrec _ _ _ _ Hsame E) as [Hv1 (Hr1 & Hc1 & Hs1)]. cbn [fst snd] in *.
      intros Hw.
      destruct (IH h1 seen1) as [Hv2 (Hr2 & Hc2 & Hs2)]; [|done|].
      { eapply sameReads_trans; [by eapply visited_sameReads|done]. }
      pose proof (visited_subseteq _ _ _ _ _ _ Hv2) as Hsub.
      split; [by eapply visited_trans|]. split_and!.
      * intros i [->|Hi]%elem_of_cons; [|by apply Hr2].
        apply Hsub, Hr1, list_elem_of_here.
      * intros m x Hm Hms Hmx. destruct (decide (m ∈ seen1)) as [H1|H1].
        -- apply Hsub. by eapply Hc1.
        -- by eapply Hc2.
      * intros x Hx. destruct (Hs2 x Hx) as [Hx1|(i & Hi & Hix)].
        -- destruct (Hs1 x Hx1) as [?|(i & ->%list_elem_of_singleton & Hix)]; [by left|].
           right. exists importer. split; [apply list_elem_of_here|done].
        -- right. exists i. split; [by apply list_elem_of_further|done].
Qed.

(** The walk of [invalidateModule], whatever [seen] it starts from: the
    nodes it adds are nodes the root propagates to, and each of them but a
    root listed in [hmrBoundaries] has all it propagates to in [seen]. *)
Lemma invalidateModule_fuel_walked fuel h0 h md seen ts isHmr bnds r :
  sameReads h h0 →
  invalidateModule_fuel fuel h md seen ts isHmr bnds = Some r →
  md ∈ r.2
  ∧ (∀ m x, m ∈ r.2 → m ∉ seen → (m = md → md ∉ bnds) → propagates h0 m x → x ∈ r.2)
  ∧ (∀ x, x ∈ r.2 → x ∈ seen ∨ propagatesTo h0 md x).
Proof.
  revert h md seen bnds r.
  induction fuel as [|fuel IH]; intros h md seen bnds r Hsame; [done|].
  destruct (decide (md ∈ seen)) as [Hin|Hout].
  { simpl. rewrite (proj2 (has_true md seen) Hin). intros [= <-]. split_and!.
    - done.
    - by intros m x ? ?.
    - intros x ?. by left. }
  rewrite invalidateModule_fuel_S by done.
  assert (md ∈ seen ++ [md]) as Hmd.
  { apply elem_of_app. right. apply list_elem_of_here. }
  destruct (bool_decide (md ∈ bnds)) eqn:Hb.
  { apply bool_decide_eq_true in Hb. intros [= <-]. cbn [fst snd]. split_and!.
    - done.
    - intros m x [?|E%list_elem_of_singleton]%elem_of_app Hms Hbnd; [done|].
      subst m. by destruct Hbnd.
    - intros x [?|E%list_elem_of_singleton]%elem_of_app; [by left|].
      subst x. right. constructor. }
  intros Hw.
  apply (walkImporters_walked isHmr ts) with (h0 := h0) in Hw
    as [Hv (Hr & Hc & Hs)].
  2:{ intros h1 i s r1 Hsame1 Hr1. split.
      - by apply invalidateModule_fuel_visited in Hr1 as [? _].
      - destruct (IH _ _ _ _ _ Hsame1 Hr1) as (Hi & Hc1 & Hs1). split_and!.
        + by intros i' ->%list_elem_of_singleton.
        + intros m x Hm Hms Hmx. eapply Hc1; try done. by intros _ ?%elem_of_nil.
        + intros x Hx. destruct (Hs1 x Hx) as [?|?]; [by left|].
          right. exists i. split; [apply list_elem_of_here|done]. }
  2:{ intros y. rewrite importers_of_invalidated, acceptedHmrDeps_of_invalidated.
      apply Hsame. }
  pose proof (visited_subseteq _ _ _ _ _ _ Hv) as Hsub.
  split_and!.
  - by apply Hsub.
  - intros m x Hm Hms _ Hmx. destruct (decide (m = md)) as [->|Hne].
    + apply Hr. destruct Hmx as [Hx Hacc]. apply list_elem_of_filter. split; [done|].
      by rewrite (proj1 (Hsame md)).
    + eapply Hc; [done| |done].
      intros [?|?%list_elem_of_singleton]%elem_of_app; done.
  - intros x Hx. destruct (Hs x Hx) as [[?|E%list_elem_of_singleton]%elem_of_app
                                        |(i & [Hacc Hi]%list_elem_of_filter & Hix)].
    + by left.
    + subst x. right. constructor.
    + right. eapply propagatesTo_trans; [|exact Hix].
      eapply propagatesTo_step; [constructor|]. split; [|done].
      by rewrite <- (proj1 (Hsame md)).
Qed.

Lemma invalidateModule_walked h0 h md seen ts isHmr :
  sameReads h h0 → walked h0 [md] seen (invalidateModule h md seen ts isHmr []).2.
Proof.
  intros Hsame.
  destruct (invalidateModule_fuel_walked _ h0 h md seen ts isHmr [] _ Hsame
              (invalidateModule_fuel_enough h md seen ts isHmr [])) as (Hi & Hc & Hs).
  split_and!.
  - by intros i ->%list_elem_of_singleton.
  - intros m x Hm Hms Hmx. eapply Hc; try done. by intros _ ?%elem_of_nil.
  - intros x Hx. destruct (Hs x Hx) as [?|?]; [by left|].
    right. exists md. split; [apply list_elem_of_here|done].
Qed.

(** With a [seen] set that already holds all it propagates to, a walk
    leaves [seen] holding exactly what it held and what the roots propagate
    to. *)
Lemma walked_closure h roots seen seen' x :
  walked h roots seen seen' → seen ⊆ seen' →
  (∀ m y, m ∈ seen → propagates h m y → y ∈ seen) →
  x ∈ seen' ↔ x ∈ seen ∨ ∃ i, i ∈ roots ∧ propagatesTo h i x.
Proof.
  intros (Hr & Hc & Hs) Hsub Hclosed. split; [apply Hs|].
  intros [?|(i & Hi & Hix)]; [by apply Hsub|].
  induction Hix as [|m y _ IH Hmy]; [by apply Hr|].
  destruct (decide (m ∈ seen)) as [Hm|Hm].
  - apply Hsub. by eapply Hclosed.
  - by eapply Hc.
Qed.

(** X1. [invalidateModule(mod)] called with its default [seen] and
    [hmrBoundaries] invalidates exactly the nodes an update of [mod]
    propagates to: [mod] itself and, through any number of steps, every
    importer that does not list the node it imports in [acceptedHmrDeps].
    Each of them is invalidated once, importer cycles included, and the
    store changes at these nodes only, by the assignments of
    [invalidated]. *)
Theorem invalidateModule_invalidates_propagation_closure
    (h : Heap) (md : ref) (timestamp : Z) (isHmr : bool) :
  let r := invalidateModule h md [] timestamp isHmr [] in
  NoDup r.2
  ∧ (∀ x, x ∈ r.2 ↔ propagatesTo h md x)
  ∧ (∀ n, r.1 !! n =
          if decide (n ∈ r.2) then invalidated isHmr timestamp <$> h !! n
          else h !! n).
Proof.
  intros r.
  destruct (invalidateModule_visited h md [] timestamp isHmr []) as [Hv _].
  fold r in Hv. split_and!.
  - eapply visited_NoDup; [done|]. apply NoDup_nil_2.
  - intros x. unfold r.
    rewrite (walked_closure h [md] [] _ x
               (invalidateModule_walked h h md [] timestamp isHmr (sameReads_refl h))).
    + split.
      * intros [?%elem_of_nil|(i & E%list_elem_of_singleton & ?)]; [done|by subst i].
      * intros ?. right. exists md. split; [apply list_elem_of_here|done].
    + by intros y ?%elem_of_nil.
    + by intros m y ?%elem_of_nil.
  - destruct Hv as (added & Hs & _ & _ & Hh). simpl in Hs. by rewrite Hs.
Qed.

(** X2. [hmrBoundaries] is looked at for the root of the walk only. A root
    listed in it is invalidated alone (or not at all when [seen] holds it
    already); for a root that is not listed the result is the one of a call
    with no boundaries, so an importer listed in [hmrBoundaries] does not
    stop the walk. *)
Theorem invalidateModule_boundaries_apply_to_root_only
    (h : Heap) (md : ref) (seen : list ref) (timestamp : Z) (isHmr : bool)
    (hmrBoundaries : list ref) :
  invalidateModule h md seen timestamp isHmr hmrBoundaries =
    if decide (md ∈ hmrBoundaries)
    then if decide (md ∈ seen) then (h, seen)
         else (alter (invalidated isHmr timestamp) md h, seen ++ [md])
    else invalidateModule h md seen timestamp isHmr [].
Proof.
  destruct (decide (md ∈ seen)) as [Hin|Hout].
  - assert (∀ bnds, invalidateModule h md seen timestamp isHmr bnds = (h, seen)) as E.
    { intros bnds. apply (invalidateModule_eq 1). simpl.
      by rewrite (proj2 (has_true md seen) Hin). }
    rewrite !E. by case_decide.
  - case_decide as Hb.
    + apply (invalidateModule_eq 1). rewrite invalidateModule_fuel_S by done.
      by rewrite bool_decide_eq_true_2.
    + pose proof (invalidateModule_fuel_enough h md seen timestamp isHmr []) as He.
      apply (invalidateModule_eq (S (length h))).
      rewrite invalidateModule_fuel_S in * by done.
      rewrite bool_decide_eq_false_2 by done.
      rewrite bool_decide_eq_false_2 in He by apply not_elem_of_nil.
      rewrite He. by destruct (invalidateModule h md seen timestamp isHmr []).
Qed.

Lemma walked_cons h0 md mods seen seen1 seen2 :
  walked h0 [md] seen seen1 → walked h0 mods seen1 seen2 → seen1 ⊆ seen2 →
  walked h0 (md :: mods) seen seen2.
Proof.
  intros (Hr1 & Hc1 & Hs1) (Hr2 & Hc2 & Hs2) Hsub. split_and!.
  - intros i [->|Hi]%elem_of_cons; [|by apply Hr2].
    apply Hsub, Hr1, list_elem_of_here.
  - intros m x Hm Hms Hmx. destruct (decide (m ∈ seen1)).
    + apply Hsub. by eapply Hc1.
    + by eapply Hc2.
  - intros x Hx. destruct (Hs2 x Hx) as [Hx1|(i & Hi & Hix)].
    + destruct (Hs1 x Hx1) as [?|(i & E%list_elem_of_singleton & Hix)]; [by left|].
      subst i. right. exists md. split; [apply list_elem_of_here|done].
    + right. exists i. split; [by apply list_elem_of_further|done].
Qed.

(** The loop of [onFileChange]: one walk per module of the file, each with
    its own reading of the clock, all sharing [seen]. A node is invalidated
    by the first walk that reaches it and by no other. *)
Lemma onFileChange_walk_spec now i mods h0 h seen :
  sameReads h h0 →
  let r := onFileChange_walk now i mods h seen in
  walked h0 mods seen r.2
  ∧ ∃ added,
      r.2 = seen ++ added ∧ NoDup added ∧ (∀ x, x ∈ added → x ∉ seen)
      ∧ ∀ n, (n ∈ added →
              ∃ j, i ≤ j < i + length mods
                   ∧ r.1 !! n = invalidated false (now j) <$> h !! n)
             ∧ (n ∉ added → r.1 !! n = h !! n).
Proof.
  revert i h seen. induction mods as [|md mods IH]; intros i h seen Hsame r.
  - split.
    + split_and!; [by intros ? ?%elem_of_nil|by intros ? ? ? ?|by left].
    + exists []. split_and!; [by rewrite app_nil_r|apply NoDup_nil_2
                             |by intros ? ?%elem_of_nil|].
      intros n. split; [by intros ?%elem_of_nil|done].
  - unfold r. cbn [onFileChange_walk].
    destruct (invalidateModule_visited h md seen (now i) false []) as [Hv _].
    pose proof (invalidateModule_walked h0 h md seen (now i) false Hsame) as Hw1.
    destruct (invalidateModule h md seen (now i) false []) as [h1 seen1].
    cbn [fst snd] in Hv, Hw1.
    destruct (IH (S i) h1 seen1) as (Hw2 & added2 & Hs2 & Hnd2 & Hf2 & Hh2).
    { eapply sameReads_trans; [by eapply visited_sameReads|done]. }
    destruct Hv as (added1 & Hs1 & Hnd1 & Hf1 & Hh1).
    split.
    + eapply walked_cons; [done|done|]. rewrite Hs2. intros x ?. apply elem_of_app. by left.
    + exists (added1 ++ added2). split_and!.
      * by rewrite Hs2, Hs1, app_assoc.
      * apply list.NoDup_app. split_and!; [done| |done].
        intros x Hx1 Hx2. apply (Hf2 x Hx2). rewrite Hs1, elem_of_app. by right.
      * intros x [Hx|Hx]%elem_of_app; [by apply Hf1|].
        intros Hx'. apply (Hf2 x Hx). rewrite Hs1, elem_of_app. by left.
      * intros n. destruct (Hh2 n) as [Hin2 Hout2]. specialize (Hh1 n). split.
        -- intros [Hn|Hn]%elem_of_app.
           ++ exists i. split; [cbn [length]; lia|]. rewrite Hout2.
              ** by rewrite Hh1, decide_True.
              ** intros Hn2. apply (Hf2 n Hn2). rewrite Hs1, elem_of_app. by right.
           ++ destruct (Hin2 Hn) as (j & Hj & ->). exists j.
              split; [cbn [length]; lia|]. rewrite Hh1, decide_False; [done|].
              intros Hn1. apply (Hf2 n Hn). rewrite Hs1, elem_of_app. by right.
        -- intros Hn. rewrite elem_of_app in Hn. rewrite Hout2 by tauto.
           rewrite Hh1, decide_False; [done|tauto].
Qed.

(** X3. [onFileChange(file)] changes no index and no pending cache. For a
    file the file index does not know it changes nothing at all. Otherwise
    it invalidates exactly the nodes to which an update of a module of the
    file propagates, each once, with [isHmr] false and the clock reading of
    one of the walks: the four artifacts are cleared,
    [lastInvalidationTimestamp] is set and [lastHMRTimestamp] is kept;
    every other node is left as it was. *)
Theorem onFileChange_invalidates_modules_of_file
    (g : ModuleGraph) (file : string) (now : nat → Z) :
  let g' := onFileChange g file now in
  (urlToModuleMap g' = urlToModuleMap g ∧ idToModuleMap g' = idToModuleMap g
   ∧ fileToModulesMap g' = fileToModulesMap g
   ∧ _unresolvedUrlToModuleMap g' = _unresolvedUrlToModuleMap g
   ∧ _ssrUnresolvedUrlToModuleMap g' = _ssrUnresolvedUrlToModuleMap g)
  ∧ match getModulesByFile g file with
    | None => g' = g
    | Some mods =>
        ∀ n,
          ((∃ m, m ∈ mods ∧ propagatesTo (heap g) m n) →
             ∃ i, i < length mods
                  ∧ heap g' !! n = invalidated false (now i) <$> heap g !! n)
          ∧ (¬ (∃ m, m ∈ mods ∧ propagatesTo (heap g) m n) →
             heap g' !! n = heap g !! n)
    end.
Proof.
  intros g'. unfold g', onFileChange.
  destruct (getModulesByFile g file) as [mods|]; [|done].
  split; [done|]. cbn [heap with_heap].
  destruct (onFileChange_walk_spec now 0 mods (heap g) (heap g) [] (sameReads_refl _))
    as (Hw & added & Hs & _ & _ & Hh).
  simpl in Hs.
  assert (∀ n, n ∈ added ↔ ∃ m, m ∈ mods ∧ propagatesTo (heap g) m n) as Hadded.
  { intros n. rewrite <- Hs.
    rewrite (walked_closure (heap g) mods [] _ n Hw).
    - split; [by intros [?%elem_of_nil|?]|by right].
    - by intros y ?%elem_of_nil.
    - by intros m y ?%elem_of_nil. }
  intros n. destruct (Hh n) as [Hin Hout]. split.
  - intros Hn%Hadded. destruct (Hin Hn) as (j & Hj & ?). exists j. split; [lia|done].
  - intros Hn. apply Hout. by rewrite Hadded.
Qed.

(** ** Lookups and registrations *)

Lemma add_fold_NoDup {A} `{EqDecision A} (l s : list A) :
  NoDup s → NoDup (foldl (λ s x, JsSet.add x s) s l).
Proof.
  revert s. induction l as [|a l IH]; intros s Hs; simpl; [done|].
  by apply IH, add_NoDup.
Qed.

Lemma add_fold_prefix {A} `{EqDecision A} (l s : list A) :
  ∃ s', foldl (λ s x, JsSet.add x s) s l = s ++ s'.
Proof.
  revert s. induction l as [|a l IH]; intros s; simpl.
  - exists []. by rewrite app_nil_r.
  - destruct (IH (JsSet.add a s)) as [s' ->].
    destruct (decide (a ∈ s)).
    + rewrite add_present by done. eauto.
    + rewrite add_fresh by done. exists ([a] ++ s'). by rewrite app_assoc.
Qed.

(** X4. The getter [importedModules] of a node returns the union of its
    client and ssr edge sets: a node is in it exactly when it is in one of
    the two, the client edges come first, in their order, and the result
    has no duplicates when the client set has none. *)
Theorem importedModules_is_union (node : ModuleNode) :
  (∀ n, n ∈ importedModules node ↔
        n ∈ clientImportedModules node ∨ n ∈ ssrImportedModules node)
  ∧ (∃ more, importedModules node = clientImportedModules node ++ more)
  ∧ (NoDup (clientImportedModules node) → NoDup (importedModules node)).
Proof.
  unfold importedModules. split_and!.
  - intros n. by rewrite elem_of_add_fold.
  - apply add_fold_prefix.
  - apply add_fold_NoDup.
Qed.

Section registration_facts.
Context {U : Imports}.

(** *** The pending caches *)

(** X5. [_ensureEntryFromUrl(rawUrl, ssr)] leaves the handle it returns in
    the pending cache of its own mode, under the url stripped of its
    timestamp and import markers, and writes no other entry: the cache of
    the other mode and the other keys of its own cache are as before. *)
Theorem ensureEntry_writes_cache_of_its_mode_only
    (g : ModuleGraph) (rawUrl : string) (ssr sa : bool)
    (resolved : option PartialResolvedId) (u' : string) :
  let r := _ensureEntryFromUrl g rawUrl ssr sa resolved in
  _getUnresolvedUrlToModule r.1 (stripMarkers rawUrl) ssr = Some r.2
  ∧ _getUnresolvedUrlToModule r.1 u' (negb ssr) = _getUnresolvedUrlToModule g u' (negb ssr)
  ∧ (u' ≠ stripMarkers rawUrl →
     _getUnresolvedUrlToModule r.1 u' ssr = _getUnresolvedUrlToModule g u' ssr).
Proof.
  intros r. unfold r.
  destruct (_getUnresolvedUrlToModule g (stripMarkers rawUrl) ssr) as [hd|] eqn:Hc.
  { by rewrite (ensureEntry_hit _ _ _ _ _ _ Hc). }
  destruct (ensureEntry_miss g rawUrl ssr sa resolved Hc)
    as (g' & -> & _ & _ & _ & _ & _ & _ & Hget & _). cbn [fst snd].
  rewrite !Hget. split_and!.
  - by rewrite decide_True.
  - rewrite decide_False; [done|]. intros [_ E]. by destruct ssr.
  - intros Hne. rewrite decide_False; [done|]. by intros [E _].
Qed.

(** *** Lookups after a resolution *)

(** X6. Once the [modPromise] of a url has been fulfilled with a node,
    [getModuleByUrl] returns that node for the url, with or without its
    timestamp and import markers, after any further operations on the
    graph and whatever the resolver would answer; a further
    [ensureEntryFromUrl] for it does not call the resolver again. The
    graph is one where every [modPromise] is filed under its url
    ([promisesFiled]), which every operation keeps. *)
Theorem getModuleByUrl_finds_fulfilled_entry
    (g : ModuleGraph) (p : nat) (task : EnsureTask) (n : ref) (rawUrl : string)
    (es : list Event) (outcome : ResolveOutcome) :
  promisesFiled g →
  promises g !! p = Some (task, Fulfilled n) →
  stripMarkers rawUrl = task_rawUrl task →
  getModuleByUrl (run g es) rawUrl (task_ssr task) outcome = Fulfilled (Some n)
  ∧ callsFor (task_rawUrl task) (task_ssr task)
      (_ensureEntryFromUrl (run g es) rawUrl (task_ssr task) true None).1
    = callsFor (task_rawUrl task) (task_ssr task) (run g es).
Proof.
  intros Hj Hp Hu.
  pose proof (run_promisesFiled g es Hj) as Hj'.
  destruct (run_advances g es) as ((_ & _ & Hpe) & _ & _).
  destruct (Hpe _ _ _ Hp) as (st' & Hp' & [[=]| ->]).
  unfold getModuleByUrl. rewrite Hu.
  destruct (Hj' _ _ _ Hp') as [Hc|(n' & [= <-] & Hc)].
  - split.
    + rewrite Hc. simpl. by rewrite Hp'.
    + rewrite <- Hu in Hc. by rewrite (ensureEntry_hit _ _ _ _ _ _ Hc).
  - split.
    + by rewrite Hc.
    + rewrite <- Hu in Hc. by rewrite (ensureEntry_hit _ _ _ _ _ _ Hc).
Qed.

(** *** Registrations are permanent *)

Lemma filesGrow_refl g : filesGrow g g.
Proof. intros f s Hs. exists []. by rewrite app_nil_r. Qed.

Lemma filesGrow_trans g1 g2 g3 : filesGrow g1 g2 → filesGrow g2 g3 → filesGrow g1 g3.
Proof.
  intros H12 H23 f s Hs. destruct (H12 f s Hs) as (s1 & Hs1).
  destruct (H23 f _ Hs1) as (s2 & Hs2). exists (s1 ++ s2). by rewrite app_assoc.
Qed.

Lemma filesGrow_same g g' : fileToModulesMap g' = fileToModulesMap g → filesGrow g g'.
Proof.
  intros E f s Hs. exists []. unfold getModulesByFile in *. by rewrite E, app_nil_r.
Qed.

Lemma filesGrow_register g g' f md :
  fileToModulesMap g' =
    JsMap.set f (JsSet.add md (default [] (JsMap.get f (fileToModulesMap g))))
      (fileToModulesMap g) →
  filesGrow g g'.
Proof.
  intros E f' s Hs. unfold getModulesByFile in *. rewrite E, get_set.
  case_decide as Hf; [subst f'|exists []; by rewrite app_nil_r].
  rewrite Hs. simpl. destruct (decide (md ∈ s)).
  - rewrite add_present by done. exists []. by rewrite app_nil_r.
  - rewrite add_fresh by done. eauto.
Qed.

Lemma ensureEntry_filesGrow g rawUrl ssr sa resolved :
  filesGrow g (_ensureEntryFromUrl g rawUrl ssr sa resolved).1.
Proof.
  destruct (_getUnresolvedUrlToModule g (stripMarkers rawUrl) ssr) as [hd|] eqn:Hc.
  { rewrite (ensureEntry_hit _ _ _ _ _ _ Hc). apply filesGrow_refl. }
  destruct (ensureEntry_miss g rawUrl ssr sa resolved Hc)
    as (g' & -> & _ & _ & _ & Hf & _). by apply filesGrow_same.
Qed.

Lemma materialize_filesGrow g task res : filesGrow g (materialize g task res).1.
Proof.
  destruct res as [[url' rid] meta'].
  destruct (JsMap.get rid (idToModuleMap g)) as [n|] eqn:Hid.
  - destruct (materialize_existing g task url' rid meta' n Hid)
      as (g' & -> & _ & _ & Hf & _). by apply filesGrow_same.
  - destruct (materialize_fresh g task url' rid meta' Hid)
      as (g' & node & -> & _ & _ & _ & _ & _ & _ & _ & _ & _ & _ & Hf & _).
    by eapply filesGrow_register.
Qed.

Lemma resumeEnsureEntry_filesGrow g p outcome :
  filesGrow g (resumeEnsureEntry g p outcome).
Proof.
  destruct (resumeEnsureEntry_cases g p outcome)
    as [(task & res & _ & _ & ->)|[(task & _ & _ & ->)|[_ ->]]].
  - eapply filesGrow_trans; [apply (materialize_filesGrow g task res)|].
    by apply filesGrow_same.
  - by apply filesGrow_same.
  - apply filesGrow_refl.
Qed.

Lemma createFileOnlyEntry_filesGrow g path :
  filesGrow g (createFileOnlyEntry g path).1.
Proof.
  unfold createFileOnlyEntry.
  destruct (JsMap.get (normalizePath path) (fileToModulesMap g)) as [s|] eqn:Hf.
  - destruct (List.find _ s); [apply filesGrow_refl|].
    cbn [fst]. eapply filesGrow_register. cbn. by rewrite Hf.
  - cbn. intros f s Hs. unfold getModulesByFile in *. cbn.
    rewrite !get_set. case_decide as E; [congruence|].
    exists []. by rewrite app_nil_r.
Qed.

Lemma startResolving_filesGrow link md ssr entries index g results waits :
  filesGrow g (startResolving link md ssr entries index g results waits).1.1.
Proof.
  revert index g results waits.
  induction entries as [|[u|n] entries IH]; intros index g results waits;
    cbn [startResolving].
  - apply filesGrow_refl.
  - pose proof (ensureEntry_filesGrow g u ssr true None) as H1.
    fold (ensureEntryFromUrl g u ssr true) in H1.
    destruct (ensureEntryFromUrl g u ssr true) as [g1 hd].
    eapply filesGrow_trans; [exact H1|apply IH].
  - eapply filesGrow_trans; [|apply IH]. apply filesGrow_same. by destruct link.
Qed.

Lemma awaitHandle_filesGrow resolveId g hd :
  filesGrow g (awaitHandle resolveId g hd).1.
Proof.
  unfold awaitHandle. cbn [fst]. destruct hd as [n|p]; [apply filesGrow_refl|].
  destruct (promises g !! p) as [[task [| |]]|]; try apply filesGrow_refl.
  apply resumeEnsureEntry_filesGrow.
Qed.

Lemma finishResolving_filesGrow link resolveId md waits g results :
  filesGrow g (finishResolving link resolveId md waits g results).1.
Proof.
  revert g results.
  induction waits as [|[index hd] waits IH]; intros g results; cbn [finishResolving].
  - apply filesGrow_refl.
  - pose proof (awaitHandle_filesGrow resolveId g hd) as H1.
    destruct (awaitHandle resolveId g hd) as [g1 [dep|]]; cbn [fst] in *; [|done].
    eapply filesGrow_trans; [exact H1|].
    eapply filesGrow_trans; [|apply IH]. apply filesGrow_same. by destruct link.
Qed.

Lemma updateModuleInfo_filesGrow resolveId g md im ib am ae sa ssr :
  filesGrow g (updateModuleInfo resolveId g md im ib am ae sa ssr).1.
Proof.
  unfold updateModuleInfo.
  set (g0 := with_heap (alter (set_isSelfAccepting (Some sa)) md (heap g)) g).
  assert (filesGrow g g0) as H0 by (by apply filesGrow_same).
  eapply filesGrow_trans; [exact H0|]. clearbody g0. clear H0.
  pose proof (startResolving_filesGrow true md ssr im 0 g0
                (replicate (length im) None) []) as H1.
  destruct (startResolving true md ssr im 0 g0 _ []) as [[g1 results1] waits1].
  cbn [fst] in H1.
  eapply filesGrow_trans; [exact H1|]. clear H1.
  pose proof (finishResolving_filesGrow true resolveId md waits1 g1 results1) as H2.
  destruct (finishResolving true resolveId md waits1 g1 results1) as [g2 [results2|]];
    cbn [fst] in *; [|exact H2].
  eapply filesGrow_trans; [exact H2|]. clear H2.
  set (g3 := with_heap (alter _ md (heap g2)) g2).
  assert (filesGrow g2 g3) as H3 by (by apply filesGrow_same).
  eapply filesGrow_trans; [exact H3|]. clearbody g3. clear H3.
  destruct (pruneImporters md _ (heap g3) None) as [h4 orphans].
  assert (filesGrow g3 (with_heap h4 g3)) as H4 by (by apply filesGrow_same).
  eapply filesGrow_trans; [exact H4|]. clear H4.
  pose proof (startResolving_filesGrow false md ssr am 0 (with_heap h4 g3)
                (replicate (length am) None) []) as H5.
  destruct (startResolving false md ssr am 0 (with_heap h4 g3) _ [])
    as [[g5 results5] waits5].
  cbn [fst] in H5.
  eapply filesGrow_trans; [exact H5|]. clear H5.
  pose proof (finishResolving_filesGrow false resolveId md waits5 g5 results5) as H6.
  destruct (finishResolving false resolveId md waits5 g5 results5) as [g6 [results6|]];
    cbn [fst] in *; [|exact H6].
  eapply filesGrow_trans; [exact H6|]. by apply filesGrow_same.
Qed.

Lemma step_filesGrow g e : filesGrow g (step g e).
Proof.
  destruct e as [| | | | |path now|]; simpl.
  - apply ensureEntry_filesGrow.
  - apply resumeEnsureEntry_filesGrow.
  - apply createFileOnlyEntry_filesGrow.
  - by apply filesGrow_same.
  - by apply filesGrow_same.
  - unfold onFileChange. destruct (getModulesByFile g path);
      [by apply filesGrow_same|apply filesGrow_refl].
  - apply updateModuleInfo_filesGrow.
Qed.

Lemma run_filesGrow g es : filesGrow g (run g es).
Proof.
  revert g. induction es as [|e es IH]; intros g; simpl.
  - apply filesGrow_refl.
  - eapply filesGrow_trans; [apply step_filesGrow|apply IH].
Qed.

(** X7. No operation of the graph unregisters a module. After any sequence
    of operations [getModuleById] still returns the node it returned for an
    id, [getModulesByFile] still lists the modules it listed for a file, in
    the same order with new ones after them, and every node is still there
    with the url, id, file and type it had. *)
Theorem registrations_are_permanent (g : ModuleGraph) (es : list Event) :
  (∀ i n, getModuleById g i = Some n → getModuleById (run g es) i = Some n)
  ∧ (∀ f s, getModulesByFile g f = Some s →
       ∃ s', getModulesByFile (run g es) f = Some (s ++ s'))
  ∧ (∀ n node, heap g !! n = Some node →
       ∃ node', heap (run g es) !! n = Some node'
                ∧ url node' = url node ∧ id node' = id node ∧ file node' = file node
                ∧ type node' = type node).
Proof.
  destruct (run_advances g es) as ((Hh & Hi & _) & _ & _). split_and!.
  - intros i n. apply Hi.
  - apply run_filesGrow.
  - intros n node Hn. destruct (Hh n node Hn) as (node' & Hn' & Hu & Hid & Hf & Ht & _).
    exists node'. by split_and!.
Qed.

(** *** A resolution the caller already has *)

(** X8. [_ensureEntryFromUrl] called with an already resolved id for a url
    that has no cache entry does not call the resolver, and its
    [modPromise] cannot be rejected: however the resolver would have
    answered, the promise is fulfilled with the node registered under the
    resolved id, and the graph is the same. *)
Theorem ensureEntry_with_resolved_id_skips_resolver
    (g : ModuleGraph) (rawUrl : string) (ssr sa : bool) (r : PartialResolvedId)
    (outcome : ResolveOutcome) :
  _getUnresolvedUrlToModule g (stripMarkers rawUrl) ssr = None →
  let g1 := (_ensureEntryFromUrl g rawUrl ssr sa (Some r)).1 in
  let p := length (promises g) in
  let g2 := resumeEnsureEntry g1 p outcome in
  (_ensureEntryFromUrl g rawUrl ssr sa (Some r)).2 = HPromise p
  ∧ resolveIdCalls g2 = resolveIdCalls g
  ∧ g2 = resumeEnsureEntry g1 p Rejects
  ∧ ∃ n, handleState g2 (HPromise p) = Fulfilled n
         ∧ JsMap.get (_resolveUrl_resume (stripMarkers rawUrl) (Some r)).1.2
             (idToModuleMap g2) = Some n.
Proof.
  intros Hmiss g1 p g2.
  destruct (ensureEntry_miss g rawUrl ssr sa (Some r) Hmiss)
    as (g' & Hg' & _ & _ & _ & _ & Hp & Hcalls & _).
  unfold g2, g1. rewrite Hg'. cbn [fst snd].
  assert (promises g' !! p
          = Some (mkEnsureTask (stripMarkers rawUrl) ssr sa (Some r), Pending)) as Hp1.
  { rewrite Hp. unfold p. rewrite lookup_app_r by lia. by rewrite Nat.sub_diag. }
  set (res := _resolveUrl_resume (stripMarkers rawUrl) (Some r)).
  assert (∀ o, resumeEnsureEntry g' p o =
               settlePromise (materialize g' (mkEnsureTask (stripMarkers rawUrl) ssr sa (Some r))
                                res).1 p
                 (Fulfilled (materialize g' (mkEnsureTask (stripMarkers rawUrl) ssr sa (Some r))
                               res).2)) as Hres.
  { intros o. by apply resumeEnsureEntry_fulfills with (outcome := o). }
  split_and!; [done| |by rewrite !Hres|].
  - rewrite Hres.
    destruct (materialize_advances eq g' (mkEnsureTask (stripMarkers rawUrl) ssr sa (Some r))
                res) as (_ & _ & _ & Hc & _); [done|].
    change (resolveIdCalls (settlePromise ?g _ _)) with (resolveIdCalls g).
    by rewrite Hc, Hcalls.
  - rewrite Hres. eexists. split.
    + by apply handleState_settled
        with (task := mkEnsureTask (stripMarkers rawUrl) ssr sa (Some r));
        destruct (materialize_advances eq g'
                    (mkEnsureTask (stripMarkers rawUrl) ssr sa (Some r)) res)
          as (_ & _ & -> & _); [done|].
    + change (idToModuleMap (settlePromise ?g _ _)) with (idToModuleMap g).
      fold res. destruct res as [[url' rid] meta']. apply materialize_binds_id.
Qed.

End registration_facts.

Lemma importedStyleGraph_promisesFiled : promisesFiled importedStyleGraph.
Proof. apply run_promisesFiled, emptyGraph_promisesFiled. Qed.

Lemma getModuleByUrl_finds_fulfilled_entry_witness :
  getModuleByUrl
    (run importedStyleGraph [EvInvalidateAll 3; EvCreateFileOnlyEntry "/abs/x.css"])
    "/src/a.css?t=1700000000000" false Rejects
  = Fulfilled (Some 0).
Proof.
  apply (getModuleByUrl_finds_fulfilled_entry importedStyleGraph 0
           (mkEnsureTask "/src/a.css" false true None) 0 "/src/a.css?t=1700000000000"
           [EvInvalidateAll 3; EvCreateFileOnlyEntry "/abs/x.css"] Rejects
           importedStyleGraph_promisesFiled);
    vm_compute; reflexivity.
Defined.

Lemma ensureEntry_with_resolved_id_witness :
  let r := mkResolved "/abs/src/main.ts" None in
  let g1 := (_ensureEntryFromUrl emptyGraph "/src/main.ts" false true (Some r)).1 in
  let g2 := resumeEnsureEntry g1 0 Rejects in
  resolveIdCalls g2 = [] ∧ ∃ n, handleState g2 (HPromise 0) = Fulfilled n.
Proof.
  intros r g1 g2.
  destruct (ensureEntry_with_resolved_id_skips_resolver emptyGraph "/src/main.ts" false true
              r Rejects eq_refl) as (_ & Hcalls & _ & n & Hn & _).
  split; [exact Hcalls|]. exists n. exact Hn.
Defined.

(** ** File-only entries, once more *)

Lemma find_first {A} (f : A → bool) (l : list A) (a : A) :
  a ∈ l → f a = true → (∀ x, x ∈ l → f x = true → x = a) → List.find f l = Some a.
Proof.
  induction l as [|b l IH]; intros Hin Ha Huniq; [by apply elem_of_nil in Hin|].
  simpl. destruct (f b) eqn:Hb.
  - f_equal. apply Huniq; [apply list_elem_of_here|done].
  - apply IH; [|done|].
    + apply elem_of_cons in Hin as [->|?]; [congruence|done].
    + intros x Hx. apply Huniq. by apply list_elem_of_further.
Qed.

Section file_entry_facts.
Context {U : Imports}.

(** X9. [createFileOnlyEntry] is idempotent: a second call for the same
    file returns the node of the first call and changes nothing. *)
Theorem createFileOnlyEntry_is_idempotent (g : ModuleGraph) (path : string) :
  createFileOnlyEntry (createFileOnlyEntry g path).1 path = createFileOnlyEntry g path.
Proof.
  unfold createFileOnlyEntry at 2 3.
  set (f := normalizePath path). set (url' := FS_PREFIX +:+ f).
  assert (∀ g0 s,
    List.find (fileEntryMatches g0 url' f) s = None →
    JsMap.get f (fileToModulesMap g0) = Some s →
    let node := set_file (Some f) (newModuleNode url' true) in
    let g1 := with_heap (heap g0 ++ [node])
                (with_fileToModulesMap
                   (JsMap.set f (JsSet.add (length (heap g0)) s) (fileToModulesMap g0)) g0) in
    createFileOnlyEntry g1 path = (g1, length (heap g0))) as Hfresh.
  { intros g0 s Hfind Hs node g1. unfold createFileOnlyEntry. fold f url'.
    assert (JsMap.get f (fileToModulesMap g1) = Some (JsSet.add (length (heap g0)) s)) as ->
      by apply get_set_eq.
    rewrite (find_first _ _ (length (heap g0))); [done| | |]; subst g1.
    - apply elem_of_add. by left.
    - unfold fileEntryMatches. cbn [heap with_heap].
      rewrite lookup_app_r, Nat.sub_diag by lia. simpl.
      by rewrite bool_decide_eq_true_2.
    - intros x [->|Hx]%elem_of_add; [done|]. unfold fileEntryMatches. cbn [heap with_heap].
      intros Hm. destruct (decide (x < length (heap g0))) as [Hlt|Hge].
      + rewrite lookup_app_l in Hm by done.
        apply list_elem_of_In in Hx.
        pose proof (List.find_none _ _ Hfind x Hx) as Hno.
        unfold fileEntryMatches in Hno. congruence.
      + destruct (decide (x = length (heap g0))) as [->|Hne]; [done|].
        rewrite lookup_ge_None_2 in Hm; [done|]. rewrite length_app. simpl. lia. }
  destruct (JsMap.get f (fileToModulesMap g)) as [s|] eqn:Hf.
  - destruct (List.find (fileEntryMatches g url' f) s) as [m|] eqn:Hfind.
    + cbn [fst]. unfold createFileOnlyEntry. fold f url'. by rewrite Hf, Hfind.
    + cbn [fst]. exact (Hfresh g s Hfind Hf).
  - cbn [List.find fst].
    set (g0 := with_fileToModulesMap (JsMap.set f [] (fileToModulesMap g)) g).
    exact (Hfresh g0 [] eq_refl (get_set_eq f [] (fileToModulesMap g))).
Qed.

Lemma createFileOnlyEntry_listed g path :
  ∃ s node,
    getModulesByFile (createFileOnlyEntry g path).1 (normalizePath path) = Some s
    ∧ (createFileOnlyEntry g path).2 ∈ s
    ∧ heap (createFileOnlyEntry g path).1 !! (createFileOnlyEntry g path).2 = Some node.
Proof.
  destruct (createFileOnlyEntry_cases g path)
    as [(s & m & Hs & Hm & Hmatch & ->)
       |(g' & node & -> & Hh & _ & _ & _ & _ & _ & _ & _ & _ & _ & _ & _ & _
         & (s & Hs & Hin))]; cbn [fst snd].
  - unfold fileEntryMatches in Hmatch.
    destruct (heap g !! m) as [node|] eqn:Hnode; [|done]. by exists s, node.
  - exists s, node. split_and!; [done|done|].
    rewrite Hh, lookup_app_r by lia. by rewrite Nat.sub_diag.
Qed.

(** X10. The node [createFileOnlyEntry(file)] returns is invalidated by
    [onFileChange] of the normalized file: its artifacts are cleared and
    its [lastInvalidationTimestamp] is a reading of the clock. *)
Theorem onFileChange_invalidates_file_only_entry
    (g : ModuleGraph) (path : string) (now : nat → Z) :
  let g1 := (createFileOnlyEntry g path).1 in
  let n := (createFileOnlyEntry g path).2 in
  ∃ node i,
    heap g1 !! n = Some node
    ∧ heap (onFileChange g1 (normalizePath path) now) !! n
      = Some (invalidated false (now i) node).
Proof.
  intros g1 n. destruct (createFileOnlyEntry_listed g path) as (s & node & Hs & Hin & Hn).
  fold g1 n in Hs, Hin, Hn. unfold onFileChange. rewrite Hs. cbn [heap with_heap].
  destruct (onFileChange_walk_spec now 0 s (heap g1) (heap g1) [] (sameReads_refl _))
    as ((Hroots & _) & added & Hadd & _ & _ & Hh).
  simpl in Hadd. destruct (Hh n) as [Hhit _].
  destruct Hhit as (i & _ & Hi); [rewrite <- Hadd; by apply Hroots|].
  exists node, i. split; [done|]. by rewrite Hi, Hn.
Qed.

End file_entry_facts.

(** ** The import graph updater, once more *)



Lemma sameRegistry_refl g : sameRegistry g g.
Proof. by repeat split. Qed.

Lemma sameRegistry_trans g1 g2 g3 :
  sameRegistry g1 g2 → sameRegistry g2 g3 → sameRegistry g1 g3.
Proof.
  intros (? & ? & ? & ? & ? & ? & ? & ?) (? & ? & ? & ? & ? & ? & ? & ?).
  split_and!; congruence.
Qed.

Lemma sameRegistry_with_heap g h :
  length h = length (heap g) → sameRegistry g (with_heap h g).
Proof. intros Hlen. by repeat split. Qed.

Section update_more_facts.
Context {U : Imports}.









Lemma startResolving_nodes link md ssr ns index g results waits :
  (startResolving link md ssr (ENode <$> ns) index g results waits).2 = waits
  ∧ sameRegistry g (startResolving link md ssr (ENode <$> ns) index g results waits).1.1.
Proof.
  revert index g results. induction ns as [|n ns IH]; intros index g results;
    cbn [fmap list_fmap startResolving snd fst].
  - split; [done|apply sameRegistry_refl].
  - destruct (IH (S index) (if link then with_heap (addImporter md n (heap g)) g else g)
                (<[index := Some n]> results)) as [Hw Hr].
    split; [done|]. eapply sameRegistry_trans; [|exact Hr].
    destruct link; [|apply sameRegistry_refl].
    apply sameRegistry_with_heap, length_alter.
Qed.

(** X12. With node entries only (no url to resolve), [updateModuleInfo]
    never suspends on the resolver: it completes, the resolver is not
    called, no promise and no node is created, and the indexes and pending
    caches are unchanged. *)
Theorem updateModuleInfo_with_node_entries_is_synchronous
    (resolveId : string → bool → ResolveOutcome) (g : ModuleGraph) (md : ref)
    (importedNodes : list ref) (bindings : option (list (string * list string)))
    (acceptedNodes : list ref) (acceptedExports : option (list string))
    (selfAccepting ssr : bool) :
  let r := updateModuleInfo resolveId g md (ENode <$> importedNodes) bindings
             (ENode <$> acceptedNodes) acceptedExports selfAccepting ssr in
  (∃ noLongerImported, r.2 = Completed noLongerImported) ∧ sameRegistry g r.1.
Proof.
  intros r. unfold r, updateModuleInfo.
  set (g0 := with_heap (alter (set_isSelfAccepting (Some selfAccepting)) md (heap g)) g).
  assert (sameRegistry g g0) as H0 by apply sameRegistry_with_heap, length_alter.
  clearbody g0.
  destruct (startResolving_nodes true md ssr importedNodes 0 g0
              (replicate (length (ENode <$> importedNodes)) None) []) as [Hw1 H1].
  destruct (startResolving true md ssr (ENode <$> importedNodes) 0 g0 _ [])
    as [[g1 results1] waits1]. cbn [fst snd] in Hw1, H1. subst waits1.
  cbn [finishResolving]. cbn beta iota zeta. cbn [heap with_heap].
  set (h3 := alter _ md (heap g1)).
  pose proof (pruneImporters_length md
    (if ssr then ssrImportedModules_of (heap g0) md
     else clientImportedModules_of (heap g0) md) h3 None) as H4.
  destruct (pruneImporters md _ h3 None) as [h4 orphans]. cbn [fst] in H4.
  set (g4 := with_heap h4 (with_heap h3 g1)).
  assert (sameRegistry g1 g4) as H14.
  { apply (sameRegistry_with_heap g1 h4). rewrite H4. apply length_alter. }
  clearbody g4.
  destruct (startResolving_nodes false md ssr acceptedNodes 0 g4
              (replicate (length (ENode <$> acceptedNodes)) None) []) as [Hw5 H5].
  destruct (startResolving false md ssr (ENode <$> acceptedNodes) 0 g4 _ [])
    as [[g5 results5] waits5]. cbn [fst snd] in Hw5, H5. subst waits5.
  cbn [finishResolving fst snd]. split; [by eexists|].
  eapply sameRegistry_trans; [exact H0|]. eapply sameRegistry_trans; [exact H1|].
  eapply sameRegistry_trans; [exact H14|]. eapply sameRegistry_trans; [exact H5|].
  apply sameRegistry_with_heap, length_alter.
Qed.





End update_more_facts.



(** ** Option objects *)

Lemma get_snoc {V} k k' (v : V) m :
  JsMap.get k (m ++ [(k', v)]) =
    match JsMap.get k m with
    | Some x => Some x
    | None => if decide (k' = k) then Some v else None
    end.
Proof.
  induction m as [|[k0 v0] m IH]; simpl; [done|].
  destruct (decide (k0 = k)); [done|apply IH].
Qed.

Lemma get_assign k o kvs :
  JsMap.get k (Js.assign o kvs) =
    match JsMap.get k (reverse kvs) with
    | Some v => Some v
    | None => JsMap.get k o
    end.
Proof.
  unfold Js.assign. revert o. induction kvs as [|[k1 v1] kvs IH]; intros o; simpl; [done|].
  rewrite IH, reverse_cons, get_snoc, get_set.
  destruct (JsMap.get k (reverse kvs)); [done|]. simpl. by case_decide.
Qed.

Lemma get_reverse_unique {V} k (m : list (string * V)) :
  NoDup m.*1 → JsMap.get k (reverse m) = JsMap.get k m.
Proof.
  induction m as [|[k1 v1] m IH]; [done|]. cbn [fmap list_fmap fst].
  intros [Hk Hm]%list.NoDup_cons. rewrite reverse_cons, get_snoc, IH by done. simpl.
  case_decide as E; [subst k1|by destruct (JsMap.get k m)].
  by rewrite (proj2 (get_None_keys k m) Hk).
Qed.

Lemma get_spread k acc v :
  NoDup (Esbuild.ownProps v).*1 →
  JsMap.get k (Js.spread acc v) =
    match JsMap.get k (Esbuild.ownProps v) with
    | Some x => Some x
    | None => JsMap.get k acc
    end.
Proof.
  intros Hv. destruct v; try done. simpl in *.
  change (foldl _ acc props) with (Js.assign acc props).
  by rewrite get_assign, get_reverse_unique.
Qed.

Lemma ownProps_or_empty v :
  Esbuild.ownProps (Js.or v (Js.object [])) = Esbuild.ownProps v.
Proof.
  unfold Js.or. destruct v as [| |b|n|s|items|props]; simpl; try done.
  - by destruct b.
  - by destruct (negb _).
  - by destruct (JsString.truthy s).
Qed.

(** ** [resolveEsbuildTranspileOptions] *)

Lemma prop_ownProps v k :
  Js.prop v k = default Js.undefined (JsMap.get k (Esbuild.ownProps v)).
Proof. by destruct v. Qed.

Ltac listed := unfold Esbuild.minifyKeys, Esbuild.assignedKeys; by repeat constructor.

Ltac not_listed :=
  let Hin := fresh in
  intros Hin;
  repeat (apply elem_of_cons in Hin as [?|Hin]; [done|]);
  by apply elem_of_nil in Hin.

(** What [options] holds: the build's target, the mapped format, the
    [supported] table, and under any other key what the user's esbuild
    options hold, with [charset] defaulting to utf8. *)
Lemma optionsObject_reads config format :
  JsMap.get "target" (Esbuild.optionsObject config format)
    = Some (Js.or (Esbuild.build_target config) Js.undefined)
  ∧ JsMap.get "format" (Esbuild.optionsObject config format)
    = Some (Esbuild.rollupToEsbuildFormatMap format)
  ∧ JsMap.get "supported" (Esbuild.optionsObject config format) =
      Some (Js.object
              (Js.spread
                 [("dynamic-import", Js.boolean true); ("import-meta", Js.boolean true)]
                 (Js.prop (Esbuild.config_esbuild config) "supported")))
  ∧ (NoDup (Esbuild.ownProps (Esbuild.config_esbuild config)).*1 →
     ∀ k, k ∉ ["target"; "format"; "supported"] →
          JsMap.get k (Esbuild.optionsObject config format) =
            match JsMap.get k (Esbuild.ownProps (Esbuild.config_esbuild config)) with
            | Some v => Some v
            | None => if decide (k = "charset") then Some (Js.str "utf8") else None
            end).
Proof.
  unfold Esbuild.optionsObject. cbn zeta.
  assert (Js.prop (Js.or (Esbuild.config_esbuild config) (Js.object [])) "supported"
          = Js.prop (Esbuild.config_esbuild config) "supported") as ->.
  { by rewrite !prop_ownProps, ownProps_or_empty. }
  split_and!; try (by rewrite get_assign).
  intros Hu k Hk. rewrite get_assign. cbn [reverse rev_append JsMap.get].
  destruct (decide ("supported" = k)) as [<-|_]; [exfalso; apply Hk; by repeat constructor|].
  destruct (decide ("format" = k)) as [<-|_]; [exfalso; apply Hk; by repeat constructor|].
  destruct (decide ("target" = k)) as [<-|_]; [exfalso; apply Hk; by repeat constructor|].
  rewrite get_spread by (by rewrite ownProps_or_empty).
  rewrite ownProps_or_empty. simpl. destruct (JsMap.get k _); [done|].
  destruct (decide ("charset" = k)) as [<-|Hne]; [done|].
  by rewrite decide_False.
Qed.

(** A result that is not [null] is [options] with the flags of one of the
    five branches assigned over it. *)
Lemma resolveEsbuildTranspileOptions_cases config format opts :
  Esbuild.resolveEsbuildTranspileOptions config format = Some opts →
  let minify := Js.is_str (Esbuild.build_minify config) "esbuild" in
  let isEsLibBuild :=
    Js.truthy (Esbuild.build_lib config)
    && match format with Esbuild.es => true | _ => false end in
  let opt k := default Js.undefined (JsMap.get k (Esbuild.optionsObject config format)) in
  opts =
    Js.assign (Esbuild.optionsObject config format)
      (if negb minify then
         [("minify", Js.boolean false); ("minifyIdentifiers", Js.boolean false);
          ("minifySyntax", Js.boolean false); ("minifyWhitespace", Js.boolean false);
          ("treeShaking", Js.boolean false)]
       else if Js.not_nullish (opt "minifyIdentifiers")
               || Js.not_nullish (opt "minifySyntax")
               || Js.not_nullish (opt "minifyWhitespace") then
         [("minify", Js.boolean false);
          ("minifyIdentifiers", Js.coalesce (opt "minifyIdentifiers") (Js.boolean true));
          ("minifySyntax", Js.coalesce (opt "minifySyntax") (Js.boolean true));
          ("minifyWhitespace",
           if isEsLibBuild then Js.boolean false
           else Js.coalesce (opt "minifyWhitespace") (Js.boolean true));
          ("treeShaking", Js.boolean true)]
       else if isEsLibBuild then
         [("minify", Js.boolean false); ("minifyIdentifiers", Js.boolean true);
          ("minifySyntax", Js.boolean true); ("minifyWhitespace", Js.boolean false);
          ("treeShaking", Js.boolean true)]
       else [("minify", Js.boolean true); ("treeShaking", Js.boolean true)]).
Proof.
  intros H minify isEsLibBuild opt. unfold Esbuild.resolveEsbuildTranspileOptions in H.
  destruct (_ && negb _); [done|]. cbn zeta in H. fold minify isEsLibBuild in H.
  change (Js.assign (Js.spread _ _) _) with (Esbuild.optionsObject config format) in H.
  change (Js.prop (Js.object (Esbuild.optionsObject config format))) with opt in H.
  destruct (negb minify); [congruence|].
  destruct (_ || _); [|destruct isEsLibBuild; congruence].
  destruct isEsLibBuild; congruence.
Qed.

(** The flags are assigned under [minifyKeys] only. *)
Lemma resolveEsbuildTranspileOptions_keeps config format opts k :
  Esbuild.resolveEsbuildTranspileOptions config format = Some opts →
  k ∉ Esbuild.minifyKeys →
  JsMap.get k opts = JsMap.get k (Esbuild.optionsObject config format).
Proof.
  intros H Hk. rewrite (resolveEsbuildTranspileOptions_cases _ _ _ H). cbn zeta.
  rewrite get_assign.
  rewrite (proj2 (get_None_keys k (reverse _))); [done|].
  rewrite fmap_reverse, elem_of_reverse. intros Hin. apply Hk.
  destruct (negb _); [|destruct (_ || _); [|destruct (_ && _)]];
    cbn [fmap list_fmap fst] in Hin; unfold Esbuild.minifyKeys;
    repeat (apply elem_of_cons in Hin as [->|Hin]; [by repeat constructor|]);
    by apply elem_of_nil in Hin.
Qed.

(** X14. For an ES-format library build ([build.lib] set, format [es])
    [resolveEsbuildTranspileOptions] never lets esbuild minify whitespace:
    whatever the esbuild options of the user say, a result that is not
    [null] has [minifyWhitespace] and [minify] false. *)
Theorem es_library_output_keeps_whitespace
    (config : Esbuild.ResolvedConfig) (opts : list (string * Js.value)) :
  Js.truthy (Esbuild.build_lib config) = true →
  Esbuild.resolveEsbuildTranspileOptions config Esbuild.es = Some opts →
  JsMap.get "minifyWhitespace" opts = Some (Js.boolean false)
  ∧ JsMap.get "minify" opts = Some (Js.boolean false).
Proof.
  intros Hlib H. rewrite (resolveEsbuildTranspileOptions_cases _ _ _ H). cbn zeta.
  rewrite Hlib. cbn [andb].
  destruct (negb _); [by rewrite !get_assign|].
  destruct (_ || _); by rewrite !get_assign.
Qed.

Lemma es_library_output_keeps_whitespace_witness :
  ∃ opts,
    Esbuild.resolveEsbuildTranspileOptions libConfig Esbuild.es = Some opts
    ∧ JsMap.get "minifyWhitespace" opts = Some (Js.boolean false)
    ∧ JsMap.get "minify" opts = Some (Js.boolean false).
Proof.
  eexists. split; [reflexivity|].
  apply (es_library_output_keeps_whitespace libConfig); reflexivity.
Defined.

(** X15. When [build.minify] is not ['esbuild'],
    [resolveEsbuildTranspileOptions] returns [null] exactly when
    [build.target] is falsy or ['esnext']; otherwise it returns options in
    which [minify], [minifyIdentifiers], [minifySyntax], [minifyWhitespace]
    and [treeShaking] are all false, whatever the esbuild options of the
    user say. *)
Theorem without_esbuild_minify_every_flag_is_off
    (config : Esbuild.ResolvedConfig) (format : Esbuild.InternalModuleFormat) :
  Js.is_str (Esbuild.build_minify config) "esbuild" = false →
  match Esbuild.resolveEsbuildTranspileOptions config format with
  | None =>
      Js.truthy (Esbuild.build_target config) = false
      ∨ Esbuild.build_target config = Js.str "esnext"
  | Some opts =>
      Js.truthy (Esbuild.build_target config) = true
      ∧ Esbuild.build_target config ≠ Js.str "esnext"
      ∧ Forall (λ k, JsMap.get k opts = Some (Js.boolean false)) Esbuild.minifyKeys
  end.
Proof.
  intros Hmin.
  destruct (Esbuild.resolveEsbuildTranspileOptions config format) as [opts|] eqn:H.
  - rewrite (resolveEsbuildTranspileOptions_cases _ _ _ H). cbn zeta.
    unfold Esbuild.resolveEsbuildTranspileOptions in H. rewrite Hmin in *. cbn [negb] in *.
    rewrite andb_true_r in H.
    destruct (negb _ || _) eqn:Ht; [done|]. apply orb_false_iff in Ht as [Ht1 Ht2].
    apply negb_false_iff in Ht1. split_and!; [done| |].
    + intros E. by rewrite E in Ht2.
    + repeat constructor; by rewrite get_assign.
  - unfold Esbuild.resolveEsbuildTranspileOptions in H. rewrite Hmin in H. cbn [negb] in H.
    rewrite andb_true_r in H.
    destruct (negb _ || _) eqn:Ht; [|done].
    apply orb_true_iff in Ht as [Ht%negb_true_iff|Ht]; [by left|right].
    destruct (Esbuild.build_target config); try done. simpl in Ht.
    by apply bool_decide_eq_true in Ht as ->.
Qed.

Lemma without_esbuild_minify_witness :
  ∃ opts,
    Esbuild.resolveEsbuildTranspileOptions terserConfig Esbuild.cjs = Some opts
    ∧ JsMap.get "minify" opts = Some (Js.boolean false)
    ∧ JsMap.get "treeShaking" opts = Some (Js.boolean false).
Proof.
  pose proof (without_esbuild_minify_every_flag_is_off terserConfig Esbuild.cjs eq_refl)
    as H.
  destruct (Esbuild.resolveEsbuildTranspileOptions terserConfig Esbuild.cjs) as [opts|];
    [|by destruct H].
  destruct H as (_ & _ & Hall). exists opts. split; [done|].
  rewrite list.Forall_forall in Hall.
  split; apply Hall; listed.
Defined.

(** X16. In the options [resolveEsbuildTranspileOptions] returns, [target]
    is [build.target] and [format] is the mapped output format, whatever
    the esbuild options of the user hold under these keys; an option of the
    user under a key the function does not assign is passed on unchanged,
    and [charset] is utf8 unless the user sets it. In [supported],
    [dynamic-import] and [import-meta] are true unless the user's
    [supported] says otherwise: the user's entries are spread last. The
    user's options have distinct keys, as the properties of an object
    have. *)
Theorem build_settings_override_esbuild_options
    (config : Esbuild.ResolvedConfig) (format : Esbuild.InternalModuleFormat)
    (opts : list (string * Js.value)) :
  NoDup (Esbuild.ownProps (Esbuild.config_esbuild config)).*1 →
  Esbuild.resolveEsbuildTranspileOptions config format = Some opts →
  JsMap.get "target" opts = Some (Js.or (Esbuild.build_target config) Js.undefined)
  ∧ JsMap.get "format" opts = Some (Esbuild.rollupToEsbuildFormatMap format)
  ∧ (∀ k, k ∉ Esbuild.assignedKeys →
       JsMap.get k opts =
         match JsMap.get k (Esbuild.ownProps (Esbuild.config_esbuild config)) with
         | Some v => Some v
         | None => if decide (k = "charset") then Some (Js.str "utf8") else None
         end)
  ∧ ∃ supported,
      JsMap.get "supported" opts = Some (Js.object supported)
      ∧ (NoDup (Esbuild.ownProps (Js.prop (Esbuild.config_esbuild config) "supported")).*1 →
         ∀ k, JsMap.get k supported =
                match JsMap.get k
                        (Esbuild.ownProps
                           (Js.prop (Esbuild.config_esbuild config) "supported")) with
                | Some v => Some v
                | None =>
                    if decide (k = "dynamic-import" ∨ k = "import-meta")
                    then Some (Js.boolean true) else None
                end).
Proof.
  intros Hu H.
  destruct (optionsObject_reads config format) as (Ht & Hf & Hs & Hpass).
  split_and!.
  - rewrite (resolveEsbuildTranspileOptions_keeps _ _ _ _ H); [done|].
    unfold Esbuild.minifyKeys. not_listed.
  - rewrite (resolveEsbuildTranspileOptions_keeps _ _ _ _ H); [done|].
    unfold Esbuild.minifyKeys. not_listed.
  - intros k Hk. rewrite (resolveEsbuildTranspileOptions_keeps _ _ _ _ H).
    + apply Hpass; [done|]. intros Hin. apply Hk. clear -Hin.
      repeat (apply elem_of_cons in Hin as [->|Hin]; [listed|]).
      by apply elem_of_nil in Hin.
    + intros Hin. apply Hk. clear -Hin. unfold Esbuild.minifyKeys in Hin.
      repeat (apply elem_of_cons in Hin as [->|Hin]; [listed|]).
      by apply elem_of_nil in Hin.
  - eexists. split.
    + rewrite (resolveEsbuildTranspileOptions_keeps _ _ _ _ H); [exact Hs|].
      unfold Esbuild.minifyKeys. not_listed.
    + intros Hsup k. rewrite get_spread by done.
      destruct (JsMap.get k _); [done|]. simpl.
      destruct (decide ("dynamic-import" = k)) as [<-|?].
      { by rewrite decide_True by (by left). }
      destruct (decide ("import-meta" = k)) as [<-|?].
      { by rewrite decide_True by (by right). }
      rewrite decide_False; [done|]. intros [->| ->]; done.
Qed.

Lemma build_settings_override_witness :
  ∃ opts,
    Esbuild.resolveEsbuildTranspileOptions libConfig Esbuild.es = Some opts
    ∧ JsMap.get "target" opts = Some (Js.array [Js.str "es2020"; Js.str "safari14"])
    ∧ JsMap.get "legalComments" opts = Some (Js.str "none")
    ∧ JsMap.get "charset" opts = Some (Js.str "utf8").
Proof.
  eexists. split; [reflexivity|].
  destruct (build_settings_override_esbuild_options libConfig Esbuild.es _
              ltac:(vm_compute; repeat constructor; not_listed) eq_refl)
    as (Ht & _ & Hpass & _).
  split_and!.
  - exact Ht.
  - apply (Hpass "legalComments"). unfold Esbuild.assignedKeys. not_listed.
  - apply (Hpass "charset"). unfold Esbuild.assignedKeys. not_listed.
Defined.

(** X17. When [build.minify] is ['esbuild'],
    [resolveEsbuildTranspileOptions] always returns options, with
    [treeShaking] true. A flag among [minifyIdentifiers], [minifySyntax]
    and [minifyWhitespace] that the esbuild options of the user set (to
    anything but [null] or [undefined]) is passed on as set, [minify] being
    false then, except [minifyWhitespace] in an ES library build, which is
    false. When the user sets none of the three, [minify] is true unless
    the build is an ES library build. The user's options have distinct
    keys, as the properties of an object have. *)
Theorem esbuild_minify_respects_explicit_flags
    (config : Esbuild.ResolvedConfig) (format : Esbuild.InternalModuleFormat) :
  NoDup (Esbuild.ownProps (Esbuild.config_esbuild config)).*1 →
  Js.is_str (Esbuild.build_minify config) "esbuild" = true →
  ∃ opts,
    Esbuild.resolveEsbuildTranspileOptions config format = Some opts
    ∧ JsMap.get "treeShaking" opts = Some (Js.boolean true)
    ∧ (∀ k, k ∈ ["minifyIdentifiers"; "minifySyntax"; "minifyWhitespace"] →
         Js.not_nullish (Js.prop (Esbuild.config_esbuild config) k) = true →
         JsMap.get "minify" opts = Some (Js.boolean false)
         ∧ JsMap.get k opts =
             Some (if bool_decide (k = "minifyWhitespace")
                      && (Js.truthy (Esbuild.build_lib config)
                          && match format with Esbuild.es => true | _ => false end)
                   then Js.boolean false
                   else Js.prop (Esbuild.config_esbuild config) k))
    ∧ ((∀ k, k ∈ ["minifyIdentifiers"; "minifySyntax"; "minifyWhitespace"] →
          Js.not_nullish (Js.prop (Esbuild.config_esbuild config) k) = false) →
       JsMap.get "minify" opts =
         Some (Js.boolean
                 (negb (Js.truthy (Esbuild.build_lib config)
                        && match format with Esbuild.es => true | _ => false end)))).
Proof.
  intros Hu Hmin.
  destruct (Esbuild.resolveEsbuildTranspileOptions config format) as [opts|] eqn:H.
  2:{ unfold Esbuild.resolveEsbuildTranspileOptions in H. rewrite Hmin in H.
      cbn [negb] in H. rewrite andb_false_r in H.
      destruct (_ || _ || _) in H; destruct (_ && _) in H; done. }
  exists opts. split; [done|].
  destruct (optionsObject_reads config format) as (_ & _ & _ & Hpass).
  specialize (Hpass Hu).
  pose proof (resolveEsbuildTranspileOptions_cases _ _ _ H) as Ho. cbn zeta in Ho.
  rewrite Hmin in Ho. cbn [negb] in Ho.
  assert (∀ k, k ∉ ["target"; "format"; "supported"] → k ≠ "charset" →
            default Js.undefined (JsMap.get k (Esbuild.optionsObject config format))
            = Js.prop (Esbuild.config_esbuild config) k) as Hopt.
  { intros k Hk Hc. rewrite prop_ownProps, Hpass by done.
    destruct (JsMap.get k _); [done|]. by rewrite decide_False. }
  rewrite (Hopt "minifyIdentifiers"), (Hopt "minifySyntax"), (Hopt "minifyWhitespace")
    in Ho by (done || not_listed).
  clear Hopt Hpass H.
  set (ids := Js.prop (Esbuild.config_esbuild config) "minifyIdentifiers") in *.
  set (syn := Js.prop (Esbuild.config_esbuild config) "minifySyntax") in *.
  set (ws := Js.prop (Esbuild.config_esbuild config) "minifyWhitespace") in *.
  set (lib := Js.truthy (Esbuild.build_lib config)
              && match format with Esbuild.es => true | _ => false end) in *.
  subst opts. split_and!.
  - destruct (_ || _ || _); [by rewrite get_assign|].
    destruct lib; by rewrite get_assign.
  - intros k Hk Hset.
    apply elem_of_cons in Hk as [->|Hk]; [|apply elem_of_cons in Hk as [->|Hk]];
      [| |apply list_elem_of_singleton in Hk as ->].
    + fold ids in Hset. rewrite Hset. cbn [orb]. rewrite !get_assign. cbn.
      unfold Js.coalesce. by rewrite Hset.
    + fold syn in Hset. rewrite Hset, orb_true_r. cbn [orb]. rewrite !get_assign. cbn.
      unfold Js.coalesce. by rewrite Hset.
    + fold ws in Hset. rewrite Hset, !orb_true_r. rewrite !get_assign. cbn.
      destruct lib; [done|]. unfold Js.coalesce. by rewrite Hset.
  - intros Hnone.
    pose proof (Hnone "minifyIdentifiers" ltac:(by repeat constructor)) as H1.
    pose proof (Hnone "minifySyntax" ltac:(by repeat constructor)) as H2.
    pose proof (Hnone "minifyWhitespace" ltac:(by repeat constructor)) as H3.
    fold ids in H1. fold syn in H2. fold ws in H3. rewrite H1, H2, H3. cbn [orb].
    destruct lib; by rewrite get_assign.
Qed.

Lemma esbuild_minify_respects_explicit_flags_witness :
  ∃ opts,
    Esbuild.resolveEsbuildTranspileOptions libConfig Esbuild.cjs = Some opts
    ∧ JsMap.get "minifyWhitespace" opts = Some (Js.boolean true)
    ∧ JsMap.get "minify" opts = Some (Js.boolean false)
    ∧ JsMap.get "treeShaking" opts = Some (Js.boolean true).
Proof.
  destruct (esbuild_minify_respects_explicit_flags libConfig Esbuild.cjs
              ltac:(vm_compute; repeat constructor; not_listed) eq_refl)
    as (opts & Ho & Hts & Hset & _).
  exists opts. destruct (Hset "minifyWhitespace") as [Hm Hw]; [by repeat constructor|done|].
  by split_and!.
Defined.


(** ** [transformWithEsbuild]: the options handed to esbuild *)

Lemma get_delete k k' (o : list (string * Js.value)) :
  JsMap.get k (Js.delete k' o) = if decide (k = k') then None else JsMap.get k o.
Proof.
  unfold Js.delete. induction o as [|[k0 v0] o IH]; [by case_decide|].
  rewrite list.filter_cons. cbn [fst]. destruct (decide (k0 ≠ k')) as [Hne|Heq].
  - cbn [JsMap.get]. destruct (decide (k0 = k)) as [->|?]; [|done].
    by rewrite decide_False.
  - apply dec_stable in Heq. subst k0. rewrite IH. cbn [JsMap.get].
    destruct (decide (k = k')) as [->|?]; [done|]. by rewrite decide_False.
Qed.

Lemma get_pickMeaningful loaded f :
  JsMap.get f (Esbuild.pickMeaningful loaded) =
    if decide (f ∈ Esbuild.meaningfulFields) then JsMap.get f loaded else None.
Proof.
  unfold Esbuild.pickMeaningful.
  assert (∀ fields acc,
    JsMap.get f
      (foldl (λ acc field,
                if JsMap.has field loaded
                then JsMap.set field (Js.prop (Js.object loaded) field) acc else acc)
         acc fields)
    = if decide (f ∈ fields)
      then match JsMap.get f loaded with
           | Some v => Some v
           | None => JsMap.get f acc
           end
      else JsMap.get f acc) as E.
  { induction fields as [|k fields IH]; intros acc; cbn [foldl].
    - by rewrite decide_False by apply not_elem_of_nil.
    - rewrite IH. unfold JsMap.has. cbn [Js.prop].
      destruct (decide (f = k)) as [->|Hne].
      + rewrite (decide_True (P := k ∈ k :: fields)) by apply list_elem_of_here.
        destruct (JsMap.get k loaded) as [v|] eqn:Hk.
        * cbn [default]. rewrite get_set_eq. by destruct (decide (k ∈ fields)).
        * by destruct (decide (k ∈ fields)).
      + assert (JsMap.get f
                  (if match JsMap.get k loaded with
                      | Some _ => true | None => false end
                   then JsMap.set k (default Js.undefined (JsMap.get k loaded)) acc
                   else acc) = JsMap.get f acc) as ->.
        { destruct (JsMap.get k _); [|done]. by rewrite get_set_ne. }
        destruct (decide (f ∈ fields)) as [Hin|Hout].
        * by rewrite decide_True by (by apply list_elem_of_further).
        * rewrite decide_False; [done|].
          by intros [?|?]%elem_of_cons. }
  rewrite E. destruct (decide (f ∈ _)); [|done]. by destruct (JsMap.get f _).
Qed.

Lemma get_blankIf options k field co f :
  JsMap.get f (Esbuild.blankIf options k field co) =
    if bool_decide (f = field) && Js.truthy (Js.prop options k) then Some Js.undefined
    else JsMap.get f co.
Proof.
  unfold Esbuild.blankIf. destruct (Js.truthy _).
  - rewrite get_set. destruct (decide (field = f)) as [->|?].
    + by rewrite bool_decide_eq_true_2.
    + by rewrite bool_decide_eq_false_2.
  - by rewrite andb_false_r.
Qed.

Lemma pickMeaningful_uniqueKeys loaded : NoDup (Esbuild.pickMeaningful loaded).*1.
Proof.
  unfold Esbuild.pickMeaningful.
  assert (∀ fields acc, uniqueKeys acc →
    uniqueKeys
      (foldl (λ acc field,
                if JsMap.has field loaded
                then JsMap.set field (Js.prop (Js.object loaded) field) acc else acc)
         acc fields)) as E.
  { induction fields as [|k fields IH]; intros acc Hacc; cbn [foldl]; [done|].
    apply IH. destruct (JsMap.has k loaded); [by apply set_uniqueKeys|done]. }
  apply E. unfold uniqueKeys. constructor.
Qed.

Lemma get_merged options loader loaded f :
  NoDup (Esbuild.ownProps (Js.prop (Js.prop options "tsconfigRaw") "compilerOptions")).*1 →
  JsMap.get f
    (Js.spread
       (Js.spread []
          (Js.object
             (if Js.is_str loader "ts" || Js.is_str loader "tsx"
              then Esbuild.pickMeaningful (default [] loaded) else [])))
       (Js.prop (Js.prop options "tsconfigRaw") "compilerOptions"))
  = Esbuild.mergedField options loader loaded f.
Proof.
  intros Hraw. unfold Esbuild.mergedField. rewrite get_spread by done.
  destruct (JsMap.get f (Esbuild.ownProps _)) as [v|]; [done|].
  rewrite get_spread.
  - cbn [Esbuild.ownProps]. destruct (Js.is_str loader "ts" || Js.is_str loader "tsx").
    + rewrite get_pickMeaningful. cbn [andb].
      destruct (decide (f ∈ _)).
      * rewrite bool_decide_eq_true_2 by done. by destruct (JsMap.get f _).
      * by rewrite bool_decide_eq_false_2.
    + done.
  - cbn [Esbuild.ownProps]. destruct (_ || _); [apply pickMeaningful_uniqueKeys|constructor].
Qed.

(** The read of a field of the [compilerOptions] handed to esbuild, in
    terms of the merge. *)
Lemma get_compilerOptionsFor options loader loaded f :
  NoDup (Esbuild.ownProps (Js.prop (Js.prop options "tsconfigRaw") "compilerOptions")).*1 →
  let merged := Esbuild.mergedField options loader loaded in
  let undef k := Js.is_undefined (default Js.undefined (merged k)) in
  let blank k field := bool_decide (f = field) && Js.truthy (Js.prop options k) in
  JsMap.get f (Esbuild.compilerOptionsFor options loader loaded).1 =
    if Js.truthy options
       && (blank "jsxImportSource" "jsxImportSource"
           || blank "jsxFragment" "jsxFragmentFactory"
           || blank "jsxFactory" "jsxFactory"
           || blank "jsx" "jsx")
    then Some Js.undefined
    else if bool_decide (f = "experimentalDecorators") && undef "experimentalDecorators"
    then Some (Js.boolean true)
    else if bool_decide (f = "useDefineForClassFields")
            && (undef "useDefineForClassFields" && undef "target")
    then Some (Js.boolean false)
    else merged f.
Proof.
  intros Hraw merged undef blank. unfold Esbuild.compilerOptionsFor. cbn zeta. cbn [fst].
  set (m0 := Js.spread _ _).
  assert (∀ k, JsMap.get k m0 = merged k) as Hm0 by (intros k; by apply get_merged).
  clearbody m0.
  set (m1 := if _ && _ then JsMap.set "useDefineForClassFields" _ m0 else m0).
  assert (∀ k, JsMap.get k m1 =
            if bool_decide (k = "useDefineForClassFields")
               && (undef "useDefineForClassFields" && undef "target")
            then Some (Js.boolean false) else merged k) as Hm1.
  { intros k. subst m1 undef. cbn [Js.prop]. cbn beta. rewrite !Hm0.
    destruct (Js.is_undefined _ && Js.is_undefined _).
    - rewrite get_set, Hm0. destruct (decide ("useDefineForClassFields" = k)) as [<-|Hne].
      + by rewrite bool_decide_eq_true_2.
      + by rewrite bool_decide_eq_false_2.
    - by rewrite Hm0, andb_false_r. }
  clearbody m1.
  set (m2 := if Js.is_undefined _ then JsMap.set "experimentalDecorators" _ m1 else m1).
  assert (∀ k, JsMap.get k m2 =
            if bool_decide (k = "experimentalDecorators") && undef "experimentalDecorators"
            then Some (Js.boolean true)
            else if bool_decide (k = "useDefineForClassFields")
                    && (undef "useDefineForClassFields" && undef "target")
            then Some (Js.boolean false) else merged k) as Hm2.
  { intros k. subst m2. cbn [Js.prop]. rewrite (Hm1 "experimentalDecorators").
    rewrite (bool_decide_eq_false_2 ("experimentalDecorators" = _)) by done.
    cbn [andb]. subst undef. cbn beta in *.
    destruct (Js.is_undefined (default Js.undefined (merged "experimentalDecorators"))).
    - rewrite get_set, Hm1. destruct (decide ("experimentalDecorators" = k)) as [<-|Hne].
      + by rewrite bool_decide_eq_true_2.
      + by rewrite (bool_decide_eq_false_2 (k = "experimentalDecorators")).
    - by rewrite Hm1, andb_false_r. }
  clearbody m2. clear Hm1 Hm0. subst blank. cbn beta.
  destruct (Js.truthy options); cbn [andb].
  - rewrite !get_blankIf.
    destruct (bool_decide (f = "jsxImportSource") && _); [done|].
    destruct (bool_decide (f = "jsxFragmentFactory") && _); [done|].
    destruct (bool_decide (f = "jsxFactory") && _); [done|].
    destruct (bool_decide (f = "jsx") && _); [done|]. apply Hm2.
  - apply Hm2.
Qed.

Lemma resolvedOptions_reads filename ext options loaded :
  let resolved := Esbuild.resolvedOptions filename ext options loaded in
  let tsconfigRaw := Js.prop options "tsconfigRaw" in
  let block := Esbuild.compilerOptionsFor options (Esbuild.loaderFor options ext) loaded in
  JsMap.get "loader" resolved = Some (Esbuild.loaderFor options ext)
  ∧ JsMap.get "tsconfigRaw" resolved =
      Some (if Js.is_string tsconfigRaw then tsconfigRaw
            else Js.object
                   (JsMap.set "compilerOptions" (Js.object block.1)
                      (Js.spread [] tsconfigRaw)))
  ∧ JsMap.get "supported" resolved =
      Some (Js.object
              (Js.spread (if Js.is_string tsconfigRaw then [] else block.2)
                 (Js.prop options "supported"))).
Proof.
  intros resolved tsconfigRaw block. subst resolved. unfold Esbuild.resolvedOptions.
  cbn zeta. fold tsconfigRaw. fold block. destruct block as [co fb]. cbn [fst snd].
  destruct (Js.is_string tsconfigRaw); cbn [negb];
    rewrite !get_delete, !get_assign; split_and!; by repeat (rewrite decide_False by done).
Qed.

(** X18: the options esbuild receives never hold [include], [exclude] or
    [jsxInject]; their [loader] is the computed one whatever the caller's
    options hold; and under every key other than these and [tsconfigRaw]
    and [supported] they hold the caller's option, with [sourcemap]
    defaulting to [true] and [sourcefile] to the file name. The caller's
    options have distinct keys, as the properties of an object have. *)
Theorem transformWithEsbuild_passes_caller_options filename ext options loaded :
  NoDup (Esbuild.ownProps options).*1 →
  let resolved := Esbuild.resolvedOptions filename ext options loaded in
  (∀ k, k ∈ ["include"; "exclude"; "jsxInject"] → JsMap.get k resolved = None)
  ∧ JsMap.get "loader" resolved = Some (Esbuild.loaderFor options ext)
  ∧ (∀ k, k ∉ ["include"; "exclude"; "jsxInject"; "loader"; "tsconfigRaw"; "supported"] →
       JsMap.get k resolved =
         match JsMap.get k (Esbuild.ownProps options) with
         | Some v => Some v
         | None =>
             JsMap.get k [("sourcemap", Js.boolean true); ("sourcefile", Js.str filename)]
         end).
Proof.
  intros Hu resolved. split_and!.
  - intros k Hk. subst resolved. unfold Esbuild.resolvedOptions. cbn zeta.
    destruct (if negb _ then _ else _) as [raw fb]. rewrite !get_delete.
    destruct (decide (k = "jsxInject")); [done|]. destruct (decide (k = "exclude")); [done|].
    destruct (decide (k = "include")); [done|].
    exfalso. revert Hk. not_listed.
  - apply resolvedOptions_reads.
  - intros k Hk. subst resolved. unfold Esbuild.resolvedOptions. cbn zeta.
    destruct (if negb _ then _ else _) as [raw fb]. rewrite !get_delete.
    destruct (decide (k = "jsxInject")) as [->|_]; [exfalso; apply Hk; by repeat constructor|].
    destruct (decide (k = "exclude")) as [->|_]; [exfalso; apply Hk; by repeat constructor|].
    destruct (decide (k = "include")) as [->|_]; [exfalso; apply Hk; by repeat constructor|].
    rewrite get_assign. cbn [reverse rev_append JsMap.get].
    destruct (decide ("supported" = k)) as [<-|_]; [exfalso; apply Hk; by repeat constructor|].
    destruct (decide ("tsconfigRaw" = k)) as [<-|_]; [exfalso; apply Hk; by repeat constructor|].
    destruct (decide ("loader" = k)) as [<-|_]; [exfalso; apply Hk; by repeat constructor|].
    by rewrite get_spread.
Qed.

(** X19: the tsconfig file of the transformed file influences the options
    only where [transformWithEsbuild] reads it: with a [tsconfigRaw] given
    as a string, or a loader other than [ts] and [tsx], the options are the
    same whatever the file holds. *)
Theorem transformWithEsbuild_ignores_unread_tsconfig filename ext options loaded loaded' :
  Esbuild.readsTsconfig options ext = false →
  Esbuild.resolvedOptions filename ext options loaded
  = Esbuild.resolvedOptions filename ext options loaded'.
Proof.
  unfold Esbuild.readsTsconfig, Esbuild.resolvedOptions, Esbuild.compilerOptionsFor.
  cbn zeta. destruct (Js.is_string _); cbn [negb andb]; [done|].
  by intros ->.
Qed.

(** X20: a [tsconfigRaw] given as a string is handed to esbuild as it is,
    and [supported] then holds the caller's entries only: no
    [class-static-blocks] fallback is added. *)
Theorem transformWithEsbuild_string_tsconfigRaw_is_final filename ext options loaded :
  Js.is_string (Js.prop options "tsconfigRaw") = true →
  let resolved := Esbuild.resolvedOptions filename ext options loaded in
  JsMap.get "tsconfigRaw" resolved = Some (Js.prop options "tsconfigRaw")
  ∧ JsMap.get "supported" resolved =
      Some (Js.object (Js.spread [] (Js.prop options "supported"))).
Proof.
  intros Hs resolved.
  destruct (resolvedOptions_reads filename ext options loaded) as (_ & Hraw & Hsup).
  fold resolved in Hraw, Hsup. rewrite Hs in Hraw, Hsup. by split.
Qed.

Lemma compilerOptionsFor_defaults options loader loaded :
  let block := Esbuild.compilerOptionsFor options loader loaded in
  Js.is_undefined (Js.prop (Js.object block.1) "experimentalDecorators") = false
  ∧ (Js.is_undefined (Js.prop (Js.object block.1) "useDefineForClassFields") = true →
     Js.is_undefined (Js.prop (Js.object block.1) "target") = false)
  ∧ block.2 =
      if Js.is_true (Js.prop (Js.object block.1) "useDefineForClassFields") then []
      else [("class-static-blocks", Js.boolean false)].
Proof.
  intros block. subst block. unfold Esbuild.compilerOptionsFor. cbn zeta. cbn [fst snd].
  generalize (Js.spread
       (Js.spread []
          (Js.object
             (if Js.is_str loader "ts" || Js.is_str loader "tsx"
              then Esbuild.pickMeaningful (default [] loaded) else [])))
       (Js.prop (Js.prop options "tsconfigRaw") "compilerOptions")). intros m0.
  cbn [Js.prop].
  set (m1 := if _ && _ then JsMap.set "useDefineForClassFields" _ m0 else m0).
  set (m2 := if Js.is_undefined _ then JsMap.set "experimentalDecorators" _ m1 else m1).
  assert (JsMap.get "target" m1 = JsMap.get "target" m0
          ∧ (Js.is_undefined (default Js.undefined (JsMap.get "useDefineForClassFields" m1))
             = true →
             Js.is_undefined (default Js.undefined (JsMap.get "target" m0)) = false))
    as (Ht1 & Hu1).
  { subst m1.
    destruct (Js.is_undefined
                (default Js.undefined (JsMap.get "useDefineForClassFields" m0))) eqn:E1;
      destruct (Js.is_undefined (default Js.undefined (JsMap.get "target" m0))) eqn:E2;
      cbn [andb]; split; try done; try congruence.
    - by rewrite get_set_ne.
    - by rewrite get_set_eq. }
  assert (JsMap.get "useDefineForClassFields" m2 = JsMap.get "useDefineForClassFields" m1
          ∧ JsMap.get "target" m2 = JsMap.get "target" m1
          ∧ Js.is_undefined (default Js.undefined (JsMap.get "experimentalDecorators" m2))
            = false) as (Hu2 & Ht2 & He2).
  { subst m2.
    destruct (Js.is_undefined
                (default Js.undefined (JsMap.get "experimentalDecorators" m1))) eqn:E; [|done].
    by rewrite !get_set_ne, get_set_eq by done. }
  clearbody m2 m1.
  assert (∀ m3,
    (∀ k, k ∈ ["experimentalDecorators"; "useDefineForClassFields"; "target"] →
          JsMap.get k m3 = JsMap.get k m2) →
    Js.is_undefined (default Js.undefined (JsMap.get "experimentalDecorators" m3)) = false
    ∧ (Js.is_undefined (default Js.undefined (JsMap.get "useDefineForClassFields" m3)) = true →
       Js.is_undefined (default Js.undefined (JsMap.get "target" m3)) = false)
    ∧ (if negb (Js.is_true (default Js.undefined (JsMap.get "useDefineForClassFields" m2)))
       then [("class-static-blocks", Js.boolean false)] else [])
      = if Js.is_true (default Js.undefined (JsMap.get "useDefineForClassFields" m3))
        then [] else [("class-static-blocks", Js.boolean false)]) as Hm3.
  { intros m3 Hm3. rewrite !Hm3 by (by repeat constructor).
    rewrite Hu2, Ht2, Ht1. split_and!; [done|done|]. by destruct (Js.is_true _). }
  apply Hm3. intros k Hk. destruct (Js.truthy options); [|done].
  rewrite !get_blankIf.
  assert (∀ field, field ∈ ["jsxImportSource"; "jsxFragmentFactory"; "jsxFactory"; "jsx"] →
                   bool_decide (k = field) = false) as Hne.
  { intros field Hf. apply bool_decide_eq_false_2. intros ->.
    repeat (apply elem_of_cons in Hk as [->|Hk]; [revert Hf; not_listed|]).
    by apply elem_of_nil in Hk. }
  by rewrite !Hne by (by repeat constructor).
Qed.

(** X21: unless [tsconfigRaw] is a string, esbuild receives a
    [tsconfigRaw] whose [compilerOptions] always declare
    [experimentalDecorators], leave [useDefineForClassFields] undefined only
    when a [target] is declared, and [supported] starts from a
    [class-static-blocks: false] entry exactly when
    [useDefineForClassFields] is not [true]. *)
Theorem transformWithEsbuild_compiler_option_defaults filename ext options loaded :
  Js.is_string (Js.prop options "tsconfigRaw") = false →
  let resolved := Esbuild.resolvedOptions filename ext options loaded in
  ∃ raw co fallbackSupported,
    JsMap.get "tsconfigRaw" resolved = Some (Js.object raw)
    ∧ JsMap.get "compilerOptions" raw = Some (Js.object co)
    ∧ JsMap.get "supported" resolved =
        Some (Js.object (Js.spread fallbackSupported (Js.prop options "supported")))
    ∧ Js.is_undefined (Js.prop (Js.object co) "experimentalDecorators") = false
    ∧ (Js.is_undefined (Js.prop (Js.object co) "useDefineForClassFields") = true →
       Js.is_undefined (Js.prop (Js.object co) "target") = false)
    ∧ fallbackSupported =
        if Js.is_true (Js.prop (Js.object co) "useDefineForClassFields") then []
        else [("class-static-blocks", Js.boolean false)].
Proof.
  intros Hs resolved.
  destruct (resolvedOptions_reads filename ext options loaded) as (_ & Hraw & Hsup).
  fold resolved in Hraw, Hsup. rewrite Hs in Hraw, Hsup.
  destruct (compilerOptionsFor_defaults options (Esbuild.loaderFor options ext) loaded)
    as (He & Hu & Hfb).
  eexists _, _, _. split_and!; [exact Hraw|apply get_set_eq|exact Hsup|exact He|exact Hu|exact Hfb].
Qed.

(** X22: a compiler option other than the two defaulted ones and the four
    jsx ones reaches esbuild with the value of the caller's
    [tsconfigRaw.compilerOptions]; without one there, with the value of the
    tsconfig file, and only for the loaders [ts] and [tsx] and a field of
    [meaningfulFields]; otherwise it is absent. The caller's compiler
    options have distinct keys, as the properties of an object have. *)
Theorem tsconfigRaw_overrides_tsconfig_file options loader loaded f :
  NoDup (Esbuild.ownProps (Js.prop (Js.prop options "tsconfigRaw") "compilerOptions")).*1 →
  f ∉ ["useDefineForClassFields"; "experimentalDecorators"; "jsx"; "jsxFactory";
       "jsxFragmentFactory"; "jsxImportSource"] →
  JsMap.get f (Esbuild.compilerOptionsFor options loader loaded).1 =
    match JsMap.get f
            (Esbuild.ownProps (Js.prop (Js.prop options "tsconfigRaw") "compilerOptions")) with
    | Some v => Some v
    | None =>
        if (Js.is_str loader "ts" || Js.is_str loader "tsx")
           && bool_decide (f ∈ Esbuild.meaningfulFields)
        then JsMap.get f (default [] loaded)
        else None
    end.
Proof.
  intros Hraw Hf. rewrite get_compilerOptionsFor by done. cbn zeta.
  assert (∀ field, field ∈ ["useDefineForClassFields"; "experimentalDecorators"; "jsx";
                            "jsxFactory"; "jsxFragmentFactory"; "jsxImportSource"] →
                   bool_decide (f = field) = false) as Hne.
  { intros field Hin. apply bool_decide_eq_false_2. by intros ->. }
  rewrite !Hne by (by repeat constructor). cbn [andb orb].
  by rewrite andb_false_r.
Qed.

(** X23: a jsx option of the caller that is truthy blanks the field of the
    tsconfig it stands for, so that esbuild takes the option:
    [compilerOptions] then holds [undefined] under that field; without the
    option the field holds what the caller's [tsconfigRaw.compilerOptions]
    or else the tsconfig file hold. *)
Theorem jsx_options_blank_tsconfig_fields options loader loaded k field :
  NoDup (Esbuild.ownProps (Js.prop (Js.prop options "tsconfigRaw") "compilerOptions")).*1 →
  (k, field) ∈ [("jsx", "jsx"); ("jsxFactory", "jsxFactory");
                ("jsxFragment", "jsxFragmentFactory");
                ("jsxImportSource", "jsxImportSource")] →
  JsMap.get field (Esbuild.compilerOptionsFor options loader loaded).1 =
    if Js.truthy (Js.prop options k) then Some Js.undefined
    else
      match JsMap.get field
              (Esbuild.ownProps
                 (Js.prop (Js.prop options "tsconfigRaw") "compilerOptions")) with
      | Some v => Some v
      | None =>
          if Js.is_str loader "ts" || Js.is_str loader "tsx"
          then JsMap.get field (default [] loaded)
          else None
      end.
Proof.
  intros Hraw Hin. rewrite get_compilerOptionsFor by done. cbn zeta.
  assert (∀ key, Js.truthy options = false → Js.truthy (Js.prop options key) = false) as Hopt.
  { intros key. by destruct options as [| |[]|n|s|items|props]. }
  assert (field ∈ Esbuild.meaningfulFields) as Hm.
  { repeat (apply elem_of_cons in Hin as [[= -> ->]|Hin]; [unfold Esbuild.meaningfulFields; by repeat constructor|]).
    by apply elem_of_nil in Hin. }
  unfold Esbuild.mergedField. rewrite (bool_decide_eq_true_2 _ Hm), andb_true_r.
  repeat (apply elem_of_cons in Hin as [[= -> ->]|Hin];
          [repeat match goal with
                  | |- context [bool_decide (?a = ?b)] =>
                      first [rewrite (bool_decide_eq_true_2 (a = b)) by done
                            |rewrite (bool_decide_eq_false_2 (a = b)) by done]
                  end;
           cbn [andb orb]; rewrite ?orb_false_r, ?andb_true_r;
           destruct (Js.truthy options); [done|by rewrite Hopt]|]).
  by apply elem_of_nil in Hin.
Qed.

Lemma transformWithEsbuild_passes_caller_options_witness :
  NoDup (Esbuild.ownProps tsOptions).*1
  ∧ JsMap.get "include" (Esbuild.resolvedOptions "main.ts" "ts" tsOptions tsconfigJson) = None
  ∧ JsMap.get "sourcemap" (Esbuild.resolvedOptions "main.ts" "ts" tsOptions tsconfigJson)
    = Some (Js.boolean false)
  ∧ JsMap.get "sourcefile" (Esbuild.resolvedOptions "main.ts" "ts" tsOptions tsconfigJson)
    = Some (Js.str "main.ts").
Proof.
  assert (NoDup (Esbuild.ownProps tsOptions).*1) as Hu
    by (vm_compute; repeat constructor; not_listed).
  destruct (transformWithEsbuild_passes_caller_options "main.ts" "ts" tsOptions tsconfigJson Hu)
    as (Hdel & _ & Hkeep).
  split_and!; [done|apply Hdel; by repeat constructor|..].
  - rewrite Hkeep; [done|not_listed].
  - rewrite Hkeep; [done|not_listed].
Defined.

Lemma transformWithEsbuild_ignores_unread_tsconfig_witness :
  Esbuild.readsTsconfig jsOptions "ts" = false
  ∧ Esbuild.resolvedOptions "main.ts" "ts" jsOptions tsconfigJson
    = Esbuild.resolvedOptions "main.ts" "ts" jsOptions None.
Proof.
  split; [reflexivity|].
  apply (transformWithEsbuild_ignores_unread_tsconfig "main.ts" "ts" jsOptions). reflexivity.
Defined.

Lemma transformWithEsbuild_string_tsconfigRaw_witness :
  Js.is_string (Js.prop rawStringOptions "tsconfigRaw") = true
  ∧ JsMap.get "tsconfigRaw"
      (Esbuild.resolvedOptions "main.ts" "ts" rawStringOptions tsconfigJson)
    = Some (Js.str "{}")
  ∧ JsMap.get "supported"
      (Esbuild.resolvedOptions "main.ts" "ts" rawStringOptions tsconfigJson)
    = Some (Js.object [("bigint", Js.boolean true)]).
Proof.
  split; [reflexivity|].
  apply (transformWithEsbuild_string_tsconfigRaw_is_final "main.ts" "ts" rawStringOptions
           tsconfigJson).
  reflexivity.
Defined.

Lemma transformWithEsbuild_compiler_option_defaults_witness :
  Js.is_string (Js.prop tsOptions "tsconfigRaw") = false
  ∧ ∃ raw co fallbackSupported,
      JsMap.get "tsconfigRaw" (Esbuild.resolvedOptions "main.ts" "ts" tsOptions tsconfigJson)
        = Some (Js.object raw)
      ∧ JsMap.get "compilerOptions" raw = Some (Js.object co)
      ∧ JsMap.get "supported" (Esbuild.resolvedOptions "main.ts" "ts" tsOptions tsconfigJson)
        = Some (Js.object (Js.spread fallbackSupported (Js.prop tsOptions "supported")))
      ∧ Js.is_undefined (Js.prop (Js.object co) "experimentalDecorators") = false
      ∧ (Js.is_undefined (Js.prop (Js.object co) "useDefineForClassFields") = true →
         Js.is_undefined (Js.prop (Js.object co) "target") = false)
      ∧ fallbackSupported =
          if Js.is_true (Js.prop (Js.object co) "useDefineForClassFields") then []
          else [("class-static-blocks", Js.boolean false)].
Proof.
  split; [reflexivity|].
  apply (transformWithEsbuild_compiler_option_defaults "main.ts" "ts" tsOptions tsconfigJson).
  reflexivity.
Defined.

Lemma tsconfigRaw_overrides_tsconfig_file_witness :
  NoDup (Esbuild.ownProps
           (Js.prop (Js.prop rawObjectOptions "tsconfigRaw") "compilerOptions")).*1
  ∧ JsMap.get "target"
      (Esbuild.compilerOptionsFor rawObjectOptions (Js.str "ts") tsconfigJson).1
    = Some (Js.str "ES2022")
  ∧ JsMap.get "strict"
      (Esbuild.compilerOptionsFor rawObjectOptions (Js.str "ts") tsconfigJson).1
    = None.
Proof.
  assert (NoDup (Esbuild.ownProps
                   (Js.prop (Js.prop rawObjectOptions "tsconfigRaw") "compilerOptions")).*1)
    as Hu by (vm_compute; repeat constructor; not_listed).
  split_and!; [done|..].
  - rewrite (tsconfigRaw_overrides_tsconfig_file rawObjectOptions (Js.str "ts") tsconfigJson
               "target" Hu); [reflexivity|not_listed].
  - rewrite (tsconfigRaw_overrides_tsconfig_file rawObjectOptions (Js.str "ts") tsconfigJson
               "strict" Hu); [reflexivity|not_listed].
Defined.

Lemma jsx_options_blank_tsconfig_fields_witness :
  NoDup (Esbuild.ownProps (Js.prop (Js.prop tsOptions "tsconfigRaw") "compilerOptions")).*1
  ∧ JsMap.get "jsx" (Esbuild.compilerOptionsFor tsOptions (Js.str "ts") tsconfigJson).1
    = Some Js.undefined.
Proof.
  assert (NoDup (Esbuild.ownProps
                   (Js.prop (Js.prop tsOptions "tsconfigRaw") "compilerOptions")).*1)
    as Hu by constructor.
  split; [done|].
  rewrite (jsx_options_blank_tsconfig_fields tsOptions (Js.str "ts") tsconfigJson
             "jsx" "jsx" Hu); [reflexivity|by repeat constructor].
Defined.


(** ** [esbuildPlugin] and [buildEsbuildPlugin]: the options of the two hooks *)

Lemma assign_uniqueKeys o kvs : uniqueKeys o → uniqueKeys (Js.assign o kvs).
Proof.
  unfold Js.assign. revert o. induction kvs as [|[k v] kvs IH]; intros o Ho; [done|].
  cbn [foldl]. apply IH. by apply set_uniqueKeys.
Qed.

Lemma spread_uniqueKeys o v : uniqueKeys o → uniqueKeys (Js.spread o v).
Proof.
  intros Ho. destruct v as [| |b|n|s|items|props]; try done. by apply (assign_uniqueKeys o props).
Qed.

Lemma delete_uniqueKeys k (o : list (string * Js.value)) :
  NoDup o.*1 → NoDup (Js.delete k o).*1.
Proof.
  unfold Js.delete. induction o as [|[k0 v0] o IH]; [done|].
  cbn [fmap list_fmap fst]. intros [Hk Ho]%list.NoDup_cons.
  rewrite list.filter_cons. destruct (decide _); [|by apply IH].
  cbn [fmap list_fmap fst]. apply list.NoDup_cons. split; [|by apply IH].
  intros Hin. apply Hk. apply list_elem_of_fmap in Hin as ([k1 v1] & -> & Hin).
  apply list_elem_of_filter in Hin as [_ Hin].
  apply list_elem_of_fmap. by exists (k1, v1).
Qed.

(** Under a key it neither deletes nor assigns, [resolvedOptions] holds the
    caller's option, [sourcemap] and [sourcefile] having defaults. *)
Lemma resolvedOptions_keeps filename ext options loaded k :
  NoDup (Esbuild.ownProps options).*1 →
  k ∉ ["include"; "exclude"; "jsxInject"; "loader"; "tsconfigRaw"; "supported"] →
  JsMap.get k (Esbuild.resolvedOptions filename ext options loaded) =
    match JsMap.get k (Esbuild.ownProps options) with
    | Some v => Some v
    | None => JsMap.get k [("sourcemap", Js.boolean true); ("sourcefile", Js.str filename)]
    end.
Proof.
  intros Hu Hk. unfold Esbuild.resolvedOptions. cbn zeta.
  destruct (if negb _ then _ else _) as [raw fb]. rewrite !get_delete.
  destruct (decide (k = "jsxInject")) as [->|_]; [exfalso; apply Hk; by repeat constructor|].
  destruct (decide (k = "exclude")) as [->|_]; [exfalso; apply Hk; by repeat constructor|].
  destruct (decide (k = "include")) as [->|_]; [exfalso; apply Hk; by repeat constructor|].
  rewrite get_assign. cbn [reverse rev_append JsMap.get].
  destruct (decide ("supported" = k)) as [<-|_]; [exfalso; apply Hk; by repeat constructor|].
  destruct (decide ("tsconfigRaw" = k)) as [<-|_]; [exfalso; apply Hk; by repeat constructor|].
  destruct (decide ("loader" = k)) as [<-|_]; [exfalso; apply Hk; by repeat constructor|].
  by rewrite get_spread.
Qed.

Lemma resolvedOptions_deletes filename ext options loaded k :
  k ∈ ["include"; "exclude"; "jsxInject"] →
  JsMap.get k (Esbuild.resolvedOptions filename ext options loaded) = None.
Proof.
  intros Hk. unfold Esbuild.resolvedOptions. cbn zeta.
  destruct (if negb _ then _ else _) as [raw fb]. rewrite !get_delete.
  destruct (decide (k = "jsxInject")); [done|]. destruct (decide (k = "exclude")); [done|].
  destruct (decide (k = "include")); [done|].
  exfalso. revert Hk. not_listed.
Qed.

(** X24: whatever the esbuild options of the user, the transform hook of
    [esbuildPlugin] has esbuild run with [minify], [minifyIdentifiers],
    [minifySyntax], [minifyWhitespace], [treeShaking] and [keepNames] all
    [false] and without [include], [exclude] and [jsxInject]; [target] and
    [charset] are the user's, [esnext] and [utf8] by default. The user's
    options have distinct keys, as the properties of an object have. *)
Theorem esbuildPlugin_transform_never_minifies config id ext loaded resolved :
  NoDup (Esbuild.ownProps (Esbuild.config_esbuild config)).*1 →
  Esbuild.pluginResolvedOptions config id ext loaded = Some resolved →
  (∀ k, k ∈ ["minify"; "minifyIdentifiers"; "minifySyntax"; "minifyWhitespace";
             "treeShaking"; "keepNames"] →
        JsMap.get k resolved = Some (Js.boolean false))
  ∧ (∀ k, k ∈ ["include"; "exclude"; "jsxInject"] → JsMap.get k resolved = None)
  ∧ JsMap.get "target" resolved =
      Some (default (Js.str "esnext")
              (JsMap.get "target" (Esbuild.ownProps (Esbuild.config_esbuild config))))
  ∧ JsMap.get "charset" resolved =
      Some (default (Js.str "utf8")
              (JsMap.get "charset" (Esbuild.ownProps (Esbuild.config_esbuild config)))).
Proof.
  intros Hu H. unfold Esbuild.pluginResolvedOptions, Esbuild.transformOptions in H.
  cbn zeta in H. destruct (Js.not_nullish _); [|done]. cbn [fmap option_fmap option_map] in H.
  apply (inj Some) in H. subst resolved.
  set (rest := Js.delete "exclude" _).
  assert (NoDup rest.*1) as Hrest by (by do 3 apply delete_uniqueKeys).
  assert (∀ k, k ∉ ["include"; "exclude"; "jsxInject"] →
               JsMap.get k rest
               = JsMap.get k (Esbuild.ownProps (Esbuild.config_esbuild config))) as Hget.
  { intros k Hk. subst rest. rewrite !get_delete.
    destruct (decide (k = "exclude")) as [->|_]; [exfalso; apply Hk; by repeat constructor|].
    destruct (decide (k = "include")) as [->|_]; [exfalso; apply Hk; by repeat constructor|].
    destruct (decide (k = "jsxInject")) as [->|_]; [exfalso; apply Hk; by repeat constructor|].
    done. }
  clearbody rest.
  set (topts := Js.assign _ _).
  assert (NoDup (Esbuild.ownProps (Js.object topts)).*1) as Htopts.
  { apply assign_uniqueKeys, spread_uniqueKeys. unfold uniqueKeys.
    cbn [fmap list_fmap fst]. repeat constructor; not_listed. }
  split_and!.
  - intros k Hk.
    assert (k ∉ ["include"; "exclude"; "jsxInject"; "loader"; "tsconfigRaw"; "supported"])
      as Hout.
    { repeat (apply elem_of_cons in Hk as [->|Hk]; [not_listed|]). by apply elem_of_nil in Hk. }
    rewrite resolvedOptions_keeps by done.
    cbn [Esbuild.ownProps]. subst topts. rewrite get_assign.
    cbn [reverse rev_append].
    repeat (apply elem_of_cons in Hk as [->|Hk]; [done|]). by apply elem_of_nil in Hk.
  - intros k Hk. by apply resolvedOptions_deletes.
  - rewrite resolvedOptions_keeps by (done || not_listed).
    cbn [Esbuild.ownProps]. subst topts. rewrite get_assign. cbn [reverse rev_append JsMap.get].
    rewrite !decide_False by done. rewrite get_spread by done. cbn [Esbuild.ownProps].
    rewrite Hget by not_listed. by destruct (JsMap.get "target" _).
  - rewrite resolvedOptions_keeps by (done || not_listed).
    cbn [Esbuild.ownProps]. subst topts. rewrite get_assign. cbn [reverse rev_append JsMap.get].
    rewrite !decide_False by done. rewrite get_spread by done. cbn [Esbuild.ownProps].
    rewrite Hget by not_listed. by destruct (JsMap.get "charset" _).
Qed.

Lemma resolveEsbuildTranspileOptions_uniqueKeys config format opts :
  Esbuild.resolveEsbuildTranspileOptions config format = Some opts → NoDup opts.*1.
Proof.
  intros H. rewrite (resolveEsbuildTranspileOptions_cases _ _ _ H). cbn zeta.
  apply assign_uniqueKeys. unfold Esbuild.optionsObject. cbn zeta.
  apply assign_uniqueKeys, spread_uniqueKeys. unfold uniqueKeys.
  cbn [fmap list_fmap fst]. repeat constructor; not_listed.
Qed.

Lemma resolveEsbuildTranspileOptions_treeShaking config format opts :
  Esbuild.resolveEsbuildTranspileOptions config format = Some opts →
  JsMap.get "treeShaking" opts
  = Some (Js.boolean (Js.is_str (Esbuild.build_minify config) "esbuild")).
Proof.
  intros H. rewrite (resolveEsbuildTranspileOptions_cases _ _ _ H). cbn zeta.
  rewrite get_assign.
  destruct (Js.is_str (Esbuild.build_minify config) "esbuild"); cbn [negb]; [|done].
  destruct (_ || _); [done|]. by destruct (_ && _).
Qed.

(** X25: when [renderChunk] has a chunk transformed, esbuild runs with the
    build's target, the format mapped from the output format,
    [treeShaking] on exactly when [build.minify] is ['esbuild'], and
    without [include], [exclude] and [jsxInject]; its [supported] table
    marks [dynamic-import] and [import-meta] as supported unless the
    user's [esbuild.supported] says otherwise. The user's [supported] table
    has distinct keys, as the properties of an object have. *)
Theorem renderChunk_hands_build_options_to_esbuild
    config skip format fileName ext loaded resolved :
  NoDup (Esbuild.ownProps (Js.prop (Esbuild.config_esbuild config) "supported")).*1 →
  Esbuild.renderChunkOptions config skip format fileName ext loaded = Some resolved →
  JsMap.get "target" resolved = Some (Js.or (Esbuild.build_target config) Js.undefined)
  ∧ JsMap.get "format" resolved = Some (Esbuild.rollupToEsbuildFormatMap format)
  ∧ JsMap.get "treeShaking" resolved
    = Some (Js.boolean (Js.is_str (Esbuild.build_minify config) "esbuild"))
  ∧ (∀ k, k ∈ ["include"; "exclude"; "jsxInject"] → JsMap.get k resolved = None)
  ∧ ∃ supported,
      JsMap.get "supported" resolved = Some (Js.object supported)
      ∧ ∀ k, k ∈ ["dynamic-import"; "import-meta"] →
             JsMap.get k supported =
               Some (default (Js.boolean true)
                       (JsMap.get k
                          (Esbuild.ownProps
                             (Js.prop (Esbuild.config_esbuild config) "supported")))).
Proof.
  intros Hsup H. unfold Esbuild.renderChunkOptions in H.
  destruct (Js.truthy skip); [done|].
  destruct (Esbuild.resolveEsbuildTranspileOptions config format) as [opts|] eqn:Hopts; [|done].
  apply (inj Some) in H. subst resolved.
  pose proof (resolveEsbuildTranspileOptions_uniqueKeys _ _ _ Hopts) as Hu.
  destruct (optionsObject_reads config format) as (Ht & Hf & Hs & _).
  split_and!.
  - rewrite resolvedOptions_keeps by (done || not_listed). cbn [Esbuild.ownProps].
    rewrite (resolveEsbuildTranspileOptions_keeps _ _ _ _ Hopts), Ht;
      [done|unfold Esbuild.minifyKeys; not_listed].
  - rewrite resolvedOptions_keeps by (done || not_listed). cbn [Esbuild.ownProps].
    rewrite (resolveEsbuildTranspileOptions_keeps _ _ _ _ Hopts), Hf;
      [done|unfold Esbuild.minifyKeys; not_listed].
  - rewrite resolvedOptions_keeps by (done || not_listed). cbn [Esbuild.ownProps].
    by rewrite (resolveEsbuildTranspileOptions_treeShaking _ _ _ Hopts).
  - intros k Hk. by apply resolvedOptions_deletes.
  - destruct (resolvedOptions_reads fileName ext (Js.object opts) loaded) as (_ & _ & ->).
    eexists. split; [done|]. intros k Hk. cbn [Js.prop].
    rewrite (resolveEsbuildTranspileOptions_keeps _ _ _ "supported" Hopts), Hs
      by (unfold Esbuild.minifyKeys; not_listed).
    cbn [default from_option Datatypes.id]. rewrite get_spread.
    + cbn [Esbuild.ownProps]. rewrite get_spread by done.
      destruct (JsMap.get k (Esbuild.ownProps _)) as [v|]; [done|].
      repeat (apply elem_of_cons in Hk as [->|Hk]; [done|]). by apply elem_of_nil in Hk.
    + cbn [Esbuild.ownProps]. apply spread_uniqueKeys. unfold uniqueKeys.
      cbn [fmap list_fmap fst]. repeat constructor; not_listed.
Qed.

Lemma esbuildPlugin_transform_never_minifies_witness :
  NoDup (Esbuild.ownProps (Esbuild.config_esbuild terserConfig)).*1
  ∧ ∃ resolved,
      Esbuild.pluginResolvedOptions terserConfig "src/main.ts" "ts" tsconfigJson
        = Some resolved
      ∧ JsMap.get "minify" resolved = Some (Js.boolean false)
      ∧ JsMap.get "treeShaking" resolved = Some (Js.boolean false)
      ∧ JsMap.get "target" resolved = Some (Js.str "esnext").
Proof.
  assert (NoDup (Esbuild.ownProps (Esbuild.config_esbuild terserConfig)).*1) as Hu
    by (vm_compute; repeat constructor; not_listed).
  split; [done|]. eexists. split; [reflexivity|].
  destruct (esbuildPlugin_transform_never_minifies terserConfig "src/main.ts" "ts"
              tsconfigJson _ Hu eq_refl) as (Hoff & _ & Ht & _).
  split_and!; [apply Hoff; by repeat constructor|apply Hoff; by repeat constructor|exact Ht].
Defined.

Lemma renderChunk_hands_build_options_witness :
  NoDup (Esbuild.ownProps (Js.prop (Esbuild.config_esbuild libConfig) "supported")).*1
  ∧ ∃ resolved,
      Esbuild.renderChunkOptions libConfig Js.undefined Esbuild.es "index.mjs" "mjs" None
        = Some resolved
      ∧ JsMap.get "target" resolved = Some (Js.array [Js.str "es2020"; Js.str "safari14"])
      ∧ JsMap.get "format" resolved = Some (Js.str "esm")
      ∧ JsMap.get "treeShaking" resolved = Some (Js.boolean true).
Proof.
  assert (NoDup (Esbuild.ownProps
                   (Js.prop (Esbuild.config_esbuild libConfig) "supported")).*1) as Hu
    by (vm_compute; constructor).
  split; [done|]. eexists. split; [reflexivity|].
  destruct (renderChunk_hands_build_options_to_esbuild libConfig Js.undefined Esbuild.es
              "index.mjs" "mjs" None _ Hu eq_refl) as (Ht & Hf & Hts & _).
  split_and!; [exact Ht|exact Hf|exact Hts].
Defined.
